(** * linear-stagehand-tests: the bounded test queue, the acceptance-criteria
  extractor and the webhook de-duplication table.

  Shallow embedding of
    - [TestQueue] (services/queue.ts),
    - [extractAcceptanceCriteria] (services/linear.ts),
    - the duplicate-run guard of [router.post("/linear")] (routes/webhooks.ts),
    - [parseIssueForTesting] and [cleanTestName] (services/linear.ts),
    - the handlers [router.post("/linear")] and [router.post("/linear/e2e")]
      over time (routes/webhooks.ts),
    - the [rawDescription] that [router.post("/run-test")] writes
      (routes/api.ts),
  followed by the properties proved about them. *)

From Stdlib Require Import ZArith NArith Lia Ascii String.
From stdpp Require Import gmap list sorting.

Set Default Proof Using "Type".
Set Warnings "-clear-no-such-hyp".
Open Scope Z_scope.

(* ===================================================================== *)
(** * JavaScript data *)
(* ===================================================================== *)

(** A JavaScript string is a sequence of UTF-16 code units. *)
Abbreviation jsstring := (list N).

Module JS.

(** Code units of an ASCII literal, for readable examples. *)
Fixpoint lit (s : string) : jsstring :=
  match s with
  | EmptyString => []
  | String c s' => N_of_ascii c :: lit s'
  end.

(** [lines [l1; l2; ...]] is [l1 + "\n" + l2 + ...]. *)
Fixpoint lines (ls : list string) : jsstring :=
  match ls with
  | [] => []
  | [l] => lit l
  | l :: ls' => lit l ++ 10%N :: lines ls'
  end.

(** The values a piece of work can return or throw.  [JError message] is
    what [new Error(message)] builds: an instance of [Error] with the name
    and the [toString] it inherits.  [JErrorLike repr] is any other
    instance of [Error] (a [TypeError], an error with a name or a
    [toString] of its own), and [JObject repr] any other value (a number,
    a symbol, an object that is no [Error]).  For these two [repr] is what
    [String(v)] yields, and [None] when [String(v)] throws: an object with
    no usable [toString] or [valueOf], such as [Object.create(null)], or
    one whose [toString] throws.  (A value on which [instanceof] itself
    throws, a revoked proxy, ends the [catch] block of [processQueue] as
    [JObject None] does.) *)
Inductive value :=
| JUndefined
| JNull
| JBool (b : bool)
| JString (s : jsstring)
| JError (message : jsstring)
| JErrorLike (repr : option jsstring)
| JObject (repr : option jsstring).

(** [error instanceof Error] *)
Definition instanceofError (v : value) : bool :=
  match v with JError _ | JErrorLike _ => true | _ => false end.

(** [String(v)]: the string, or [None] when the conversion throws. *)
Definition String (v : value) : option jsstring :=
  match v with
  | JUndefined => Some (lit "undefined")
  | JNull => Some (lit "null")
  | JBool true => Some (lit "true")
  | JBool false => Some (lit "false")
  | JString s => Some s
  | JError [] => Some (lit "Error")
  | JError m => Some (lit "Error: " ++ m)
  | JErrorLike repr => repr
  | JObject repr => repr
  end.

(** [new Error(message)] *)
Definition newError (message : jsstring) : value := JError message.

(** How a promise ended. *)
Inductive settlement :=
| Fulfilled (v : value)
| Rejected (reason : value).

(** How an awaited piece of work ended. *)
Inductive completion :=
| Returned (v : value)
| Threw (error : value).

End JS.

(* ===================================================================== *)
(** * TestQueue (services/queue.ts) *)
(* ===================================================================== *)

Module Queue.
Import JS.

(** [QueuedTask<T>].  The [task] closure is opaque to the queue: how it
    ends is supplied from outside when it settles.  The [resolve]/[reject]
    pair is represented by the number of the promise it belongs to. *)
Record QueuedTask := {
  id : jsstring;
  promise : nat;
  queuedAt : Z;
}.

#[global] Instance QueuedTask_eq_dec : EqDecision QueuedTask.
Proof. solve_decision. Defined.

(** The three private fields of the class.  [maxConcurrent] is taken to be
    an integer (the constructor is fed by [parseInt]).  The [Map] kept in
    [running] is two things here: [running] has its entries, and
    [runningOrder] the order of its keys, which a [Map] keeps as the order
    in which they were inserted: each key has the number of the start that
    inserted it. *)
Record TestQueue := {
  queue : list QueuedTask;
  running : gmap jsstring Z;
  runningOrder : gmap jsstring nat;
  maxConcurrent : Z;
}.

(** The queue object together with what the runtime holds around it:
    the activations of [processQueue] suspended at their [await], the
    promises handed out by [enqueue], and the lines
    "[Queue] Starting task ..." written so far. *)
Record world := {
  tq : TestQueue;
  awaiting : list QueuedTask;
  promises : gmap nat settlement;
  nextPromise : nat;
  started : list QueuedTask;
}.

(** [new TestQueue(maxConcurrent)] *)
Definition new (maxConcurrent : Z) : world :=
  {| tq := {| queue := []; running := ∅; runningOrder := ∅;
              maxConcurrent := maxConcurrent |};
     awaiting := []; promises := ∅; nextPromise := 0%nat; started := [] |}.

(** [running.set(id, ...)] leaves a key that is there at its place and
    puts a new key last; [stamp] is larger than the number of any key
    there. *)
Definition setOrder (i : jsstring) (stamp : nat) (q : TestQueue) : gmap jsstring nat :=
  match running q !! i with
  | Some _ => runningOrder q
  | None => <[i := stamp]> (runningOrder q)
  end.

(** [processQueue], from its entry to the [await]: the capacity check, the
    [shift], the [running.set] and the call of the task. [now] is what
    [Date.now()] returns.  The result also tells which task was started. *)
Definition processQueue (now : Z) (w : world) : world * option QueuedTask :=
  let q := tq w in
  if Z.of_nat (size (running q)) >=? maxConcurrent q then (w, None)
  else
    match queue q with
    | [] => (w, None)
    | nextTask :: rest =>
        ({| tq := {| queue := rest;
                     running := <[id nextTask := now]> (running q);
                     runningOrder := setOrder (id nextTask) (length (started w)) q;
                     maxConcurrent := maxConcurrent q |};
            awaiting := awaiting w ++ [nextTask];
            promises := promises w;
            nextPromise := nextPromise w;
            started := started w ++ [nextTask] |},
         Some nextTask)
    end.

(** [this.queue.push({ id, task, resolve, reject, queuedAt })], in the
    executor of a new promise. *)
Definition pushTask (i : jsstring) (now : Z) (w : world) : world :=
  let q := tq w in
  {| tq := {| queue := queue q ++ [{| id := i; promise := nextPromise w; queuedAt := now |}];
              running := running q;
              runningOrder := runningOrder q;
              maxConcurrent := maxConcurrent q |};
     awaiting := awaiting w;
     promises := promises w;
     nextPromise := S (nextPromise w);
     started := started w |}.

(** [enqueue(id, task)]: push, then [processQueue].  Returns the promise
    as well. *)
Definition enqueue (i : jsstring) (now : Z) (w : world) : world * nat :=
  (fst (processQueue now (pushTask i now w)), nextPromise w).

(** What the [try]/[catch] hands to the promise: [nextTask.resolve(result)],
    or [nextTask.reject(...)] with the error itself when it is an instance
    of [Error] and with [new Error(String(error))] when it is not.  [None]
    when [String(error)] throws: the argument of [reject] is evaluated
    first, so [reject] is not called and the promise is left as it is. *)
Definition outcome (c : completion) : option settlement :=
  match c with
  | Returned result => Some (Fulfilled result)
  | Threw error =>
      if instanceofError error then Some (Rejected error)
      else (fun message => Rejected (newError message)) <$> String error
  end.

(** The end of the awaited task up to, but not including, the call of
    [processQueue] in the [finally] block: the promise is settled, unless
    the [catch] block threw, and [running.delete(nextTask.id)] runs in
    either case.  (An exception of the [catch] block leaves [processQueue]
    after the [finally] block and rejects the promise of that call of
    [processQueue], which nobody holds; the server only logs such
    rejections.) *)
Definition release (k : nat) (nextTask : QueuedTask) (c : completion) (w : world) : world :=
  let q := tq w in
  {| tq := {| queue := queue q;
              running := delete (id nextTask) (running q);
              runningOrder := delete (id nextTask) (runningOrder q);
              maxConcurrent := maxConcurrent q |};
     awaiting := delete k (awaiting w);
     promises := match outcome c with
                 | Some s => <[promise nextTask := s]> (promises w)
                 | None => promises w
                 end;
     nextPromise := nextPromise w;
     started := started w |}.

(** The rest of [processQueue] once the awaited task number [k] (among
    those awaiting) has ended with [c]: settle the promise if the [catch]
    block gets that far, delete the id, process the next task.  [None]
    when there is no such activation. *)
Definition resume (k : nat) (c : completion) (now : Z) (w : world)
  : option (world * option QueuedTask) :=
  match awaiting w !! k with
  | None => None
  | Some nextTask => Some (processQueue now (release k nextTask c w))
  end.

(** [running.keys()]: the keys in the order of their insertion. *)
Definition insertedAt (q : TestQueue) (i : jsstring) : nat :=
  default 0%nat (runningOrder q !! i).

Definition insertedBefore (q : TestQueue) (i j : jsstring) : Prop :=
  (insertedAt q i <= insertedAt q j)%nat.

#[global] Instance insertedBefore_dec q i j : Decision (insertedBefore q i j).
Proof. unfold insertedBefore. apply _. Defined.

Definition keys (q : TestQueue) : list jsstring :=
  merge_sort (insertedBefore q) (map_to_list (running q)).*1.

(** [getStatus()]: queued, running, maxConcurrent, runningIds, queuedIds. *)
Definition getStatus (w : world) : Z * Z * Z * list jsstring * list jsstring :=
  let q := tq w in
  (Z.of_nat (length (queue q)), Z.of_nat (size (running q)), maxConcurrent q,
   keys q, id <$> queue q).

Definition isRunning (i : jsstring) (w : world) : bool :=
  bool_decide (is_Some (running (tq w) !! i)).

Definition isQueued (i : jsstring) (w : world) : bool :=
  existsb (fun t => bool_decide (id t = i)) (queue (tq w)).

(** [Array.prototype.findIndex] for the predicate [t.id === id]. *)
Fixpoint findIndex (i : jsstring) (q : list QueuedTask) : Z :=
  match q with
  | [] => -1
  | t :: q' =>
      if bool_decide (id t = i) then 0
      else let pos := findIndex i q' in
           if pos =? -1 then -1 else pos + 1
  end.

Definition getPosition (i : jsstring) (w : world) : Z :=
  if isRunning i w then 0
  else
    let pos := findIndex i (queue (tq w)) in
    if pos =? -1 then -1 else pos + 1.

(** What can happen to a queue: a submission, or the end of a task that
    was started. *)
Inductive event :=
| Enqueue (i : jsstring) (now : Z)
| Settle (k : nat) (c : completion) (now : Z).

Definition step (w : world) (e : event) : option world :=
  match e with
  | Enqueue i now => Some (fst (enqueue i now w))
  | Settle k c now => fst <$> resume k c now w
  end.

Fixpoint run (w : world) (es : list event) : option world :=
  match es with
  | [] => Some w
  | e :: es' =>
      match step w e with
      | Some w' => run w' es'
      | None => None
      end
  end.

(** The ids submitted by a sequence of events, in order. *)
Definition submitted (es : list event) : list jsstring :=
  omap (fun e => match e with Enqueue i _ => Some i | Settle _ _ _ => None end) es.

(** ** Notions used to state what the queue guarantees *)

(** A task with the id [i] is running or queued, as far as the queue can
    tell. *)
Definition inFlight (i : jsstring) (w : world) : bool :=
  isRunning i w || isQueued i w.

(** What the specification asks of the calling layer: along [es], from
    [w] on, no id is submitted while a task with that id is running or
    queued. *)
Fixpoint apart (w : world) (es : list event) : bool :=
  match es with
  | [] => true
  | e :: es' =>
      match e with
      | Enqueue i _ => negb (inFlight i w)
      | Settle _ _ _ => true
      end
      && match step w e with
         | Some w' => apart w' es'
         | None => true
         end
  end.

(** [n] is the index of the first task of the waiting line [q] that
    carries the id [i]. *)
Definition firstAt (i : jsstring) (q : list QueuedTask) (n : nat) : Prop :=
  (id <$> q) !! n = Some i ∧ ∀ m, (m < n)%nat → (id <$> q) !! m ≠ Some i.

(** What holds of every world reached from [new N]: the ceiling is kept. *)
Record bounded (N : Z) (w : world) : Prop := {
  bounded_max : maxConcurrent (tq w) = N;
  bounded_size : Z.of_nat (size (running (tq w))) ≤ N;
}.

(** The tasks started so far followed by those waiting are all the tasks
    ever submitted, in the order of their submission; the awaited ones
    are among the started ones. *)
Record ordered (w : world) : Prop := {
  ordered_arrivals : promise <$> (started w ++ queue (tq w)) = seq 0 (nextPromise w);
  ordered_awaiting : awaiting w `sublist_of` started w;
}.

(** No id is under way twice, and the running set holds the ids of the
    started tasks that have not settled. *)
Record distinct (w : world) : Prop := {
  distinct_ids : NoDup (id <$> (started w ++ queue (tq w)));
  distinct_dom : dom (running (tq w)) = list_to_set (id <$> awaiting w);
  distinct_awaiting : awaiting w `sublist_of` started w;
}.

(** The same of the tasks under way and waiting only: no two of them
    share an id, and the running set holds the ids of those under way. *)
Record flights (w : world) : Prop := {
  flights_ids : NoDup (id <$> (awaiting w ++ queue (tq w)));
  flights_dom : dom (running (tq w)) = list_to_set (id <$> awaiting w);
}.

End Queue.

(* ===================================================================== *)
(** * Regular expressions, as far as the extractor uses them *)
(* ===================================================================== *)

Module Regex.
Local Open Scope N_scope.

(** LineTerminator: LF, CR, LS, PS. *)
Definition isLineTerminator (c : N) : bool :=
  (c =? 10) || (c =? 13) || (c =? 8232) || (c =? 8233).

(** [\s]: WhiteSpace and LineTerminator.  [String.prototype.trim] strips
    the same set. *)
Definition isSpace (c : N) : bool :=
  ((9 <=? c) && (c <=? 13)) || (c =? 32) || (c =? 160) || (c =? 5760)
  || ((8192 <=? c) && (c <=? 8202)) || (c =? 8232) || (c =? 8233)
  || (c =? 8239) || (c =? 8287) || (c =? 12288) || (c =? 65279).

(** [\d] *)
Definition isDigit (c : N) : bool := (48 <=? c) && (c <=? 57).

(** Canonicalize of a case-insensitive pattern without the [u] flag.  A
    code unit of 128 or more never canonicalizes to an ASCII one, and all
    pattern characters here are ASCII, so only the ASCII letters matter. *)
Definition canonicalize (c : N) : N :=
  if (97 <=? c) && (c <=? 122) then c - 32 else c.

Record flags := { ignoreCase : bool; multiline : bool }.

(** What matches one code unit. *)
Inductive atom :=
| Char (c : N)          (* a pattern character *)
| OneOf (cs : list N)   (* [...] of pattern characters *)
| Space                 (* \s and [\s] *)
| Digit                 (* \d *)
| Dot                   (* . *)
| Any.                  (* [\s\S] *)

Definition sameChar (f : flags) (c x : N) : bool :=
  if ignoreCase f then canonicalize x =? canonicalize c else x =? c.

Definition accepts (f : flags) (a : atom) (x : N) : bool :=
  match a with
  | Char c => sameChar f c x
  | OneOf cs => existsb (fun c => sameChar f c x) cs
  | Space => isSpace x
  | Digit => isDigit x
  | Dot => negb (isLineTerminator x)
  | Any => true
  end.

Inductive regex :=
| Empty
| Atom (a : atom)
| Bol                                    (* ^ *)
| Eol                                    (* $ *)
| Seq (r1 r2 : regex)
| Alt (r1 r2 : regex)                    (* r1|r2 *)
| Rep (greedy : bool) (min : nat) (max : option nat) (a : atom)
                                         (* a*, a+, a{m,n}, a*? *)
| Group (r : regex)                      (* the capturing group 1 *)
| Look (r : regex).                      (* (?=r), no group inside *)

Fixpoint seq_of (rs : list regex) : regex :=
  match rs with
  | [] => Empty
  | [r] => r
  | r :: rs' => Seq r (seq_of rs')
  end.

(** The text of a pattern, character by character. *)
Definition word (s : string) : regex := seq_of (Atom ∘ Char <$> JS.lit s).

(** A position in the input: the code units before it (nearest first),
    those after it, and what group 1 holds. *)
Record pos := {
  before : list N;
  after : list N;
  capture : option jsstring;
}.

Definition atBol (f : flags) (bef : list N) : bool :=
  match bef with
  | [] => true
  | c :: _ => multiline f && isLineTerminator c
  end.

Definition atEol (f : flags) (aft : list N) : bool :=
  match aft with
  | [] => true
  | c :: _ => multiline f && isLineTerminator c
  end.

Definition room (max : option nat) : bool :=
  match max with Some O => false | _ => true end.

(** A quantified atom, with backtracking: a greedy one takes one more
    code unit first and gives it back when the rest fails, a lazy one
    tries the rest first. *)
Fixpoint rep {A} (f : flags) (a : atom) (greedy : bool) (min : nat) (max : option nat)
    (bef aft : list N) (k : list N → list N → option A) {struct aft} : option A :=
  let more (min' : nat) :=
    match aft with
    | c :: aft' =>
        if room max && accepts f a c
        then rep f a greedy min' (pred <$> max) (c :: bef) aft' k
        else None
    | [] => None
    end in
  match min with
  | S min' => more min'
  | O =>
      if greedy
      then match more O with Some x => Some x | None => k bef aft end
      else match k bef aft with Some x => Some x | None => more O end
  end.

(** The backtracking matcher, in continuation-passing style: [k] is the
    rest of the pattern. *)
Fixpoint matcher (A : Type) (f : flags) (r : regex) (s : pos) (k : pos → option A)
    {struct r} : option A :=
  match r with
  | Empty => k s
  | Atom a =>
      match after s with
      | c :: aft =>
          if accepts f a c
          then k {| before := c :: before s; after := aft; capture := capture s |}
          else None
      | [] => None
      end
  | Bol => if atBol f (before s) then k s else None
  | Eol => if atEol f (after s) then k s else None
  | Seq r1 r2 => matcher A f r1 s (fun s' => matcher A f r2 s' k)
  | Alt r1 r2 =>
      match matcher A f r1 s k with
      | Some x => Some x
      | None => matcher A f r2 s k
      end
  | Rep greedy min max a =>
      rep f a greedy min max (before s) (after s)
        (fun bef aft => k {| before := bef; after := aft; capture := capture s |})
  | Group r' =>
      matcher A f r' s (fun s' =>
        k {| before := before s'; after := after s';
             capture := Some (take (length (after s) - length (after s')) (after s)) |})
  | Look r' =>
      match matcher unit f r' s (fun _ => Some tt) with
      | Some _ => k s
      | None => None
      end
  end.
Arguments matcher {A} f r s k.

(** The search of RegExpBuiltinExec: the first start position, from the
    given one on, at which the pattern matches.  The result is the
    position where the match ends, with group 1. *)
Fixpoint search (f : flags) (r : regex) (bef aft : list N) {struct aft} : option pos :=
  match matcher f r {| before := bef; after := aft; capture := None |} Some with
  | Some s => Some s
  | None =>
      match aft with
      | [] => None
      | c :: aft' => search f r (c :: bef) aft'
      end
  end.

Fixpoint trimStart (s : jsstring) : jsstring :=
  match s with
  | c :: s' => if isSpace c then trimStart s' else s
  | [] => []
  end.

(** [String.prototype.trim] *)
Definition trim (s : jsstring) : jsstring := rev (trimStart (rev (trimStart s))).

(** ** What a pattern matches *)

Definition fits (max : option nat) (n : nat) : Prop :=
  match max with Some m => (n ≤ m)%nat | None => True end.

(** [lang f r bef w aft c c']: the pattern [r] matches the code units
    [w] that stand between [bef] (nearest first) and [aft], and group 1,
    holding [c] before, holds [c'] after.  This says which matches
    exist, not which one backtracking finds first. *)
Fixpoint lang (f : flags) (r : regex) (bef w aft : list N) (c c' : option jsstring)
    : Prop :=
  match r with
  | Empty => w = [] ∧ c' = c
  | Atom a => (∃ x, w = [x] ∧ accepts f a x = true) ∧ c' = c
  | Bol => w = [] ∧ atBol f bef = true ∧ c' = c
  | Eol => w = [] ∧ atEol f aft = true ∧ c' = c
  | Seq r1 r2 =>
      ∃ u v c1, w = u ++ v ∧ lang f r1 bef u (v ++ aft) c c1
                ∧ lang f r2 (rev u ++ bef) v aft c1 c'
  | Alt r1 r2 => lang f r1 bef w aft c c' ∨ lang f r2 bef w aft c c'
  | Rep _ min max a =>
      Forall (fun x => accepts f a x = true) w ∧ (min ≤ length w)%nat
      ∧ fits max (length w) ∧ c' = c
  | Group r' => (∃ c1, lang f r' bef w aft c c1) ∧ c' = Some w
  | Look r' => w = [] ∧ (∃ u v c1, aft = u ++ v ∧ lang f r' bef u v c c1) ∧ c' = c
  end.

(** The least number of code units a match of [r] takes. *)
Fixpoint minLength (r : regex) : nat :=
  match r with
  | Empty | Bol | Eol | Look _ => 0
  | Atom _ => 1
  | Seq r1 r2 => minLength r1 + minLength r2
  | Alt r1 r2 => Nat.min (minLength r1) (minLength r2)
  | Rep _ min _ _ => min
  | Group r' => minLength r'
  end.

(** Whether every match of [r] goes through the group. *)
Fixpoint captures (r : regex) : bool :=
  match r with
  | Empty | Bol | Eol | Look _ | Atom _ | Rep _ _ _ _ => false
  | Seq r1 r2 => captures r1 || captures r2
  | Alt r1 r2 => captures r1 && captures r2
  | Group _ => true
  end.

(** Whether [r] is free of look-aheads. *)
Fixpoint lookFree (r : regex) : bool :=
  match r with
  | Look _ => false
  | Seq r1 r2 | Alt r1 r2 => lookFree r1 && lookFree r2
  | Group r' => lookFree r'
  | _ => true
  end.

(** [e] occurs in [s], somewhere in the middle. *)
Definition within (e s : jsstring) : Prop := ∃ a b, s = a ++ e ++ b.

(** The strings [es] occur in [s] one after the other, in this order. *)
Fixpoint occursInOrder (es : list jsstring) (s : jsstring) : Prop :=
  match es with
  | [] => True
  | e :: es' => ∃ a s', s = a ++ e ++ s' ∧ occursInOrder es' s'
  end.

(** Nothing to strip at the start. *)
Definition noLeadingSpace (s : jsstring) : Prop :=
  match s with [] => True | c :: _ => isSpace c = false end.

End Regex.

(* ===================================================================== *)
(** * extractAcceptanceCriteria (services/linear.ts) *)
(* ===================================================================== *)

Module Linear.
Import Regex.

(** [string | null | undefined] *)
Inductive description :=
| Null
| Undefined
| Text (s : jsstring).

(** What a call can do: return, throw, or run for ever (the model's
    loops carry fuel, [Diverges] is fuel running out). *)
Inductive result (A : Type) :=
| Returns (a : A)
| Throws
| Diverges.
Arguments Returns {A} a.
Arguments Throws {A}.
Arguments Diverges {A}.

Definition bind {A B} (x : result A) (g : A → result B) : result B :=
  match x with
  | Returns a => g a
  | Throws => Throws
  | Diverges => Diverges
  end.

(** [\n], [#{1,3}] and [\s*], which the patterns share. *)
Definition nl : regex := Atom (Char 10).
Definition hashes : regex := Rep true 1 (Some 3%nat) (Char 35).
Definition spaces : regex := Rep true 0 None Space.

(** /(?:^|\n)#{1,3}\s*acceptance\s*criteria\s*\n([\s\S]*?)(?=\n#{1,3}\s|\n\n\n|$)/i *)
Definition acSectionFlags : flags := {| ignoreCase := true; multiline := false |}.
Definition acSectionRegex : regex :=
  seq_of [ Alt Bol nl; hashes; spaces; word "acceptance"; spaces; word "criteria";
           spaces; nl;
           Group (Rep false 0 None Any);
           Look (Alt (seq_of [nl; hashes; Atom Space])
                (Alt (seq_of [nl; nl; nl])
                     Eol)) ].

(** The flags [gim]; [g] is the [lastIndex] threaded through [execLoop]. *)
Definition lineFlags : flags := {| ignoreCase := true; multiline := true |}.

(** /^[\s]*[-*]\s*\[[ x]\]\s*(.+)$/gim *)
Definition checkboxRegex : regex :=
  seq_of [ Bol; spaces; Atom (OneOf [45; 42]%N); spaces;
           Atom (Char 91); Atom (OneOf [32; 120]%N); Atom (Char 93); spaces;
           Group (Rep true 1 None Dot); Eol ].

(** /^[\s]*\d+[.)]\s*(.+)$/gim *)
Definition numberedRegex : regex :=
  seq_of [ Bol; spaces; Rep true 1 None Digit; Atom (OneOf [46; 41]%N); spaces;
           Group (Rep true 1 None Dot); Eol ].

(** /^[\s]*[-*]\s+(.+)$/gim *)
Definition bulletRegex : regex :=
  seq_of [ Bol; spaces; Atom (OneOf [45; 42]%N); Rep true 1 None Space;
           Group (Rep true 1 None Dot); Eol ].

(** [criteria.includes(criterion)] *)
Definition includes (criteria : list jsstring) (criterion : jsstring) : bool :=
  bool_decide (criterion ∈ criteria).

(** The body of each [while] loop. *)
Definition push (criteria : list jsstring) (match1 : jsstring) : list jsstring :=
  let criterion := trim match1 in
  if negb (bool_decide (criterion = [])) && negb (includes criteria criterion)
  then criteria ++ [criterion]
  else criteria.

(** [while ((match = re.exec(textToSearch)) !== null) { ... }] with
    [lastIndex] at the split [bef]/[aft] of the text. *)
Fixpoint execLoop (fuel : nat) (re : regex) (bef aft : list N) (criteria : list jsstring)
    : result (list jsstring) :=
  match fuel with
  | O => Diverges
  | S fuel' =>
      match search lineFlags re bef aft with
      | None => Returns criteria
      | Some s =>
          match capture s with
          | None => Throws
          | Some match1 => execLoop fuel' re (before s) (after s) (push criteria match1)
          end
      end
  end.

(** One loop over the whole text.  A match takes at least one code unit,
    so one round per code unit and one more for the failing [exec] is
    enough ([execLoop_enough]). *)
Definition scan (re : regex) (textToSearch : jsstring) (criteria : list jsstring)
    : result (list jsstring) :=
  execLoop (S (length textToSearch)) re [] textToSearch criteria.

(** [description.match(acSectionRegex)], reduced to its group 1. *)
Definition acSectionMatch (description : jsstring) : option (option jsstring) :=
  capture <$> search acSectionFlags acSectionRegex [] description.

(** [acSectionMatch ? acSectionMatch[1] : description] *)
Definition textToSearch (description : jsstring) : result jsstring :=
  match acSectionMatch description with
  | Some (Some body) => Returns body
  | Some None => Throws
  | None => Returns description
  end.

Definition extractAcceptanceCriteria (d : description) : result (list jsstring) :=
  match d with
  | Null | Undefined | Text [] => Returns []
  | Text description =>
      bind (textToSearch description) (fun textToSearch =>
      bind (scan checkboxRegex textToSearch []) (fun criteria =>
      bind (if (length criteria =? 0)%nat
            then scan numberedRegex textToSearch criteria
            else Returns criteria) (fun criteria =>
      if (length criteria =? 0)%nat && bool_decide (is_Some (acSectionMatch description))
      then scan bulletRegex textToSearch criteria
      else Returns criteria)))
  end.

(** ** Notions used to state what the section pattern finds *)

(** Equal up to the case of ASCII letters. *)
Definition sameText (t pat : jsstring) : Prop :=
  canonicalize <$> t = canonicalize <$> pat.

(** The heading itself: one to three [#], then "acceptance criteria" in
    any case, white space allowed (not required) before and between the
    two words. *)
Definition isAcHeading (hd : jsstring) : Prop :=
  ∃ k w1 t1 w2 t2,
    hd = replicate k 35%N ++ w1 ++ t1 ++ w2 ++ t2
    ∧ (1 ≤ k ≤ 3)%nat
    ∧ Forall (fun x => isSpace x = true) w1
    ∧ sameText t1 (JS.lit "acceptance")
    ∧ Forall (fun x => isSpace x = true) w2
    ∧ sameText t2 (JS.lit "criteria").

(** Where the look-ahead of the section pattern holds: at the end of the
    text, before a line break followed by one to three [#] and a white
    space, or before three line breaks. *)
Definition sectionEnd (q : jsstring) : Prop :=
  q = []
  ∨ (∃ k x rest, (1 ≤ k ≤ 3)%nat ∧ isSpace x = true
                 ∧ q = 10%N :: replicate k 35%N ++ x :: rest)
  ∨ (∃ rest, q = 10%N :: 10%N :: 10%N :: rest).

(** The number of [#] at the start of [q]. *)
Fixpoint countMarks (q : jsstring) : nat :=
  match q with
  | 35%N :: q' => S (countMarks q')
  | _ => 0%nat
  end.

(** [q] starts with a line break and a heading line of at most [depth]
    marks. *)
Definition headingUpTo (depth : nat) (q : jsstring) : bool :=
  match q with
  | 10%N :: q' =>
      let marks := countMarks q' in
      bool_decide (1 ≤ marks ≤ depth)%nat
      && match drop marks q' with
         | x :: _ => isSpace x
         | [] => false
         end
  | _ => false
  end.

(** [q] starts with two consecutive blank lines. *)
Definition blankLines (q : jsstring) : bool :=
  match q with
  | 10%N :: 10%N :: 10%N :: _ => true
  | _ => false
  end.

(** The section body as the specification words it (not as the code
    computes it), for a heading of [depth] marks whose line ends just
    before [rest]: everything up to the next heading line of the same or a
    shallower depth, or up to two consecutive blank lines, or the end of
    the text. *)
Fixpoint sectionBodySpec (depth : nat) (rest : jsstring) : jsstring :=
  match rest with
  | [] => []
  | x :: rest' =>
      if headingUpTo depth rest || blankLines rest then []
      else x :: sectionBodySpec depth rest'
  end.

(** ** Notions used to state what the extractor returns *)

(** A criterion as the extractor is to return it: not empty, trimmed. *)
Definition wellFormed (e : jsstring) : Prop := e ≠ [] ∧ trim e = e.

(** The text of a description; none when it is absent. *)
Definition textOf (d : description) : jsstring :=
  match d with
  | Null | Undefined => []
  | Text s => s
  end.

(** No part of the text matches the check-box, the numbered or the
    bullet pattern. *)
Definition patternFree (text : jsstring) : Prop :=
  ∀ re p w q c',
    re ∈ [checkboxRegex; numberedRegex; bulletRegex] →
    text = p ++ w ++ q →
    ¬ lang lineFlags re (rev p) w q None c'.

(** Somewhere in the text the check-box pattern matches (bullet marker,
    check-box token, text), and the text it captures is not blank. *)
Definition hasCheckboxLine (text : jsstring) : Prop :=
  ∃ p w q m,
    text = p ++ w ++ q
    ∧ lang lineFlags checkboxRegex (rev p) w q None (Some m)
    ∧ trim m ≠ [].

(** ** The list of criteria as the specification words it

    Steps 2 to 5 of the algorithm of the specification, and its rule
    for collecting: "collect the criterion text from every matching
    line, trim it, and keep it only if it is non-empty and not already
    collected".  These follow the words of the specification, not the
    loops of the code; the section is the one the code finds. *)

(** The texts a pattern captures in a text, match after match from the
    left, each match being looked for where the one before ended. *)
Fixpoint capturedFrom (fuel : nat) (re : regex) (bef aft : list N) : list jsstring :=
  match fuel with
  | O => []
  | S fuel' =>
      match search lineFlags re bef aft with
      | None => []
      | Some s =>
          match capture s with
          | None => []
          | Some match1 => match1 :: capturedFrom fuel' re (before s) (after s)
          end
      end
  end.

Definition captured (re : regex) (text : jsstring) : list jsstring :=
  capturedFrom (S (length text)) re [] text.

(** A list without the elements that occur earlier in it: of equal
    elements the first is kept, where it stands. *)
Fixpoint firstOccurrences (l : list jsstring) : list jsstring :=
  match l with
  | [] => []
  | x :: l' => x :: filter (fun y => y ≠ x) (firstOccurrences l')
  end.

(** What one strategy collects. *)
Definition collected (re : regex) (text : jsstring) : list jsstring :=
  firstOccurrences (filter (fun c => c ≠ []) (trim <$> captured re text)).

(** The strategies in their order of precedence: the check-box items if
    there are any, otherwise the numbered items if there are any,
    otherwise the plain bullets, in a section only. *)
Definition strategiesSpec (section : bool) (text : jsstring) : list jsstring :=
  match collected checkboxRegex text, collected numberedRegex text with
  | box :: boxes, _ => box :: boxes
  | [], item :: items => item :: items
  | [], [] => if section then collected bulletRegex text else []
  end.

Definition criteriaListSpec (d : description) : list jsstring :=
  match d with
  | Null | Undefined | Text [] => []
  | Text description =>
      match mjoin (acSectionMatch description) with
      | Some body => strategiesSpec true body
      | None => strategiesSpec false description
      end
  end.

(** ** The patterns in parts, for the proofs *)

(** The parts of the section pattern. *)
Definition acHead : regex :=
  seq_of [Alt Bol nl; hashes; spaces; word "acceptance"; spaces; word "criteria"].
Definition acBody : regex := Rep false 0 None Any.
Definition acLook : regex :=
  Alt (seq_of [nl; hashes; Atom Space]) (Alt (seq_of [nl; nl; nl]) Eol).

(** The check-box pattern up to the closing bracket, and its text. *)
Definition cbPrefix : regex :=
  seq_of [Bol; spaces; Atom (OneOf [45; 42]%N); spaces;
          Atom (Char 91); Atom (OneOf [32; 120]%N); Atom (Char 93)].
Definition dots : regex := Rep true 1 None Dot.

(** What the pattern matches up to the closing bracket. *)
Definition cbShape (w : jsstring) : Prop :=
  ∃ ws_a b ws_b x,
    w = ws_a ++ b :: ws_b ++ [91%N; x; 93%N]
    ∧ Forall (fun c => isSpace c = true) ws_a
    ∧ (b = 45%N ∨ b = 42%N)
    ∧ Forall (fun c => isSpace c = true) ws_b
    ∧ (x = 32%N ∨ x = 120%N ∨ x = 88%N).

End Linear.

(* ===================================================================== *)
(** * The duplicate-run guard of POST /linear (routes/webhooks.ts) *)
(* ===================================================================== *)

Module Webhooks.
Import Queue.

(** ["queued" | "running" | "completed"] *)
Inductive status := Queued | Running | Completed.

#[global] Instance status_eq_dec : EqDecision status.
Proof. solve_decision. Defined.

(** The module-level [issueTests] map, the shared [testQueue], and the
    pending [setTimeout] callbacks, each of which deletes one issue id.
    (The tasks that routes/api.ts hands to the same queue are left out:
    every task of this model comes from [postLinear].) *)
Record server := {
  issueTests : gmap jsstring status;
  testQueue : world;
  timers : list jsstring;
}.

(** What the handler answers once the request has passed the signature,
    payload, trigger and criteria checks. *)
Inductive response :=
| Conflict (existing : status) (issueId : jsstring)
    (* 409 "Tests already <existing> for this issue" *)
| Accepted (queuedMessage : bool) (issueId : jsstring) (position running maxConcurrent : Z).
    (* 202 "Tests queued" / "Tests started" *)

(** The first statement of the task closure, run when the queue starts
    it: [issueTests.set(parsedIssue.id, { status: "running" })]. *)
Definition taskStarts (t : option QueuedTask) (tests : gmap jsstring status)
  : gmap jsstring status :=
  match t with
  | Some t => <[id t := Running]> tests
  | None => tests
  end.

(** [router.post("/linear")] from "Prevent duplicate test runs" on.
    [testQueue.enqueue] is spelled out to see which task it starts. *)
Definition postLinear (issueId : jsstring) (now : Z) (s : server) : server * response :=
  let accept :=
    let tests := <[issueId := Queued]> (issueTests s) in
    let '(queued, running, maxConcurrent, _, _) := getStatus (testQueue s) in
    let '(w, startedTask) := processQueue now (pushTask issueId now (testQueue s)) in
    ({| issueTests := taskStarts startedTask tests; testQueue := w; timers := timers s |},
     Accepted (running >=? maxConcurrent) issueId (queued + 1) running maxConcurrent) in
  match issueTests s !! issueId with
  | Some existingTest =>
      if bool_decide (existingTest ≠ Completed)
      then (s, Conflict existingTest issueId)
      else accept
  | None => accept
  end.

(** The work of the awaiting task number [k] ends with [c]: its [finally]
    marks the issue completed and arms the clean-up timer, then the queue
    ends the task and may start the next one. *)
Definition workEnds (k : nat) (c : JS.completion) (now : Z) (s : server) : option server :=
  match awaiting (testQueue s) !! k with
  | None => None
  | Some t =>
      let tests := <[id t := Completed]> (issueTests s) in
      match resume k c now (testQueue s) with
      | None => None
      | Some (w, startedTask) =>
          Some {| issueTests := taskStarts startedTask tests; testQueue := w;
                  timers := timers s ++ [id t] |}
      end
  end.

(** One hour later: [issueTests.delete(parsedIssue.id)]. *)
Definition timerFires (j : nat) (s : server) : option server :=
  match timers s !! j with
  | None => None
  | Some issueId =>
      Some {| issueTests := delete issueId (issueTests s); testQueue := testQueue s;
              timers := delete j (timers s) |}
  end.

Definition start (maxConcurrent : Z) : server :=
  {| issueTests := ∅; testQueue := new maxConcurrent; timers := [] |}.

End Webhooks.

(* ===================================================================== *)
(** * TestQueue: further notions *)
(* ===================================================================== *)

Module QueueState.
Import JS Queue.

(** No task waits while a slot is free. *)
Definition busy (w : world) : Prop :=
  queue (tq w) = [] ∨ maxConcurrent (tq w) ≤ Z.of_nat (size (running (tq w))).

(** How the promises stand to the tasks: pending for the tasks waiting
    or under way, and settled for started tasks only. *)
Record settling (w : world) : Prop := {
  settling_pending : ∀ t, t ∈ awaiting w ++ queue (tq w) → promises w !! promise t = None;
  settling_known : ∀ p, is_Some (promises w !! p) → ∃ t, t ∈ started w ∧ promise t = p;
}.

(** The end of a task that leaves its promise as it is: a failure that
    is no [Error] and that [String] cannot convert. *)
Definition unsettled (e : event) : bool :=
  match e with
  | Enqueue _ _ => false
  | Settle _ c _ => match outcome c with Some _ => false | None => true end
  end.

(** How many of the events are such ends. *)
Definition lost (es : list event) : nat := length (List.filter unsettled es).

(** Every started task that is awaited no more has its promise
    settled. *)
Definition allSettled (w : world) : Prop :=
  ∀ t, t ∈ started w → t ∉ awaiting w → is_Some (promises w !! promise t).

(** The keys of the running set stand in the order in which the tasks
    under way were started. *)
Definition startedBefore (w : world) (t t' : QueuedTask) : Prop :=
  (insertedAt (tq w) (id t) < insertedAt (tq w) (id t'))%nat.

Record stamped (w : world) : Prop := {
  stamped_sorted : StronglySorted (startedBefore w) (awaiting w);
  stamped_below :
    Forall (fun t => (insertedAt (tq w) (id t) < length (started w))%nat) (awaiting w);
}.

(** The running set holds ids of tasks under way only, and nothing
    waits when nothing is under way. *)
Record draining (w : world) : Prop := {
  draining_dom : dom (running (tq w)) ⊆ list_to_set (id <$> awaiting w);
  draining_idle : awaiting w = [] → queue (tq w) = [];
}.

End QueueState.

(* ===================================================================== *)
(** * The webhook server over time (routes/webhooks.ts) *)
(* ===================================================================== *)

Module Handlers.
Import Queue Webhooks.

(** What happens to the server: a webhook for an issue reaches the
    duplicate guard of [router.post("/linear")], the work of a started
    task ends, a clean-up timer goes off. *)
Inductive request :=
| PostLinear (issueId : jsstring) (now : Z)
| WorkEnds (k : nat) (c : JS.completion) (now : Z)
| TimerFires (j : nat).

Definition handle (s : server) (r : request) : option server :=
  match r with
  | PostLinear issueId now => Some (postLinear issueId now s).1
  | WorkEnds k c now => workEnds k c now s
  | TimerFires j => timerFires j s
  end.

Fixpoint serve (s : server) (rs : list request) : option server :=
  match rs with
  | [] => Some s
  | r :: rs' =>
      match handle s r with
      | Some s' => serve s' rs'
      | None => None
      end
  end.

(** The timer that goes off was armed by an earlier run of an issue that
    has a run queued or running now. *)
Definition stale (s : server) (r : request) : bool :=
  match r with
  | TimerFires j =>
      match timers s !! j with
      | Some issueId =>
          bool_decide (issueTests s !! issueId = Some Queued
                       ∨ issueTests s !! issueId = Some Running)
      | None => false
      end
  | _ => false
  end.

(** No timer goes off stale in the course of [rs]. *)
Fixpoint timely (s : server) (rs : list request) : bool :=
  match rs with
  | [] => true
  | r :: rs' =>
      negb (stale s r)
      && match handle s r with
         | Some s' => timely s' rs'
         | None => true
         end
  end.

(** The table of issues follows the queue: the runs waiting or under way
    are of different issues, the running set holds the issues of the
    runs under way, and an issue is recorded as queued or running
    exactly when a run of it waits or is under way. *)
Record tracked (tests : gmap jsstring status) (w : world) : Prop := {
  tracked_flights : NoDup (id <$> (awaiting w ++ queue (tq w)));
  tracked_dom : dom (running (tq w)) = list_to_set (id <$> awaiting w);
  tracked_queued : ∀ i, tests !! i = Some Queued ↔ i ∈ id <$> queue (tq w);
  tracked_running : ∀ i, tests !! i = Some Running ↔ i ∈ id <$> awaiting w;
}.

(** What holds of the server in the course of events of which no timer
    goes off stale. *)
Definition coherent (N : Z) (s : server) : Prop :=
  bounded N (testQueue s)
  ∧ tracked (issueTests s) (testQueue s)
  ∧ QueueState.busy (testQueue s).

End Handlers.

(* ===================================================================== *)
(** * POST /linear/e2e (routes/webhooks.ts) *)
(* ===================================================================== *)

Module E2E.
Import Webhooks.

(** The module-level [e2eIssueTests] map, the activations of the handler
    suspended at [await runE2ETests(...)], each with its issue id, and
    the pending [setTimeout] callbacks. *)
Record e2eServer := {
  e2eIssueTests : gmap jsstring status;
  e2eAwaiting : list jsstring;
  e2eTimers : list jsstring;
}.

(** What the handler answers once the request has passed the signature,
    payload and trigger checks. *)
Inductive e2eResponse :=
| E2EConflict (existing : status) (issueId : jsstring)
    (* 409 "E2E tests already <existing> for this issue" *)
| E2EAccepted (issueId : jsstring).
    (* 202 "E2E tests started" *)

(** [router.post("/linear/e2e")] from "Prevent duplicate test runs" to
    the [await]. *)
Definition postLinearE2E (issueId : jsstring) (s : e2eServer) : e2eServer * e2eResponse :=
  let accept :=
    ({| e2eIssueTests := <[issueId := Running]> (e2eIssueTests s);
        e2eAwaiting := e2eAwaiting s ++ [issueId];
        e2eTimers := e2eTimers s |},
     E2EAccepted issueId) in
  match e2eIssueTests s !! issueId with
  | Some existingTest =>
      if bool_decide (existingTest ≠ Completed)
      then (s, E2EConflict existingTest issueId)
      else accept
  | None => accept
  end.

(** The [finally] of the activation number [k], whether [runE2ETests]
    returned or threw. *)
Definition e2eRunEnds (k : nat) (s : e2eServer) : option e2eServer :=
  match e2eAwaiting s !! k with
  | None => None
  | Some issueId =>
      Some {| e2eIssueTests := <[issueId := Completed]> (e2eIssueTests s);
              e2eAwaiting := delete k (e2eAwaiting s);
              e2eTimers := e2eTimers s ++ [issueId] |}
  end.

(** One hour later: [e2eIssueTests.delete(issueId)]. *)
Definition e2eTimerFires (j : nat) (s : e2eServer) : option e2eServer :=
  match e2eTimers s !! j with
  | None => None
  | Some issueId =>
      Some {| e2eIssueTests := delete issueId (e2eIssueTests s);
              e2eAwaiting := e2eAwaiting s;
              e2eTimers := delete j (e2eTimers s) |}
  end.

Definition e2eStart : e2eServer :=
  {| e2eIssueTests := ∅; e2eAwaiting := []; e2eTimers := [] |}.

Inductive e2eRequest :=
| PostLinearE2E (issueId : jsstring)
| RunEnds (k : nat)
| E2ETimerFires (j : nat).

Definition e2eHandle (s : e2eServer) (r : e2eRequest) : option e2eServer :=
  match r with
  | PostLinearE2E issueId => Some (postLinearE2E issueId s).1
  | RunEnds k => e2eRunEnds k s
  | E2ETimerFires j => e2eTimerFires j s
  end.

Fixpoint e2eServe (s : e2eServer) (rs : list e2eRequest) : option e2eServer :=
  match rs with
  | [] => Some s
  | r :: rs' =>
      match e2eHandle s r with
      | Some s' => e2eServe s' rs'
      | None => None
      end
  end.

End E2E.

(* ===================================================================== *)
(** * The description POST /run-test builds (routes/api.ts) *)
(* ===================================================================== *)

Module Api.
Import Regex.

(** [Array.prototype.join] of strings. *)
Fixpoint join (sep : jsstring) (parts : list jsstring) : jsstring :=
  match parts with
  | [] => []
  | [p] => p
  | p :: parts' => p ++ sep ++ join sep parts'
  end.

(** [criteria.map((c) => `- [ ] ${c}`).join("\n")], the [rawDescription]
    of the issue that stands for a manual test. *)
Definition rawDescription (criteria : list jsstring) : jsstring :=
  join [10%N] ((fun c => JS.lit "- [ ] " ++ c) <$> criteria).

(** A criterion that stays on one line. *)
Definition singleLine (c : jsstring) : Prop :=
  Forall (fun x => isLineTerminator x = false) c.

(** The lines after the first one, each with the line break before it:
    [rawDescription (c :: criteria)] is the line of [c] followed by
    [moreLines criteria]. *)
Fixpoint moreLines (criteria : list jsstring) : jsstring :=
  match criteria with
  | [] => []
  | c :: criteria' => 10%N :: JS.lit "- [ ] " ++ c ++ moreLines criteria'
  end.

(** No [#] stands at the start of the text ([bol]) or after a line feed. *)
Fixpoint noHeadingMark (bol : bool) (text : jsstring) : bool :=
  match text with
  | [] => true
  | x :: text' => negb (bol && (x =? 35)%N) && noHeadingMark (x =? 10)%N text'
  end.

End Api.

(* ===================================================================== *)
(** * From the payload to the queue (services/linear.ts, routes/webhooks.ts) *)
(* ===================================================================== *)

Module Issue.
Import Linear Webhooks.

(** [LinearIssue], the [data] of a webhook payload that has passed
    [LinearWebhookPayloadSchema]; [None] is an optional field left out. *)
Record LinearIssue := {
  id : jsstring;
  title : jsstring;
  description : Linear.description;
  identifier : option jsstring;
  url : option jsstring;
  state : option (jsstring * jsstring);
  labels : option (list (jsstring * jsstring));
}.

(** [ParsedIssue]; [rawDescription] is [string | null]. *)
Module Parsed.
Record ParsedIssue := {
  id : jsstring;
  identifier : option jsstring;
  title : jsstring;
  url : option jsstring;
  acceptanceCriteria : list jsstring;
  rawDescription : option jsstring;
}.
End Parsed.

(** [parseIssueForTesting(payload)], which reads [payload.data] only. *)
Definition parseIssueForTesting (data : LinearIssue) : result Parsed.ParsedIssue :=
  bind (extractAcceptanceCriteria (description data)) (fun criteria =>
  Returns {| Parsed.id := id data;
             Parsed.identifier := identifier data;
             Parsed.title := title data;
             Parsed.url := url data;
             Parsed.acceptanceCriteria := criteria;
             Parsed.rawDescription := match description data with
                                      | Text s => Some s
                                      | Null | Undefined => None
                                      end |}).

(** What [router.post("/linear")] answers once the request has passed
    the signature, payload and trigger checks. *)
Inductive reply :=
| NoCriteria (issueId : jsstring)
    (* 200 "No acceptance criteria found in issue description" *)
| Guarded (r : response).
    (* 409 or 202, as the duplicate guard decides *)

(** [router.post("/linear")] from "Parse the issue for testing" on. *)
Definition linearWebhook (data : LinearIssue) (now : Z) (s : server)
    : result (server * reply) :=
  bind (parseIssueForTesting data) (fun parsedIssue =>
  if (length (Parsed.acceptanceCriteria parsedIssue) =? 0)%nat
  then Returns (s, NoCriteria (Parsed.id parsedIssue))
  else let '(s', r) := postLinear (Parsed.id parsedIssue) now s in
       Returns (s', Guarded r)).

End Issue.

(* ===================================================================== *)
(** * cleanTestName (services/linear.ts) *)
(* ===================================================================== *)

Module Report.
Import Regex Linear.

(** /^should\s+/i *)
Definition shouldFlags : flags := {| ignoreCase := true; multiline := false |}.
Definition shouldRegex : regex := seq_of [Bol; word "should"; Rep true 1 None Space].

(** /\s+/g; [g] is the [lastIndex] threaded through [replaceLoop]. *)
Definition spacesFlags : flags := {| ignoreCase := false; multiline := false |}.
Definition spacesRegex : regex := Rep true 1 None Space.

(** The code units of [s] before a match that ends with [after] left and
    is [m] long. *)
Definition upTo (s after m : jsstring) : jsstring :=
  take (length s - length after - length m) s.

(** [s.replace(re, replacement)] for a pattern without the [g] flag and
    a replacement without [$].  The pattern is wrapped in a group, which
    then holds the match itself. *)
Definition replaceFirst (f : flags) (re : regex) (replacement s : jsstring)
    : result jsstring :=
  match search f (Group re) [] s with
  | None => Returns s
  | Some p =>
      match capture p with
      | None => Throws
      | Some m => Returns (upTo s (after p) m ++ replacement ++ after p)
      end
  end.

(** [s.replace(re, replacement)] for a pattern with the [g] flag, from
    [lastIndex] at the split [bef]/[aft] on: what becomes of [aft].  After
    an empty match [lastIndex] moves on by one code unit. *)
Fixpoint replaceLoop (fuel : nat) (f : flags) (re : regex) (replacement : jsstring)
    (bef aft : list N) : result jsstring :=
  match fuel with
  | O => Diverges
  | S fuel' =>
      match search f (Group re) bef aft with
      | None => Returns aft
      | Some p =>
          match capture p with
          | None => Throws
          | Some [] =>
              match after p with
              | [] => Returns (upTo aft [] [] ++ replacement)
              | c :: aft' =>
                  bind (replaceLoop fuel' f re replacement (c :: before p) aft')
                    (fun rest => Returns (upTo aft (after p) [] ++ replacement ++ c :: rest))
              end
          | Some m =>
              bind (replaceLoop fuel' f re replacement (before p) (after p))
                (fun rest => Returns (upTo aft (after p) m ++ replacement ++ rest))
          end
      end
  end.

Definition replaceAll (f : flags) (re : regex) (replacement s : jsstring)
    : result jsstring :=
  replaceLoop (S (length s)) f re replacement [] s.

(** [name.replace(/^should\s+/i, "").replace(/\s+/g, " ").trim()] *)
Definition cleanTestName (name : jsstring) : result jsstring :=
  bind (replaceFirst shouldFlags shouldRegex [] name) (fun s1 =>
  bind (replaceAll spacesFlags spacesRegex [32%N] s1) (fun s2 =>
  Returns (trim s2))).

(** ** Notions used to state what [cleanTestName] returns *)

(** Every run of white space made one space; [inRun] says that the code
    unit before was white space. *)
Fixpoint collapse (inRun : bool) (s : jsstring) : jsstring :=
  match s with
  | [] => []
  | x :: s' =>
      if isSpace x
      then if inRun then collapse true s' else 32%N :: collapse true s'
      else x :: collapse false s'
  end.

(** The only white space in [s] is the space, and no two spaces are
    neighbours. *)
Definition singleSpaced (s : jsstring) : Prop :=
  (∀ x, x ∈ s → isSpace x = true → x = 32%N)
  ∧ ∀ a x y b, s = a ++ x :: y :: b → ¬ (isSpace x = true ∧ isSpace y = true).

(** [singleSpaced], as a check that runs along [s]; [afterSpace] says
    that the code unit before was white space. *)
Fixpoint spacedOnce (afterSpace : bool) (s : jsstring) : bool :=
  match s with
  | [] => true
  | x :: s' =>
      if isSpace x
      then negb afterSpace && (x =? 32)%N && spacedOnce true s'
      else spacedOnce false s'
  end.

End Report.

(* ===================================================================== *)
(** * Properties of TestQueue *)
(* ===================================================================== *)

Section QueueFacts.
Import JS Queue.

(** The two ways [processQueue] can go. *)
Lemma processQueue_cases now w :
  (processQueue now w = (w, None)
   ∧ (maxConcurrent (tq w) ≤ Z.of_nat (size (running (tq w))) ∨ queue (tq w) = []))
  ∨ (∃ nextTask rest,
       queue (tq w) = nextTask :: rest
       ∧ Z.of_nat (size (running (tq w))) < maxConcurrent (tq w)
       ∧ processQueue now w =
           ({| tq := {| queue := rest;
                        running := <[id nextTask := now]> (running (tq w));
                        runningOrder := setOrder (id nextTask) (length (started w)) (tq w);
                        maxConcurrent := maxConcurrent (tq w) |};
               awaiting := awaiting w ++ [nextTask];
               promises := promises w;
               nextPromise := nextPromise w;
               started := started w ++ [nextTask] |}, Some nextTask)).
Proof.
  unfold processQueue.
  destruct (Z.geb_spec (Z.of_nat (size (running (tq w)))) (maxConcurrent (tq w))) as [Hge|Hlt].
  - left. split; [done|]. left. lia.
  - destruct (queue (tq w)) as [|nextTask rest] eqn:Hq.
    + left. split; [done|]. by right.
    + right. exists nextTask, rest. split; [done|]. split; [lia|done].
Qed.

Lemma size_insert_le (m : gmap jsstring Z) i x : (size (<[i := x]> m) ≤ S (size m))%nat.
Proof.
  destruct (m !! i) eqn:E.
  - rewrite map_size_insert_Some; [lia|done].
  - rewrite map_size_insert_None; [lia|done].
Qed.

Lemma size_delete_le (m : gmap jsstring Z) i : (size (delete i m) ≤ size m)%nat.
Proof.
  destruct (m !! i) eqn:E.
  - rewrite map_size_delete_Some by eauto. lia.
  - rewrite map_size_delete_None by done. lia.
Qed.

Lemma bounded_new N : 0 ≤ N → bounded N (new N).
Proof. intros. split; simpl; [done|by rewrite map_size_empty]. Qed.

Lemma ordered_new N : ordered (new N).
Proof. by split. Qed.

Lemma bounded_processQueue N now w : bounded N w → bounded N (processQueue now w).1.
Proof.
  intros [Hm Hs].
  destruct (processQueue_cases now w) as [[-> _]|(h & rest & Hq & Hlt & ->)]; simpl.
  - by split.
  - split; simpl; [done|].
    pose proof (size_insert_le (running (tq w)) (id h) now). lia.
Qed.

Lemma ordered_processQueue now w : ordered w → ordered (processQueue now w).1.
Proof.
  intros [Ha Hw].
  destruct (processQueue_cases now w) as [[-> _]|(h & rest & Hq & Hlt & ->)]; simpl.
  - by split.
  - split; simpl.
    + rewrite <- Ha, Hq, <- app_assoc. done.
    + by apply sublist_app.
Qed.

Lemma bounded_pushTask N i now w : bounded N w → bounded N (pushTask i now w).
Proof. intros [Hm Hs]. by split. Qed.

Lemma ordered_pushTask i now w : ordered w → ordered (pushTask i now w).
Proof.
  intros [Ha Hw]. split; [|done].
  change (nextPromise (pushTask i now w)) with (S (nextPromise w)).
  rewrite seq_S. simpl. by rewrite app_assoc, fmap_app, Ha.
Qed.

Lemma bounded_release N k t c w : bounded N w → bounded N (release k t c w).
Proof.
  intros [Hm Hs]. split; simpl; [done|].
  pose proof (size_delete_le (running (tq w)) (id t)). lia.
Qed.

Lemma ordered_release k t c w : ordered w → ordered (release k t c w).
Proof.
  intros [Ha Hw]. split; simpl; [done|].
  etrans; [apply sublist_delete|done].
Qed.

Lemma step_cases w e w' :
  step w e = Some w' →
  (∃ i now, e = Enqueue i now ∧ w' = (processQueue now (pushTask i now w)).1)
  ∨ (∃ k c now t, e = Settle k c now ∧ awaiting w !! k = Some t
                  ∧ w' = (processQueue now (release k t c w)).1).
Proof.
  destruct e as [i now|k c now]; simpl.
  - intros [= <-]. left. by exists i, now.
  - unfold resume. destruct (awaiting w !! k) as [t|] eqn:E; [|done]. simpl.
    intros [= <-]. right. by exists k, c, now, t.
Qed.

Lemma bounded_step N w e w' : bounded N w → step w e = Some w' → bounded N w'.
Proof.
  intros Hinv [(i & now & -> & ->)|(k & c & now & t & -> & _ & ->)]%step_cases.
  - by apply bounded_processQueue, bounded_pushTask.
  - by apply bounded_processQueue, bounded_release.
Qed.

Lemma ordered_step w e w' : ordered w → step w e = Some w' → ordered w'.
Proof.
  intros Hinv [(i & now & -> & ->)|(k & c & now & t & -> & _ & ->)]%step_cases.
  - by apply ordered_processQueue, ordered_pushTask.
  - by apply ordered_processQueue, ordered_release.
Qed.

Lemma run_ind (P : world → Prop) :
  (∀ w e w', P w → step w e = Some w' → P w') →
  ∀ es w w', P w → run w es = Some w' → P w'.
Proof.
  intros Hstep. induction es as [|e es IH]; simpl; intros w w' HP.
  - by intros [= <-].
  - destruct (step w e) as [w1|] eqn:E; [|done]. intros. eapply IH; [|done].
    by eapply Hstep.
Qed.

Lemma bounded_run N es w w' : bounded N w → run w es = Some w' → bounded N w'.
Proof. apply run_ind, bounded_step. Qed.

Lemma ordered_run es w w' : ordered w → run w es = Some w' → ordered w'.
Proof. apply run_ind, ordered_step. Qed.

Lemma run_app es1 : ∀ es2 w,
  run w (es1 ++ es2) = match run w es1 with Some w1 => run w1 es2 | None => None end.
Proof.
  induction es1 as [|e es1 IH]; simpl; intros; [done|].
  by destruct (step w e).
Qed.

Lemma enqueue_full i now w :
  maxConcurrent (tq w) ≤ Z.of_nat (size (running (tq w))) →
  step w (Enqueue i now) = Some (pushTask i now w).
Proof.
  intros H. simpl. unfold enqueue.
  destruct (processQueue_cases now (pushTask i now w)) as [[-> _]|(h & rest & _ & Hlt & _)];
    [done|simpl in Hlt; lia].
Qed.

Lemma enqueues_full subs : ∀ w,
  maxConcurrent (tq w) ≤ Z.of_nat (size (running (tq w))) →
  ∃ w', run w (uncurry Enqueue <$> subs) = Some w'
    ∧ running (tq w') = running (tq w)
    ∧ awaiting w' = awaiting w
    ∧ started w' = started w
    ∧ id <$> queue (tq w') = (id <$> queue (tq w)) ++ subs.*1.
Proof.
  induction subs as [|[i now] subs IH]; intros w Hfull.
  - exists w. simpl. by rewrite app_nil_r.
  - cbn [fmap list_fmap uncurry run]. change (run w (Enqueue i now :: (uncurry Enqueue <$> subs)))
      with (match step w (Enqueue i now) with
            | Some w1 => run w1 (uncurry Enqueue <$> subs) | None => None end).
    rewrite (enqueue_full i now w Hfull).
    destruct (IH (pushTask i now w) Hfull) as (w' & Hrun & Hr & Ha & Hs & Hq).
    exists w'. split; [done|]. rewrite Hr, Ha, Hs, Hq. simpl.
    by rewrite fmap_app, <- app_assoc.
Qed.

(** Every step only appends: to the start log, and to the sequence of
    all submitted tasks. *)
Lemma processQueue_grows now w :
  ∃ adm, started (processQueue now w).1 = started w ++ adm
       ∧ started (processQueue now w).1 ++ queue (tq (processQueue now w).1)
         = started w ++ queue (tq w).
Proof.
  destruct (processQueue_cases now w) as [[-> _]|(h & rest & Hq & Hlt & ->)]; simpl.
  - exists []. by rewrite app_nil_r.
  - exists [h]. split; [done|]. by rewrite Hq, <- app_assoc.
Qed.

Lemma step_grows w e w' :
  step w e = Some w' →
  ∃ adm extra, started w' = started w ++ adm
             ∧ started w' ++ queue (tq w') = (started w ++ queue (tq w)) ++ extra.
Proof.
  intros [(i & now & -> & ->)|(k & c & now & t & -> & _ & ->)]%step_cases.
  - destruct (processQueue_grows now (pushTask i now w)) as (adm & Hs & Ha).
    exists adm, [{| id := i; promise := nextPromise w; queuedAt := now |}].
    split; [done|]. rewrite Ha. simpl. by rewrite app_assoc.
  - destruct (processQueue_grows now (release k t c w)) as (adm & Hs & Ha).
    exists adm, []. split; [done|]. rewrite Ha. simpl. by rewrite app_nil_r.
Qed.

Lemma run_grows es : ∀ w w',
  run w es = Some w' →
  ∃ adm extra, started w' = started w ++ adm
             ∧ started w' ++ queue (tq w') = (started w ++ queue (tq w)) ++ extra.
Proof.
  induction es as [|e es IH]; simpl; intros w w'.
  - intros [= <-]. exists [], []. by rewrite !app_nil_r.
  - destruct (step w e) as [w1|] eqn:E; [|done]. intros Hrun.
    destruct (step_grows _ _ _ E) as (adm1 & extra1 & Hs1 & Ha1).
    destruct (IH _ _ Hrun) as (adm2 & extra2 & Hs2 & Ha2).
    exists (adm1 ++ adm2), (extra1 ++ extra2).
    split; [rewrite Hs2, Hs1|rewrite Ha2, Ha1]; by rewrite !app_assoc.
Qed.

Lemma ordered_NoDup w : ordered w → NoDup (started w ++ queue (tq w)).
Proof.
  intros [Ha _]. eapply NoDup_fmap_1. rewrite Ha. apply NoDup_seq.
Qed.

(** A list without repetition that holds [B] only behind [A] has every
    prefix that reaches [B] pass through [A] first. *)
Lemma prefix_reaches {T} (s q p r : list T) (A B : T) l2 :
  NoDup (s ++ q) →
  s ++ q = p ++ A :: l2 ++ B :: r →
  B ∈ s →
  ∃ s3, s = p ++ A :: l2 ++ B :: s3.
Proof.
  intros Hnd Heq HB.
  assert (Heq' : s ++ q = (p ++ A :: l2) ++ B :: r) by (by rewrite <- app_assoc).
  apply app_eq_inv in Heq' as [(l & Hs & Hq)|(l & Hp & Hq)].
  - destruct l as [|x l].
    + rewrite app_nil_r in Hs. subst s. simpl in Hq. subst q.
      apply NoDup_app in Hnd as (_ & Hdisj & _).
      exfalso. apply (Hdisj B HB). left.
    + simpl in Hq. injection Hq as -> ->.
      exists l. rewrite Hs. by rewrite <- app_assoc.
  - exfalso. rewrite Hq in Hnd.
    apply NoDup_app in Hnd as (_ & Hdisj & _).
    apply (Hdisj B HB). apply elem_of_app. right. left.
Qed.

(** The start log is the arrival sequence up to some point: tasks are
    started in the order of their submission, whether they waited or
    not. *)
Lemma started_in_arrival_order (N : Z) (es : list event) (w : world) :
  run (new N) es = Some w →
  promise <$> started w = seq 0 (length (started w)).
Proof.
  intros Hrun.
  assert (Ho : ordered w) by (eapply ordered_run; [apply ordered_new|done]).
  destruct Ho as [Ha _].
  apply (f_equal (take (length (started w)))) in Ha.
  rewrite fmap_app, take_app_length' in Ha by (by rewrite length_fmap).
  rewrite Ha, take_seq. f_equal.
  apply (f_equal length) in Ha.
  rewrite length_fmap, length_take, length_seq in Ha. lia.
Qed.

(** C2. Waiting tasks are started in the order of their arrival: if at
    some moment [A] stands before [B] in the waiting line, then at no
    later moment has [B] been started without [A] having been started
    before it. *)
Theorem fifo_admission (N : Z) (es1 es2 : list event) (w1 w2 : world)
    (A B : QueuedTask) (l1 l2 l3 : list QueuedTask) :
  run (new N) es1 = Some w1 →
  run w1 es2 = Some w2 →
  queue (tq w1) = l1 ++ A :: l2 ++ B :: l3 →
  B ∈ started w2 →
  (promise A < promise B)%nat
  ∧ ∃ s1 s3, started w2 = s1 ++ A :: l2 ++ B :: s3.
Proof.
  intros Hrun1 Hrun2 Hq HB.
  assert (Ho1 : ordered w1) by (eapply ordered_run; [apply ordered_new|done]).
  assert (Ho2 : ordered w2) by (eapply ordered_run; [apply Ho1|done]).
  split.
  - destruct Ho1 as [Ha _]. rewrite Hq in Ha.
    set (n := nextPromise w1) in *. clearbody n.
    set (P := started w1 ++ l1) in *.
    assert (HA : seq 0 n !! length P = Some (promise A)).
    { rewrite <- Ha, app_assoc, list_lookup_fmap. fold P.
      by rewrite list_lookup_middle. }
    assert (HB' : seq 0 n !! length (P ++ A :: l2) = Some (promise B)).
    { rewrite <- Ha, app_assoc, list_lookup_fmap. fold P.
      replace (P ++ A :: l2 ++ B :: l3) with ((P ++ A :: l2) ++ B :: l3)
        by (by rewrite <- app_assoc).
      by rewrite list_lookup_middle. }
    apply lookup_seq in HA as [-> _]. apply lookup_seq in HB' as [-> _].
    rewrite length_app. simpl. lia.
  - destruct (run_grows _ _ _ Hrun2) as (adm & extra & Hs & Ha).
    rewrite Hq in Ha.
    destruct (prefix_reaches (started w2) (queue (tq w2)) (started w1 ++ l1)
                (l3 ++ extra) A B l2) as (s3 & Hs3).
    + by apply ordered_NoDup.
    + rewrite Ha. rewrite <- !app_assoc. simpl. by rewrite <- !app_assoc.
    + done.
    + by exists (started w1 ++ l1), s3.
Qed.

Lemma fifo_admission_witness :
  let A := {| id := lit "b"; promise := 1; queuedAt := 2 |} in
  let B := {| id := lit "c"; promise := 2; queuedAt := 3 |} in
  let es1 := [Enqueue (lit "a") 1; Enqueue (lit "b") 2; Enqueue (lit "c") 3] in
  let es2 := [Settle 0 (Returned JUndefined) 4; Settle 0 (Threw JNull) 5] in
  let w1 := default (new 1) (run (new 1) es1) in
  let w2 := default (new 1) (run w1 es2) in
  (promise A < promise B)%nat ∧ ∃ s1 s3, started w2 = s1 ++ A :: [] ++ B :: s3.
Proof.
  intros A B es1 es2 w1 w2.
  apply (fifo_admission 1 es1 es2 w1 w2 A B [] [] []).
  - vm_compute; reflexivity.
  - vm_compute; reflexivity.
  - vm_compute; reflexivity.
  - apply (bool_decide_unpack _). vm_compute. exact I.
Defined.

Lemma firstAt_unique i q n m : firstAt i q n → firstAt i q m → n = m.
Proof.
  intros [Hn Hn'] [Hm Hm'].
  destruct (Nat.lt_trichotomy n m) as [H|[H|H]]; [|done|].
  - by destruct (Hm' n H).
  - by destruct (Hn' m H).
Qed.

Lemma findIndex_spec i q :
  (findIndex i q = -1 ∧ i ∉ id <$> q)
  ∨ (∃ n, findIndex i q = Z.of_nat n ∧ firstAt i q n).
Proof.
  induction q as [|t q IH]; simpl.
  - left. split; [done|]. apply not_elem_of_nil.
  - case_bool_decide as Hid.
    + right. exists 0%nat. split; [done|]. split; [by rewrite <- Hid|]. lia.
    + destruct IH as [[-> Hnot]|(n & -> & Hn & Hfirst)].
      * left. split; [done|]. by intros [?|?]%elem_of_cons.
      * right. exists (S n).
        destruct (Z.eqb_spec (Z.of_nat n) (-1)) as [?|_]; [lia|].
        split; [lia|]. split; [done|].
        intros [|m] Hm; simpl; [congruence|]. apply Hfirst. lia.
Qed.

Lemma getPosition_running i w :
  is_Some (running (tq w) !! i) → getPosition i w = 0.
Proof. intros H. unfold getPosition, isRunning. by rewrite bool_decide_eq_true_2. Qed.

Lemma getPosition_waiting i w n :
  running (tq w) !! i = None → firstAt i (queue (tq w)) n →
  getPosition i w = Z.of_nat n + 1.
Proof.
  intros Hr Hn. unfold getPosition, isRunning.
  rewrite bool_decide_eq_false_2 by (rewrite Hr; by intros [? ?]).
  destruct (findIndex_spec i (queue (tq w))) as [[_ Hnot]|(m & -> & Hm)].
  - destruct Hn as [Hn _]. exfalso. apply Hnot. by eapply list_elem_of_lookup_2.
  - rewrite (firstAt_unique _ _ _ _ Hn Hm).
    destruct (Z.eqb_spec (Z.of_nat m) (-1)); lia.
Qed.

Lemma getPosition_absent i w :
  running (tq w) !! i = None → i ∉ id <$> queue (tq w) → getPosition i w = -1.
Proof.
  intros Hr Hq. unfold getPosition, isRunning.
  rewrite bool_decide_eq_false_2 by (rewrite Hr; by intros [? ?]).
  destruct (findIndex_spec i (queue (tq w))) as [[-> _]|(m & _ & Hm & _)]; [done|].
  exfalso. apply Hq. by eapply list_elem_of_lookup_2.
Qed.

(** In the waiting line, position follows arrival. *)
Lemma ordered_queue w m A :
  ordered w → queue (tq w) !! m = Some A → promise A = (length (started w) + m)%nat.
Proof.
  intros [Ha _] HA.
  assert (H : seq 0 (nextPromise w) !! (length (started w) + m)%nat = Some (promise A)).
  { rewrite <- Ha, list_lookup_fmap, lookup_app_r by lia.
    replace (length (started w) + m - length (started w))%nat with m by lia.
    by rewrite HA. }
  by apply lookup_seq in H as [-> _].
Qed.

Lemma NoDup_delete_lookup {T} (l : list T) k t :
  NoDup l → l !! k = Some t → t ∉ delete k l.
Proof.
  intros Hnd Hk. rewrite <- (take_drop_middle l k t Hk) in Hnd.
  rewrite delete_take_drop.
  apply NoDup_app in Hnd as (_ & Hdisj & Hnd). apply NoDup_cons in Hnd as [Hnot _].
  intros [Hin|Hin]%elem_of_app; [|done].
  apply (Hdisj t Hin). left.
Qed.

(** What the end of a task leaves behind. *)
Lemma settled_forgotten w k c now t w' :
  ordered w →
  awaiting w !! k = Some t →
  step w (Settle k c now) = Some w' →
  (t ∉ awaiting w') ∧ (t ∉ queue (tq w'))
  ∧ (id t ∉ id <$> queue (tq w) → getPosition (id t) w' = -1).
Proof.
  intros Ho Hk Hstep.
  apply step_cases in Hstep as [(? & ? & ? & _)|(k' & c' & now' & t' & [= <- <- <-] & Hk' & ->)];
    [done|].
  rewrite Hk in Hk'. injection Hk' as <-.
  pose proof (ordered_NoDup w Ho) as Hnd.
  assert (Hts : t ∈ started w).
  { eapply elem_of_sublist; [|apply (ordered_awaiting _ Ho)].
    by eapply list_elem_of_lookup_2. }
  assert (Htq : t ∉ queue (tq w)).
  { apply NoDup_app in Hnd as (_ & Hdisj & _). by apply Hdisj. }
  assert (Hta : t ∉ delete k (awaiting w)).
  { apply NoDup_delete_lookup; [|done].
    eapply sublist_NoDup; [|apply (ordered_awaiting _ Ho)].
    by apply NoDup_app in Hnd as (? & _). }
  destruct (processQueue_cases now (release k t c w))
    as [[-> _]|(h & rest & Hq & Hlt & ->)]; simpl in *.
  - split; [done|]. split; [done|]. intros Hid.
    apply getPosition_absent; simpl; [apply lookup_delete_eq|done].
  - assert (Hht : h ≠ t) by (intros ->; apply Htq; rewrite Hq; left).
    split; [|split].
    + intros [Hin|Hin%list_elem_of_singleton]%elem_of_app; [done|by subst].
    + intros Hin. apply Htq. rewrite Hq. by right.
    + rewrite Hq. intros Hid. apply getPosition_absent; simpl.
      * rewrite lookup_insert_ne; [apply lookup_delete_eq|].
        intros Heq. apply Hid. rewrite <- Heq. simpl. left.
      * intros Hin. apply Hid. simpl. by right.
Qed.

(** An id that is neither running nor waiting stays so until it is
    submitted again. *)
Lemma absent_processQueue i now w :
  running (tq w) !! i = None → i ∉ id <$> queue (tq w) →
  running (tq (processQueue now w).1) !! i = None
  ∧ i ∉ id <$> queue (tq (processQueue now w).1).
Proof.
  intros Hr Hq.
  destruct (processQueue_cases now w) as [[-> _]|(h & rest & Hq' & Hlt & ->)]; simpl; [done|].
  rewrite Hq' in Hq. simpl in Hq. split.
  - rewrite lookup_insert_ne; [done|]. intros Heq. apply Hq. rewrite Heq. left.
  - intros Hin. apply Hq. by right.
Qed.

Lemma absent_stays i es : ∀ w w',
  running (tq w) !! i = None → i ∉ id <$> queue (tq w) →
  i ∉ submitted es →
  run w es = Some w' →
  running (tq w') !! i = None ∧ i ∉ id <$> queue (tq w').
Proof.
  induction es as [|e es IH]; simpl; intros w w' Hr Hq Hsub.
  - by intros [= <-].
  - destruct (step w e) as [w1|] eqn:E; [|done].
    apply step_cases in E as [(j & now & -> & ->)|(k & c & now & t & -> & Hk & ->)];
      simpl in Hsub.
    + apply not_elem_of_cons in Hsub as [Hij Hsub].
      destruct (absent_processQueue i now (pushTask j now w)) as [Hr1 Hq1]; simpl.
      * done.
      * rewrite fmap_app. simpl. intros [Hin|Hin%list_elem_of_singleton]%elem_of_app; done.
      * by apply IH.
    + destruct (absent_processQueue i now (release k t c w)) as [Hr1 Hq1]; simpl.
      * destruct (decide (id t = i)) as [->|Hne];
          [apply lookup_delete_eq|by rewrite lookup_delete_ne].
      * done.
      * by apply IH.
Qed.

(** C3, as the code has it.  [getPosition(id)] is 0 when the id is in the running set;
    otherwise the 1-based index of the first task of the waiting line
    with that id, the waiting line being in arrival order; otherwise -1.
    A task that has settled is gone from the awaited tasks and from the
    waiting line, and its id yields -1 from then on, until the id is
    submitted again, provided no other task was waiting under the same id
    (which the caller of the queue is to ensure). *)
Theorem getPosition_spec (N : Z) (es : list event) (w : world) (i : jsstring) :
  run (new N) es = Some w →
  (is_Some (running (tq w) !! i) → getPosition i w = 0)
  ∧ (running (tq w) !! i = None →
     ∀ n, firstAt i (queue (tq w)) n → getPosition i w = Z.of_nat n + 1)
  ∧ (running (tq w) !! i = None → i ∉ id <$> queue (tq w) → getPosition i w = -1)
  ∧ (∀ m n A B, queue (tq w) !! m = Some A → queue (tq w) !! n = Some B →
       (m < n)%nat → (promise A < promise B)%nat)
  ∧ (∀ k c now t w',
       awaiting w !! k = Some t → step w (Settle k c now) = Some w' →
       (t ∉ awaiting w') ∧ (t ∉ queue (tq w'))
       ∧ (id t ∉ id <$> queue (tq w) →
          ∀ es' w'', id t ∉ submitted es' → run w' es' = Some w'' →
            getPosition (id t) w'' = -1)).
Proof.
  intros Hrun.
  assert (Ho : ordered w) by (eapply ordered_run; [apply ordered_new|done]).
  split; [apply getPosition_running|].
  split; [intros; by apply getPosition_waiting|].
  split; [apply getPosition_absent|].
  split.
  - intros m n A B HA HB Hmn.
    rewrite (ordered_queue w m A Ho HA), (ordered_queue w n B Ho HB). lia.
  - intros k c now t w' Hk Hstep.
    destruct (settled_forgotten w k c now t w' Ho Hk Hstep) as (Ha & Hq & _).
    split; [done|]. split; [done|]. intros Hid es' w'' Hsub Hrun'.
    apply step_cases in Hstep
      as [(? & ? & ? & _)|(k' & c' & now' & t' & [= <- <- <-] & Hk' & ->)]; [done|].
    rewrite Hk in Hk'. injection Hk' as <-.
    destruct (absent_processQueue (id t) now (release k t c w)) as [Hr1 Hq1];
      [apply lookup_delete_eq|done|].
    destruct (absent_stays (id t) es' _ w'' Hr1 Hq1 Hsub Hrun') as [Hr2 Hq2].
    by apply getPosition_absent.
Qed.

Lemma getPosition_spec_witness :
  let es := [Enqueue (lit "a") 1; Enqueue (lit "b") 2; Enqueue (lit "c") 3] in
  let w := default (new 1) (run (new 1) es) in
  let w' := default w (step w (Settle 0 (Returned JNull) 4)) in
  getPosition (lit "a") w = 0
  ∧ getPosition (lit "c") w = 2
  ∧ getPosition (lit "d") w = -1
  ∧ getPosition (lit "a") (default w' (run w' [Settle 0 (Threw JNull) 5])) = -1.
Proof.
  intros es w w'.
  pose proof (fun i => getPosition_spec 1 es w i ltac:(vm_compute; reflexivity)) as H.
  split; [|split; [|split]].
  - apply (H (lit "a")). vm_compute. eauto.
  - apply (proj1 (proj2 (H (lit "c")))) with (n := 1%nat).
    + vm_compute; reflexivity.
    + split; [vm_compute; reflexivity|].
      intros [|m] Hm; [|lia]. vm_compute. congruence.
  - apply (H (lit "d")).
    + vm_compute; reflexivity.
    + apply (bool_decide_unpack _). vm_compute. exact I.
  - destruct (proj2 (proj2 (proj2 (proj2 (H (lit "a"))))) 0%nat (Returned JNull) 4
               {| id := lit "a"; promise := 0; queuedAt := 1 |} w') as (_ & _ & Hgone);
      [vm_compute; reflexivity|vm_compute; reflexivity|].
    apply (Hgone ltac:(apply (bool_decide_unpack _); vm_compute; exact I)
             [Settle 0 (Threw JNull) 5]).
    + apply (bool_decide_unpack _). vm_compute. exact I.
    + vm_compute; reflexivity.
Defined.

(** The proviso matters: with the id "a" submitted twice and a ceiling of
    one, the end of the first task starts the second, and the id is
    running again.  So [getPosition] is not -1 for the id of every task
    that has settled. *)
Lemma settled_id_taken_over :
  let es := [Enqueue (lit "a") 1; Enqueue (lit "a") 2] in
  let w := default (new 1) (run (new 1) es) in
  let w' := default w (step w (Settle 0 (Returned JNull) 3)) in
  getPosition (lit "a") w = 0
  ∧ promises w' !! 0%nat = Some (Fulfilled JNull)
  ∧ getPosition (lit "a") w' = 0
  ∧ awaiting w' = [{| id := lit "a"; promise := 1; queuedAt := 2 |}]
  ∧ ¬ (∀ N es w k c now t w',
         run (new N) es = Some w →
         awaiting w !! k = Some t →
         step w (Settle k c now) = Some w' →
         getPosition (id t) w' = -1).
Proof.
  intros es w w'.
  split; [vm_compute; reflexivity|]. split; [vm_compute; reflexivity|].
  split; [vm_compute; reflexivity|]. split; [vm_compute; reflexivity|].
  intros Hall.
  specialize (Hall 1 es w 0%nat (Returned JNull) 3
                {| id := lit "a"; promise := 0; queuedAt := 1 |} w'
                ltac:(vm_compute; reflexivity) ltac:(vm_compute; reflexivity)
                ltac:(vm_compute; reflexivity)).
  vm_compute in Hall. discriminate.
Qed.

Lemma processQueue_admits now w h rest :
  queue (tq w) = h :: rest →
  Z.of_nat (size (running (tq w))) < maxConcurrent (tq w) →
  processQueue now w =
    ({| tq := {| queue := rest;
                 running := <[id h := now]> (running (tq w));
                 runningOrder := setOrder (id h) (length (started w)) (tq w);
                 maxConcurrent := maxConcurrent (tq w) |};
        awaiting := awaiting w ++ [h];
        promises := promises w;
        nextPromise := nextPromise w;
        started := started w ++ [h] |}, Some h).
Proof.
  intros Hq Hlt.
  destruct (processQueue_cases now w) as [[_ [?|?]]|(h' & rest' & Hq' & _ & ->)];
    [lia|congruence|].
  rewrite Hq in Hq'. by injection Hq' as <- <-.
Qed.

Lemma processQueue_idle now w :
  queue (tq w) = [] → processQueue now w = (w, None).
Proof.
  intros Hq.
  destruct (processQueue_cases now w) as [[-> _]|(h' & rest' & Hq' & _)]; [done|congruence].
Qed.

(** Submissions that fit under the ceiling start at once. *)
Lemma enqueues_below subs : ∀ w,
  queue (tq w) = [] →
  awaiting w = started w →
  (∀ t, t ∈ awaiting w → is_Some (running (tq w) !! id t)) →
  Z.of_nat (size (running (tq w))) + Z.of_nat (length subs) ≤ maxConcurrent (tq w) →
  ∃ w', run w (uncurry Enqueue <$> subs) = Some w'
    ∧ queue (tq w') = []
    ∧ awaiting w' = started w'
    ∧ (∀ t, t ∈ awaiting w' → is_Some (running (tq w') !! id t))
    ∧ maxConcurrent (tq w') = maxConcurrent (tq w)
    ∧ length (awaiting w') = (length (awaiting w) + length subs)%nat
    ∧ nextPromise w' = (nextPromise w + length subs)%nat.
Proof.
  induction subs as [|[i now] subs IH]; intros w Hq Haw Hrun Hsize.
  - exists w. simpl. repeat split; try done; lia.
  - change (run w (uncurry Enqueue <$> (i, now) :: subs))
      with (match step w (Enqueue i now) with
            | Some w1 => run w1 (uncurry Enqueue <$> subs) | None => None end).
    simpl in Hsize. simpl. unfold enqueue.
    rewrite (processQueue_admits now (pushTask i now w)
               {| id := i; promise := nextPromise w; queuedAt := now |} [])
      ; [|by simpl; rewrite Hq|simpl; lia].
    simpl.
    match goal with |- ∃ w', run ?w1 _ = _ ∧ _ => destruct (IH w1) as (w' & H1 & H2 & H3 & H4 & H5 & H6 & H7) end.
    + done.
    + simpl. by rewrite Haw.
    + simpl. intros t [Ht|Ht%list_elem_of_singleton]%elem_of_app.
      * destruct (decide (i = id t)) as [->|Hne].
        -- rewrite lookup_insert_eq. eauto.
        -- rewrite lookup_insert_ne by done. by apply Hrun.
      * subst t. simpl. rewrite lookup_insert_eq. eauto.
    + simpl. pose proof (size_insert_le (running (tq w)) i now). lia.
    + exists w'. simpl in *. rewrite length_app in H6. simpl in H6.
      repeat split; try done; lia.
Qed.

Lemma first_started_is_first w t0 :
  ordered w → started w !! 0%nat = Some t0 → promise t0 = 0%nat.
Proof.
  intros [Ha _] H0.
  assert (H : seq 0 (nextPromise w) !! 0%nat = Some (promise t0)).
  { rewrite <- Ha, list_lookup_fmap, lookup_app_l by (by eapply lookup_lt_Some).
    by rewrite H0. }
  by apply lookup_seq in H as [-> _].
Qed.

(** [N] submissions, one more, then the first task fails. *)
Lemma overflow_started_after_failure (N : Z) (subs : list (jsstring * Z))
    (i : jsstring) (queuedAt : Z) (e : value) (now : Z) :
  1 ≤ N →
  length subs = Z.to_nat N →
  ∃ w w' t0,
    run (new N) (uncurry Enqueue <$> (subs ++ [(i, queuedAt)])) = Some w
    ∧ awaiting w !! 0%nat = Some t0 ∧ promise t0 = 0%nat
    ∧ step w (Settle 0 (Threw e) now) = Some w'
    ∧ let t := {| id := i; promise := length subs; queuedAt := queuedAt |} in
      t ∈ started w' ∧ t ∈ awaiting w' ∧ queue (tq w') = [].
Proof.
  intros HN Hlen.
  destruct (enqueues_below subs (new N)) as (wN & HrunN & Hq & Haw & Hids & Hmax & Hl & Hnp);
    [done|done|by intros t Ht%elem_of_nil|simpl; rewrite map_size_empty; lia|].
  simpl in Hmax, Hl, Hnp.
  assert (Hb : bounded N wN) by (eapply bounded_run; [apply bounded_new; lia|done]).
  assert (Ho : ordered wN) by (eapply ordered_run; [apply ordered_new|done]).
  destruct (awaiting wN) as [|t0 rest0] eqn:Hawaiting; [simpl in Hl; lia|].
  assert (Hp0 : promise t0 = 0%nat).
  { apply (first_started_is_first wN); [done|]. by rewrite <- Haw. }
  rewrite fmap_app, run_app, HrunN. simpl.
  unfold enqueue.
  set (t := {| id := i; promise := nextPromise wN; queuedAt := queuedAt |}).
  replace (length subs) with (nextPromise wN) by lia. fold t.
  destruct (processQueue_cases queuedAt (pushTask i queuedAt wN))
    as [[-> Hwhy]|(h & rest & Hq' & Hlt & ->)]; simpl in *.
  - (* the last submission had to wait *)
    destruct Hwhy as [Hfull|Hempty]; [|by rewrite Hq in Hempty].
    eexists _, _, t0. split; [done|].
    split; [simpl; by rewrite Hawaiting|]. split; [done|].
    split; [unfold resume; simpl; rewrite Hawaiting; simpl; reflexivity|].
    rewrite (processQueue_admits now _ t []); simpl.
    + split; [apply elem_of_app; right; left|].
      split; [apply elem_of_app; right; left|done].
    + by rewrite Hq.
    + rewrite map_size_delete_Some by (apply Hids; left).
      pose proof (bounded_size _ _ Hb). lia.
  - (* it started at once *)
    rewrite Hq in Hq'. simpl in Hq'. injection Hq' as <- <-.
    eexists _, _, t0. split; [done|].
    split; [simpl; by rewrite Hawaiting|]. split; [done|].
    split; [unfold resume; simpl; rewrite Hawaiting; simpl; reflexivity|].
    rewrite processQueue_idle by done. simpl.
    split; [apply elem_of_app; right; left|].
    split; [apply elem_of_app; right; left|done].
Qed.

(** C5. The failure of a started task deletes its id from the running
    set and lets [processQueue] run again: when a task waits and the
    running set is then below the ceiling, the head of the waiting line
    is started.  So with ceiling [N >= 1], [N] + 1 submissions and the
    first task failing, the last submitted task has been started, and
    nothing waits. *)
Theorem failing_task_frees_slot :
  (∀ w k e now t,
     awaiting w !! k = Some t →
     let w1 := release k t (Threw e) w in
     running (tq w1) !! id t = None
     ∧ step w (Settle k (Threw e) now) = Some (processQueue now w1).1
     ∧ ∀ h rest,
         queue (tq w) = h :: rest →
         Z.of_nat (size (running (tq w1))) < maxConcurrent (tq w) →
         let w' := (processQueue now w1).1 in
         queue (tq w') = rest
         ∧ started w' = started w ++ [h]
         ∧ awaiting w' = delete k (awaiting w) ++ [h]
         ∧ running (tq w') !! id h = Some now)
  ∧ (∀ N subs i queuedAt e now,
       1 ≤ N →
       length subs = Z.to_nat N →
       ∃ w w' t0,
         run (new N) (uncurry Enqueue <$> (subs ++ [(i, queuedAt)])) = Some w
         ∧ awaiting w !! 0%nat = Some t0 ∧ promise t0 = 0%nat
         ∧ step w (Settle 0 (Threw e) now) = Some w'
         ∧ let t := {| id := i; promise := length subs; queuedAt := queuedAt |} in
           t ∈ started w' ∧ t ∈ awaiting w' ∧ queue (tq w') = []).
Proof.
  split; [|apply overflow_started_after_failure].
  intros w k e now t Hk w1.
  split; [apply lookup_delete_eq|].
  split; [simpl; unfold resume; by rewrite Hk|].
  intros h rest Hq Hlt w'. subst w'.
  rewrite (processQueue_admits now w1 h rest) by done. simpl.
  by rewrite lookup_insert_eq.
Qed.

Lemma failing_task_frees_slot_witness :
  let subs := [(lit "a", 1); (lit "b", 2)] in
  ∃ w w' t0,
    run (new 2) (uncurry Enqueue <$> (subs ++ [(lit "c", 3)])) = Some w
    ∧ awaiting w !! 0%nat = Some t0 ∧ promise t0 = 0%nat
    ∧ step w (Settle 0 (Threw (JError (lit "boom"))) 4) = Some w'
    ∧ let t := {| id := lit "c"; promise := length subs; queuedAt := 3 |} in
      t ∈ started w' ∧ t ∈ awaiting w' ∧ queue (tq w') = [].
Proof.
  intros subs.
  apply (proj2 failing_task_frees_slot 2 subs (lit "c") 3 (JError (lit "boom")) 4);
    [lia|reflexivity].
Defined.

(** ** Ids and tasks

    The running set holds ids, not tasks.  When no id is submitted twice
    it counts the started tasks that have not settled, which are then at
    most [N] as well; when an id is submitted twice it does not. *)

Lemma distinct_processQueue now w : distinct w → distinct (processQueue now w).1.
Proof.
  intros [Hids Hdom Haw].
  destruct (processQueue_cases now w) as [[-> _]|(h & rest & Hq & Hlt & ->)]; simpl.
  - by split.
  - split; simpl.
    + rewrite <- app_assoc. simpl. by rewrite <- Hq.
    + rewrite dom_insert_L, Hdom, fmap_app, list_to_set_app_L. simpl. set_solver.
    + by apply sublist_app.
Qed.

Lemma distinct_pushTask i now w :
  i ∉ id <$> (started w ++ queue (tq w)) → distinct w → distinct (pushTask i now w).
Proof.
  intros Hi [Hids Hdom Haw]. split; simpl; [|done|done].
  rewrite app_assoc, fmap_app. apply NoDup_app. split; [done|]. simpl.
  split; [|apply NoDup_singleton]. by intros x Hx ->%list_elem_of_singleton.
Qed.

Lemma distinct_release k t c w :
  awaiting w !! k = Some t → distinct w → distinct (release k t c w).
Proof.
  intros Hk [Hids Hdom Haw]. split; simpl; [done| |].
  - assert (Hnd : NoDup (id <$> awaiting w)).
    { eapply sublist_NoDup; [|by apply fmap_sublist].
      rewrite fmap_app in Hids. by apply NoDup_app in Hids as (? & _). }
    rewrite dom_delete_L, Hdom, delete_take_drop.
    rewrite <- (take_drop_middle _ _ _ Hk) in Hnd |- * at 1.
    rewrite fmap_app, fmap_cons in Hnd.
    apply NoDup_app in Hnd as (_ & Hdisj & Hnd). apply NoDup_cons in Hnd as [Hnot _].
    rewrite !fmap_app, fmap_cons, !list_to_set_app_L, list_to_set_cons.
    assert (id t ∉ id <$> take k (awaiting w)) by (intros Hin; apply (Hdisj _ Hin); left).
    set_solver.
  - etrans; [apply sublist_delete|done].
Qed.

Lemma distinct_run es : ∀ w w',
  distinct w →
  NoDup ((id <$> (started w ++ queue (tq w))) ++ submitted es) →
  run w es = Some w' → distinct w'.
Proof.
  induction es as [|e es IH]; simpl; intros w w' Hw Hnd.
  - by intros [= <-].
  - destruct (step w e) as [w1|] eqn:E; [|done].
    apply step_cases in E as [(i & now & -> & ->)|(k & c & now & t & -> & Hk & ->)].
    + simpl in Hnd. apply IH.
      * apply distinct_processQueue, distinct_pushTask; [|done].
        apply NoDup_app in Hnd as (_ & Hdisj & _). intros Hin. apply (Hdisj _ Hin). left.
      * destruct (processQueue_grows now (pushTask i now w)) as (_ & _ & ->). simpl.
        rewrite app_assoc, fmap_app. simpl. by rewrite <- app_assoc.
    + simpl in Hnd. apply IH.
      * by apply distinct_processQueue, distinct_release.
      * by destruct (processQueue_grows now (release k t c w)) as (_ & _ & ->).
Qed.

End QueueFacts.

(* ===================================================================== *)
(** * Properties of the matcher *)
(* ===================================================================== *)

Section RegexFacts.
Import Regex.
Local Open Scope nat_scope.

Context (f : flags).

Lemma rep_unfold {A} a greedy min max bef aft (k : list N → list N → option A) :
  rep f a greedy min max bef aft k =
    let more (min' : nat) :=
      match aft with
      | c :: aft' =>
          if room max && accepts f a c
          then rep f a greedy min' (pred <$> max) (c :: bef) aft' k
          else None
      | [] => None
      end in
    match min with
    | S min' => more min'
    | O =>
        if greedy
        then match more O with Some x => Some x | None => k bef aft end
        else match k bef aft with Some x => Some x | None => more O end
    end.
Proof. by destruct aft. Qed.

Lemma matcher_Seq {A} r1 r2 s (k : pos → option A) :
  matcher f (Seq r1 r2) s k = matcher f r1 s (fun s' => matcher f r2 s' k).
Proof. reflexivity. Qed.

Lemma matcher_Atom {A} a s (k : pos → option A) :
  matcher f (Atom a) s k =
    match after s with
    | c :: aft =>
        if accepts f a c
        then k {| before := c :: before s; after := aft; capture := capture s |}
        else None
    | [] => None
    end.
Proof. reflexivity. Qed.

Lemma matcher_Rep {A} greedy min max a s (k : pos → option A) :
  matcher f (Rep greedy min max a) s k =
    rep f a greedy min max (before s) (after s)
      (fun bef aft => k {| before := bef; after := aft; capture := capture s |}).
Proof. reflexivity. Qed.

Lemma matcher_Group {A} r' s (k : pos → option A) :
  matcher f (Group r') s k =
    matcher f r' s (fun s' =>
      k {| before := before s'; after := after s';
           capture := Some (take (length (after s) - length (after s')) (after s)) |}).
Proof. reflexivity. Qed.

Lemma matcher_Look {A} r' s (k : pos → option A) :
  matcher f (Look r') s k =
    match matcher f r' s (fun _ => Some tt) with
    | Some _ => k s
    | None => None
    end.
Proof. reflexivity. Qed.

Lemma matcher_Bol {A} s (k : pos → option A) :
  matcher f Bol s k = if atBol f (before s) then k s else None.
Proof. reflexivity. Qed.

Lemma matcher_Eol {A} s (k : pos → option A) :
  matcher f Eol s k = if atEol f (after s) then k s else None.
Proof. reflexivity. Qed.

Lemma fits_pred max n : room max = true → fits (pred <$> max) n → fits max (S n).
Proof. destruct max as [[|m]|]; simpl; [done|lia|done]. Qed.

(** Whatever [rep] returns comes from the continuation, after a run of
    accepted code units of an allowed length. *)
Lemma rep_sound {A} a greedy (k : list N → list N → option A) x :
  ∀ aft min max bef,
    rep f a greedy min max bef aft k = Some x →
    ∃ w aft', aft = w ++ aft'
      ∧ Forall (fun c => accepts f a c = true) w
      ∧ min ≤ length w ∧ fits max (length w)
      ∧ k (rev w ++ bef) aft' = Some x.
Proof.
  assert (Hmore : ∀ aft, (∀ min max bef,
            rep f a greedy min max bef aft k = Some x →
            ∃ w aft', aft = w ++ aft'
              ∧ Forall (fun c => accepts f a c = true) w
              ∧ min ≤ length w ∧ fits max (length w)
              ∧ k (rev w ++ bef) aft' = Some x) →
          ∀ c min' max bef,
            (if room max && accepts f a c
             then rep f a greedy min' (pred <$> max) (c :: bef) aft k else None) = Some x →
            ∃ w aft', c :: aft = w ++ aft'
              ∧ Forall (fun c => accepts f a c = true) w
              ∧ S min' ≤ length w ∧ fits max (length w)
              ∧ k (rev w ++ bef) aft' = Some x).
  { intros aft IH c min' max bef H.
    destruct (room max) eqn:Hroom; [|done].
    destruct (accepts f a c) eqn:Hacc; [|done]. simpl in H.
    apply IH in H as (w & aft' & -> & Hall & Hmin & Hfit & Hk).
    exists (c :: w), aft'. simpl. split; [done|]. split; [by constructor|].
    split; [lia|]. split; [by apply fits_pred|].
    by rewrite <- app_assoc. }
  assert (Hstop : ∀ aft max bef, k bef aft = Some x →
            ∃ w aft', aft = w ++ aft'
              ∧ Forall (fun c => accepts f a c = true) w
              ∧ 0 ≤ length w ∧ fits max (length w)
              ∧ k (rev w ++ bef) aft' = Some x).
  { intros aft max bef H. exists [], aft. simpl.
    repeat split; [constructor|lia|destruct max; simpl; [lia|done]|done]. }
  induction aft as [|c aft IH]; intros min max bef; rewrite rep_unfold; simpl.
  - destruct min as [|min']; [|done].
    destruct greedy; [apply Hstop|].
    destruct (k bef []) eqn:E; [|done]. intros [= ->]. by apply Hstop.
  - destruct min as [|min'].
    + destruct greedy.
      * destruct (if room max && accepts f a c
                  then rep f a true 0 (pred <$> max) (c :: bef) aft k else None) eqn:E.
        -- intros [= ->]. apply (Hmore aft IH) in E as (w & aft' & ? & ? & ? & ? & ?).
           exists w, aft'. repeat split; try done. lia.
        -- apply Hstop.
      * destruct (k bef (c :: aft)) eqn:E.
        -- intros [= ->]. by apply Hstop.
        -- intros H. apply (Hmore aft IH) in H as (w & aft' & ? & ? & ? & ? & ?).
           exists w, aft'. repeat split; try done. lia.
    + apply (Hmore aft IH).
Qed.

(** Whatever the matcher returns comes from the continuation, reached
    over code units that the pattern matches. *)
Lemma matcher_sound r :
  ∀ A (s : pos) (k : pos → option A) x,
    matcher f r s k = Some x →
    ∃ w aft' c',
      after s = w ++ aft'
      ∧ lang f r (before s) w aft' (capture s) c'
      ∧ k {| before := rev w ++ before s; after := aft'; capture := c' |} = Some x.
Proof.
  induction r as [|a| | |r1 IH1 r2 IH2|r1 IH1 r2 IH2|greedy min max a|r' IH|r' IH];
    intros A [bef aft c] k x; simpl.
  - intros H. by exists [], aft, c.
  - destruct aft as [|y aft]; [done|].
    destruct (accepts f a y) eqn:Hacc; [|done]. intros H.
    exists [y], aft, c. simpl. eauto 10.
  - destruct (atBol f bef) eqn:E; [|done]. intros H. by exists [], aft, c.
  - destruct (atEol f aft) eqn:E; [|done]. intros H. by exists [], aft, c.
  - intros H. apply IH1 in H as (u & aft1 & c1 & Haft & Hl1 & H). simpl in *.
    apply IH2 in H as (v & aft2 & c2 & Haft2 & Hl2 & H). simpl in *. subst.
    exists (u ++ v), aft2, c2. rewrite <- app_assoc. split; [done|].
    split; [by exists u, v, c1|]. by rewrite rev_app_distr, <- app_assoc.
  - destruct (matcher f r1 _ k) eqn:E.
    + intros [= ->]. apply IH1 in E as (w & aft' & c' & ? & ? & ?).
      exists w, aft', c'. eauto.
    + intros H. apply IH2 in H as (w & aft' & c' & ? & ? & ?).
      exists w, aft', c'. eauto.
  - intros H. apply rep_sound in H as (w & aft' & -> & Hall & Hmin & Hfit & H).
    by exists w, aft', c.
  - intros H. apply IH in H as (w & aft' & c' & Haft & Hl & H). simpl in *. subst.
    exists w, aft', (Some w). split; [done|]. split; [eauto|].
    rewrite length_app in H.
    replace (length w + length aft' - length aft') with (length w) in H by lia.
    by rewrite take_app_length in H.
  - destruct (matcher f r' _ _) as [[]|] eqn:E; [|done]. intros H.
    apply IH in E as (u & v & c1 & Haft & Hl & _). simpl in *.
    exists [], aft, c. split; [done|]. split; [|done]. eauto 10.
Qed.

(** The match that [search] finds: some code units are skipped, then
    the pattern matches. *)
Lemma search_sound r s :
  ∀ aft bef,
    search f r bef aft = Some s →
    ∃ skipped w,
      aft = skipped ++ w ++ after s
      ∧ before s = rev w ++ rev skipped ++ bef
      ∧ lang f r (rev skipped ++ bef) w (after s) None (capture s).
Proof.
  assert (Hhere : ∀ aft bef,
            matcher f r {| before := bef; after := aft; capture := None |} Some = Some s →
            ∃ skipped w,
              aft = skipped ++ w ++ after s
              ∧ before s = rev w ++ rev skipped ++ bef
              ∧ lang f r (rev skipped ++ bef) w (after s) None (capture s)).
  { intros aft bef H. apply matcher_sound in H as (w & aft' & c' & Haft & Hl & [= <-]).
    simpl in *. by exists [], w. }
  induction aft as [|c aft IH]; intros bef; simpl.
  - destruct (matcher f r _ Some) eqn:E; [|done]. intros [= ->]. by apply Hhere.
  - destruct (matcher f r _ Some) eqn:E.
    + intros [= ->]. by apply Hhere.
    + intros H. apply IH in H as (skipped & w & Haft & Hbef & Hl).
      exists (c :: skipped), w. simpl. rewrite <- app_assoc. simpl.
      split; [by rewrite Haft|done].
Qed.

Lemma lang_minLength r :
  ∀ bef w aft c c', lang f r bef w aft c c' → minLength r ≤ length w.
Proof.
  induction r as [|a| | |r1 IH1 r2 IH2|r1 IH1 r2 IH2|greedy min max a|r' IH|r' IH];
    intros bef w aft c c'; simpl.
  - intros [-> _]. done.
  - intros [(x & -> & _) _]. done.
  - intros [-> _]. done.
  - intros [-> _]. done.
  - intros (u & v & c1 & -> & H1 & H2). rewrite length_app.
    apply IH1 in H1. apply IH2 in H2. lia.
  - intros [H|H]; [apply IH1 in H|apply IH2 in H]; lia.
  - intros (_ & H & _). done.
  - intros [(c1 & H) _]. by eapply IH.
  - intros [-> _]. simpl. lia.
Qed.

Lemma within_app_l a e s : within e s → within e (a ++ s).
Proof. intros (x & y & ->). exists (a ++ x), y. by rewrite <- app_assoc. Qed.

Lemma within_app_r e s b : within e s → within e (s ++ b).
Proof. intros (x & y & ->). exists x, (y ++ b). by rewrite <- !app_assoc. Qed.

Lemma within_refl s : within s s.
Proof. exists [], []. by rewrite app_nil_r. Qed.

Lemma within_trans e s t : within e s → within s t → within e t.
Proof. intros He (x & y & ->). by apply within_app_l, within_app_r. Qed.

(** Group 1 is either left as it was or set to something matched. *)
Lemma lang_capture r :
  ∀ bef w aft c c',
    lang f r bef w aft c c' → c' = c ∨ ∃ m, c' = Some m ∧ within m w.
Proof.
  induction r as [|a| | |r1 IH1 r2 IH2|r1 IH1 r2 IH2|greedy min max a|r' IH|r' IH];
    intros bef w aft c c'; simpl.
  - intros [_ ->]. by left.
  - intros [_ ->]. by left.
  - intros (_ & _ & ->). by left.
  - intros (_ & _ & ->). by left.
  - intros (u & v & c1 & -> & H1 & H2).
    apply IH1 in H1. apply IH2 in H2.
    destruct H2 as [->|(m & -> & Hm)].
    + destruct H1 as [->|(m & -> & Hm)]; [by left|].
      right. exists m. split; [done|]. by apply within_app_r.
    + right. exists m. split; [done|]. by apply within_app_l.
  - intros [H|H]; [by apply IH1 in H|by apply IH2 in H].
  - intros (_ & _ & _ & ->). by left.
  - intros [_ ->]. right. exists w. split; [done|]. apply within_refl.
  - intros (_ & _ & ->). by left.
Qed.

Lemma lang_captures r :
  captures r = true →
  ∀ bef w aft c c',
    lang f r bef w aft c c' → ∃ m, c' = Some m ∧ within m w.
Proof.
  induction r as [|a| | |r1 IH1 r2 IH2|r1 IH1 r2 IH2|greedy min max a|r' IH|r' IH];
    simpl; try done; intros Hc bef w aft c c'.
  - intros (u & v & c1 & -> & H1 & H2).
    destruct (captures r2) eqn:E2.
    + apply (IH2 eq_refl) in H2 as (m & -> & Hm).
      exists m. split; [done|]. by apply within_app_l.
    + rewrite orb_false_r in Hc. apply (IH1 Hc) in H1 as (m & -> & Hm).
      apply lang_capture in H2 as [->|(m' & -> & Hm')].
      * exists m. split; [done|]. by apply within_app_r.
      * exists m'. split; [done|]. by apply within_app_l.
  - apply andb_true_iff in Hc as [Hc1 Hc2].
    intros [H|H]; [by apply (IH1 Hc1) in H|by apply (IH2 Hc2) in H].
  - intros [_ ->]. exists w. split; [done|]. apply within_refl.
Qed.

Lemma occursInOrder_app_l es : ∀ a s, occursInOrder es s → occursInOrder es (a ++ s).
Proof.
  destruct es as [|e es]; [done|]. intros a s (x & s' & -> & H).
  exists (a ++ x), s'. by rewrite <- app_assoc.
Qed.

Lemma occursInOrder_app_r es : ∀ s b, occursInOrder es s → occursInOrder es (s ++ b).
Proof.
  induction es as [|e es IH]; [done|]. intros s b (x & s' & -> & H).
  exists x, (s' ++ b). rewrite <- !app_assoc. split; [done|]. by apply IH.
Qed.

Lemma occursInOrder_within es s t : occursInOrder es s → within s t → occursInOrder es t.
Proof. intros H (x & y & ->). by apply occursInOrder_app_l, occursInOrder_app_r. Qed.

(** ** trim *)

Lemma trimStart_noLeadingSpace s : noLeadingSpace (trimStart s).
Proof.
  induction s as [|c s IH]; simpl; [done|].
  destruct (isSpace c) eqn:E; [done|]. by simpl.
Qed.

Lemma trimStart_id s : noLeadingSpace s → trimStart s = s.
Proof. destruct s as [|c s]; simpl; [done|]. by intros ->. Qed.

Lemma trimStart_suffix s : ∃ x, s = x ++ trimStart s ∧ Forall (fun c => isSpace c = true) x.
Proof.
  induction s as [|c s (x & IH & Hx)]; simpl.
  - by exists [].
  - destruct (isSpace c) eqn:E.
    + exists (c :: x). simpl. split; [by rewrite <- IH|by constructor].
    + by exists [].
Qed.

Lemma noLeadingSpace_prefix p q : noLeadingSpace (p ++ q) → p ≠ [] → noLeadingSpace p.
Proof. by destruct p. Qed.

Lemma trim_within s : within (trim s) s.
Proof.
  unfold trim.
  destruct (trimStart_suffix s) as (x & Hs & _).
  destruct (trimStart_suffix (rev (trimStart s))) as (y & Hr & _).
  exists x, (rev y). rewrite Hs at 1. f_equal.
  rewrite <- (rev_involutive (trimStart s)) at 1. rewrite Hr at 1.
  by rewrite rev_app_distr.
Qed.

Lemma trim_trim s : trim (trim s) = trim s.
Proof.
  unfold trim.
  set (t := trimStart s). set (u := trimStart (rev t)).
  assert (Hru : trimStart (rev u) = rev u).
  { apply trimStart_id.
    destruct (trimStart_suffix (rev t)) as (y & Hr & _). fold u in Hr.
    assert (Ht : t = rev u ++ rev y).
    { rewrite <- (rev_involutive t), Hr. by rewrite rev_app_distr. }
    destruct (decide (rev u = [])) as [->|Hne]; [done|].
    apply (noLeadingSpace_prefix _ (rev y)); [|done].
    rewrite <- Ht. apply trimStart_noLeadingSpace. }
  rewrite Hru, rev_involutive. f_equal.
  apply trimStart_id, trimStart_noLeadingSpace.
Qed.

(** ** Completeness and the order of backtracking *)

Lemma fits_room max n : fits max (S n) → room max = true ∧ fits (pred <$> max) n.
Proof. destruct max as [[|m]|]; simpl; [lia| |done]. intros. split; [done|lia]. Qed.

(** If some allowed run of accepted code units leads the continuation to
    success, [rep] succeeds (maybe along another run). *)
Lemma rep_complete {A} a greedy (k : list N → list N → option A) :
  ∀ w aft' min max bef,
    Forall (fun c => accepts f a c = true) w →
    min ≤ length w → fits max (length w) →
    is_Some (k (rev w ++ bef) aft') →
    is_Some (rep f a greedy min max bef (w ++ aft') k).
Proof.
  induction w as [|c w IH]; intros aft' min max bef Hall Hmin Hfit Hk;
    rewrite rep_unfold; simpl in *.
  - destruct min as [|?]; [|lia].
    destruct greedy.
    + by destruct (match aft' with [] => None | _ => _ end).
    + destruct Hk as [y ->]. eauto.
  - apply Forall_cons in Hall as [Hc Hall].
    apply fits_room in Hfit as [-> Hfit]. rewrite Hc. simpl.
    rewrite <- app_assoc in Hk. simpl in Hk.
    destruct min as [|min'].
    + pose proof (IH aft' 0 (pred <$> max) (c :: bef) Hall ltac:(lia) Hfit Hk) as [y Hy].
      destruct greedy; rewrite Hy; [eauto|].
      destruct (k bef (c :: w ++ aft')); eauto.
    + apply IH; [done|lia|done|done].
Qed.

(** A lazy quantifier stops at the first length at which the rest
    succeeds. *)
Lemma rep_lazy_first {A} a (k : list N → list N → option A) x :
  ∀ aft min max bef,
    rep f a false min max bef aft k = Some x →
    ∃ w aft', aft = w ++ aft'
      ∧ Forall (fun c => accepts f a c = true) w
      ∧ min ≤ length w ∧ fits max (length w)
      ∧ k (rev w ++ bef) aft' = Some x
      ∧ ∀ w1 w2, w = w1 ++ w2 → w2 ≠ [] → min ≤ length w1 →
          k (rev w1 ++ bef) (w2 ++ aft') = None.
Proof.
  induction aft as [|c aft IH]; intros min max bef; rewrite rep_unfold; simpl.
  - destruct min as [|min']; [|done].
    destruct (k bef []) eqn:E; [|done]. intros [= ->].
    exists [], []. simpl. repeat split; try done; [destruct max; simpl; [lia|done]|].
    intros w1 w2 Hw. symmetry in Hw. by apply app_eq_nil in Hw as [_ ->].
  - assert (Hmore : ∀ min', (min = S min' ∨ (min = 0 ∧ min' = 0 ∧ k bef (c :: aft) = None)) →
              (if room max && accepts f a c
               then rep f a false min' (pred <$> max) (c :: bef) aft k else None) = Some x →
              ∃ w aft', c :: aft = w ++ aft'
                ∧ Forall (fun c => accepts f a c = true) w
                ∧ min ≤ length w ∧ fits max (length w)
                ∧ k (rev w ++ bef) aft' = Some x
                ∧ ∀ w1 w2, w = w1 ++ w2 → w2 ≠ [] → min ≤ length w1 →
                    k (rev w1 ++ bef) (w2 ++ aft') = None).
    { intros min' Hmin H.
      destruct (room max) eqn:Hroom; [|done].
      destruct (accepts f a c) eqn:Hacc; [|done]. simpl in H.
      apply IH in H as (w & aft' & -> & Hall & Hlen & Hfit & Hk & Hfirst).
      exists (c :: w), aft'. simpl. split; [done|]. split; [by constructor|].
      split; [destruct Hmin as [->|(-> & _)]; lia|]. split; [by apply fits_pred|].
      split; [by rewrite <- app_assoc|].
      intros [|c1 w1] w2 Hw Hw2 Hlen1; simpl in *.
      - destruct Hmin as [->|(_ & _ & Hnone)]; [lia|]. by rewrite <- Hw.
      - injection Hw as <- ->. rewrite <- app_assoc. simpl.
        apply Hfirst; [done|done|]. destruct Hmin as [->|(-> & -> & _)]; lia. }
    destruct min as [|min'].
    + destruct (k bef (c :: aft)) eqn:E.
      * intros [= ->]. exists [], (c :: aft). simpl.
        repeat split; try done; [destruct max; simpl; [lia|done]|].
        intros w1 w2 Hw. symmetry in Hw. by apply app_eq_nil in Hw as [_ ->].
      * apply Hmore. by right.
    + apply Hmore. by left.
Qed.

(** A greedy quantifier keeps the longest run after which the rest
    succeeds. *)
Lemma rep_greedy_last {A} a (k : list N → list N → option A) x :
  ∀ aft min max bef,
    rep f a true min max bef aft k = Some x →
    ∃ w aft', aft = w ++ aft'
      ∧ Forall (fun c => accepts f a c = true) w
      ∧ min ≤ length w ∧ fits max (length w)
      ∧ k (rev w ++ bef) aft' = Some x
      ∧ ∀ w2 aft'', w2 ≠ [] → aft' = w2 ++ aft'' →
          Forall (fun c => accepts f a c = true) w2 →
          fits max (length w + length w2) →
          k (rev w2 ++ rev w ++ bef) aft'' = None.
Proof.
  induction aft as [|c aft IH]; intros min max bef; rewrite rep_unfold; simpl.
  - destruct min as [|min']; [|done]. intros Hk.
    exists [], []. simpl. repeat split; try done; [destruct max; simpl; [lia|done]|].
    intros w2 aft'' Hw2 Haft. symmetry in Haft. by apply app_eq_nil in Haft as [-> _].
  - assert (Hmore : ∀ min',
              (if room max && accepts f a c
               then rep f a true min' (pred <$> max) (c :: bef) aft k else None) = Some x →
              ∃ w aft', c :: aft = w ++ aft'
                ∧ Forall (fun c => accepts f a c = true) w
                ∧ S min' ≤ length w ∧ fits max (length w)
                ∧ k (rev w ++ bef) aft' = Some x
                ∧ ∀ w2 aft'', w2 ≠ [] → aft' = w2 ++ aft'' →
                    Forall (fun c => accepts f a c = true) w2 →
                    fits max (length w + length w2) →
                    k (rev w2 ++ rev w ++ bef) aft'' = None).
    { intros min' H.
      destruct (room max) eqn:Hroom; [|done].
      destruct (accepts f a c) eqn:Hacc; [|done]. simpl in H.
      apply IH in H as (w & aft' & -> & Hall & Hlen & Hfit & Hk & Hlast).
      exists (c :: w), aft'. simpl. split; [done|]. split; [by constructor|].
      split; [lia|]. split; [by apply fits_pred|].
      split; [by rewrite <- app_assoc|].
      intros w2 aft'' Hw2 Haft Hall2 Hfit2.
      rewrite <- app_assoc. simpl. apply Hlast; [done|done|done|].
      by apply fits_room in Hfit2 as [_ ?]. }
    destruct min as [|min'].
    + destruct (if room max && accepts f a c
                then rep f a true 0 (pred <$> max) (c :: bef) aft k else None) eqn:E.
      * intros [= ->]. apply Hmore in E as (w & aft' & ? & ? & ? & ? & ? & ?).
        exists w, aft'. repeat split; try done. lia.
      * intros Hk. exists [], (c :: aft). simpl.
        repeat split; try done; [destruct max; simpl; [lia|done]|].
        intros [|c2 w2] aft'' Hw2 Haft Hall2 Hfit2; [done|].
        simpl in Haft. injection Haft as <- ->.
        apply Forall_cons in Hall2 as [Hc Hall2]. simpl in Hfit2.
        apply fits_room in Hfit2 as [Hroom Hfit2].
        rewrite Hroom, Hc in E. simpl in E.
        simpl. rewrite <- app_assoc. simpl.
        destruct (k (rev w2 ++ c :: bef) aft'') eqn:Ek; [|done].
        pose proof (rep_complete a true k w2 aft'' 0 (pred <$> max) (c :: bef)
                      Hall2 ltac:(lia) Hfit2 ltac:(by rewrite Ek)) as [y Hy].
        congruence.
    + apply Hmore.
Qed.

(** If the pattern matches some code units and the continuation
    succeeds behind them, the matcher succeeds. *)
Lemma matcher_complete r :
  ∀ A (s : pos) (k : pos → option A) w aft' c',
    after s = w ++ aft' →
    lang f r (before s) w aft' (capture s) c' →
    is_Some (k {| before := rev w ++ before s; after := aft'; capture := c' |}) →
    is_Some (matcher f r s k).
Proof.
  induction r as [|a| | |r1 IH1 r2 IH2|r1 IH1 r2 IH2|greedy min max a|r' IH|r' IH];
    intros A [bef aft c] k w aft' c' Haft; simpl in *.
  - intros [-> ->]. simpl in Haft. by subst.
  - intros [(y & -> & Hacc) ->]. simpl in Haft. subst. by rewrite Hacc.
  - intros (-> & -> & ->). simpl in Haft. by subst.
  - intros (-> & Heol & ->). simpl in Haft. subst. by rewrite Heol.
  - intros (u & v & c1 & -> & H1 & H2) Hk.
    apply (IH1 _ {| before := bef; after := aft; capture := c |} _ u (v ++ aft') c1);
      simpl; [by rewrite <- app_assoc in Haft|done|].
    apply (IH2 _ {| before := rev u ++ bef; after := v ++ aft'; capture := c1 |}
             _ v aft' c'); simpl; [done|done|].
    by rewrite rev_app_distr, <- app_assoc in Hk.
  - intros [H|H] Hk.
    + destruct (IH1 _ {| before := bef; after := aft; capture := c |} k w aft' c'
                  Haft H Hk) as [y ->]. eauto.
    + destruct (matcher f r1 _ k); [eauto|].
      by apply (IH2 _ {| before := bef; after := aft; capture := c |} k w aft' c').
  - intros (Hall & Hmin & Hfit & ->) Hk. subst aft. by apply rep_complete.
  - intros [(c1 & H) ->] Hk.
    apply (IH _ {| before := bef; after := aft; capture := c |} _ w aft' c1);
      simpl; [done|done|]. subst aft.
    rewrite length_app.
    replace (length w + length aft' - length aft') with (length w) by lia.
    by rewrite take_app_length.
  - intros (-> & (u & v & c1 & -> & H) & ->) Hk. simpl in Haft. subst.
    destruct (IH unit {| before := bef; after := u ++ v; capture := c |}
                (fun _ => Some tt) u v c1 eq_refl H ltac:(eauto)) as [[] ->].
    done.
Qed.

(** [search] returns what the matcher returns at the first start
    position where it succeeds. *)
Lemma search_found r s :
  ∀ aft bef,
    search f r bef aft = Some s →
    ∃ skipped rest,
      aft = skipped ++ rest
      ∧ matcher f r {| before := rev skipped ++ bef; after := rest; capture := None |} Some
        = Some s
      ∧ ∀ sk1 sk2, skipped = sk1 ++ sk2 → sk2 ≠ [] →
          matcher f r {| before := rev sk1 ++ bef; after := sk2 ++ rest; capture := None |}
            Some = None.
Proof.
  assert (Hhere : ∀ aft bef,
            matcher f r {| before := bef; after := aft; capture := None |} Some = Some s →
            ∃ skipped rest,
              aft = skipped ++ rest
              ∧ matcher f r {| before := rev skipped ++ bef; after := rest; capture := None |}
                  Some = Some s
              ∧ ∀ sk1 sk2, skipped = sk1 ++ sk2 → sk2 ≠ [] →
                  matcher f r {| before := rev sk1 ++ bef; after := sk2 ++ rest;
                                 capture := None |} Some = None).
  { intros aft bef H. exists [], aft. split; [done|]. split; [done|].
    intros sk1 sk2 Hsk. symmetry in Hsk. by apply app_eq_nil in Hsk as [_ ->]. }
  induction aft as [|c aft IH]; intros bef; simpl.
  - destruct (matcher f r _ Some) eqn:E; [|done]. intros [= ->]. by apply Hhere.
  - destruct (matcher f r _ Some) eqn:E.
    + intros [= ->]. by apply Hhere.
    + intros H. apply IH in H as (skipped & rest & -> & Hm & Hfirst).
      exists (c :: skipped), rest. simpl. rewrite <- app_assoc. simpl.
      split; [done|]. split; [done|].
      intros [|c1 sk1] sk2 Hsk Hne; simpl in *.
      * by rewrite <- Hsk.
      * injection Hsk as <- ->. rewrite <- app_assoc. simpl. by apply Hfirst.
Qed.

(** The characters of a pattern word match one code unit each. *)
Lemma lang_chars pat :
  ∀ bef w aft c c',
    lang f (seq_of (Atom ∘ Char <$> pat)) bef w aft c c' →
    Forall2 (fun x p => sameChar f p x = true) w pat ∧ c' = c.
Proof.
  induction pat as [|p [|p2 pat] IH]; intros bef w aft c c'.
  - intros [-> ->]. by split.
  - intros [(x & -> & Hx) ->]. split; [|done]. by repeat constructor.
  - intros (u & v & c1 & -> & [(x & -> & Hx) ->] & H2).
    apply IH in H2 as [H2 ->]. split; [|done]. by constructor.
Qed.

(** A match stays a match in a wider text, as long as the text around
    it looks the same to [^] and [$]. *)
Lemma lang_context r :
  lookFree r = true →
  ∀ bef bef' w aft aft' c c',
    (∀ u, atBol f (u ++ bef) = true → atBol f (u ++ bef') = true) →
    (∀ v, atEol f (v ++ aft) = true → atEol f (v ++ aft') = true) →
    lang f r bef w aft c c' → lang f r bef' w aft' c c'.
Proof.
  induction r as [|a| | |r1 IH1 r2 IH2|r1 IH1 r2 IH2|greedy min max a|r' IH|r' IH];
    simpl; intros Hfree bef bef' w aft aft' c c' Hbef Haft; try done.
  - intros (-> & Hbol & ->). split; [done|]. split; [|done]. by apply (Hbef []).
  - intros (-> & Heol & ->). split; [done|]. split; [|done]. by apply (Haft []).
  - apply andb_true_iff in Hfree as [Hf1 Hf2].
    intros (u & v & c1 & -> & H1 & H2). exists u, v, c1. split; [done|]. split.
    + eapply (IH1 Hf1); [done| |done].
      intros v'. rewrite !app_assoc. apply Haft.
    + eapply (IH2 Hf2); [|done|done].
      intros u'. rewrite !app_assoc. apply Hbef.
  - apply andb_true_iff in Hfree as [Hf1 Hf2].
    intros [H|H]; [left; by eapply (IH1 Hf1)|right; by eapply (IH2 Hf2)].
  - intros [(c1 & H) ->]. split; [|done]. exists c1. by eapply (IH Hfree).
Qed.

(** [search] succeeds as soon as the matcher succeeds somewhere. *)
Lemma search_complete r :
  ∀ skipped bef rest,
    is_Some (matcher f r {| before := rev skipped ++ bef; after := rest; capture := None |}
               Some) →
    is_Some (search f r bef (skipped ++ rest)).
Proof.
  induction skipped as [|c skipped IH]; intros bef rest Hm; simpl in *.
  - destruct Hm as [x Hx]. destruct rest; simpl; rewrite Hx; eauto.
  - match goal with
    | |- is_Some (match ?m with _ => _ end) => destruct m; [eauto|]
    end.
    apply IH. by rewrite <- app_assoc in Hm.
Qed.

Lemma isLineTerminator_isSpace c : isLineTerminator c = true → isSpace c = true.
Proof.
  unfold isLineTerminator, isSpace.
  intros H. repeat (apply orb_true_iff in H as [H|H]); apply N.eqb_eq in H; by subst.
Qed.

(** A text splits into the rest of its first line and what follows. *)
Lemma span_line l :
  multiline f = true →
  ∃ u v, l = u ++ v ∧ Forall (fun c => isLineTerminator c = false) u ∧ atEol f v = true.
Proof.
  intros Hml. induction l as [|c l (u & v & -> & Hu & Hv)].
  - by exists [], [].
  - destruct (isLineTerminator c) eqn:E.
    + exists [], (c :: u ++ v). simpl. by rewrite Hml, E.
    + exists (c :: u), v. by repeat constructor.
Qed.

Lemma trimStart_app_space ws s :
  Forall (fun c => isSpace c = true) ws → trimStart (ws ++ s) = trimStart s.
Proof. induction 1 as [|c ws Hc _ IH]; simpl; [done|]. by rewrite Hc. Qed.

Lemma trimStart_nil s : trimStart s = [] → Forall (fun c => isSpace c = true) s.
Proof.
  intros H. destruct (trimStart_suffix s) as (x & Hs & Hx).
  rewrite H, app_nil_r in Hs. by subst.
Qed.

Lemma trim_nil s : trim s = [] → Forall (fun c => isSpace c = true) s.
Proof.
  unfold trim. intros H.
  apply (f_equal (@rev N)) in H. rewrite rev_involutive in H. simpl in H.
  apply trimStart_nil in H. apply Forall_rev in H. rewrite rev_involutive in H.
  destruct (trimStart_suffix s) as (x & Hs & Hx). rewrite Hs.
  by apply Forall_app.
Qed.

Lemma first_nonspace s :
  Forall (fun c => isSpace c = true) s
  ∨ ∃ s1 c s2, s = s1 ++ c :: s2 ∧ Forall (fun c => isSpace c = true) s1 ∧ isSpace c = false.
Proof.
  destruct (trimStart_suffix s) as (x & Hs & Hx).
  pose proof (trimStart_noLeadingSpace s) as Hn.
  destruct (trimStart s) as [|c s2].
  - left. rewrite app_nil_r in Hs. by subst.
  - right. by exists x, c, s2.
Qed.

Lemma trim_spaces s : Forall (fun c => isSpace c = true) s → trim s = [].
Proof.
  intros H. unfold trim.
  assert (Hs : trimStart s = []).
  { rewrite <- (app_nil_r s). by rewrite trimStart_app_space. }
  by rewrite Hs.
Qed.

Lemma trimStart_at ws c s :
  Forall (fun c => isSpace c = true) ws → isSpace c = false →
  trimStart (ws ++ c :: s) = c :: s.
Proof. intros Hws Hc. rewrite trimStart_app_space by done. simpl. by rewrite Hc. Qed.

End RegexFacts.

(* ===================================================================== *)
(** * Properties of extractAcceptanceCriteria *)
(* ===================================================================== *)

Section LinearFacts.
Import Regex Linear.
Local Open Scope nat_scope.
#[local] Arguments matcher : simpl never.
#[local] Arguments rep : simpl never.

Lemma acSectionRegex_split {A} s (k : pos → option A) :
  matcher acSectionFlags acSectionRegex s k =
    matcher acSectionFlags acHead s (fun s1 =>
    matcher acSectionFlags spaces s1 (fun s2 =>
    matcher acSectionFlags nl s2 (fun s3 =>
    matcher acSectionFlags (Group acBody) s3 (fun s4 =>
    matcher acSectionFlags (Look acLook) s4 k)))).
Proof. reflexivity. Qed.

Lemma canonicalize_other x c :
  canonicalize x = c → (c < 65 ∨ 90 < c)%N → x = c.
Proof.
  unfold canonicalize.
  destruct (N.leb_spec 97 x), (N.leb_spec x 122); simpl; lia.
Qed.

Lemma sameChar_other fl c x :
  (c < 65 ∨ 90 < c < 97 ∨ 122 < c)%N → sameChar fl c x = true → x = c.
Proof.
  unfold sameChar. intros Hc.
  assert (Hcc : canonicalize c = c).
  { unfold canonicalize. destruct (N.leb_spec 97 c), (N.leb_spec c 122); simpl; lia. }
  destruct (ignoreCase fl).
  - rewrite Hcc. intros H%N.eqb_eq. apply canonicalize_other; [done|lia].
  - by intros H%N.eqb_eq.
Qed.

Lemma Forall_sameChar_repeat fl c w :
  (c < 65 ∨ 90 < c < 97 ∨ 122 < c)%N →
  Forall (fun x => accepts fl (Char c) x = true) w → w = replicate (length w) c.
Proof.
  intros Hc. induction 1 as [|x w Hx _ IH]; simpl; [done|].
  f_equal; [by apply (sameChar_other fl)|done].
Qed.

Lemma sameText_of_chars (t pat : jsstring) :
  Forall2 (fun x p => sameChar acSectionFlags p x = true) t pat → sameText t pat.
Proof.
  unfold sameText. induction 1 as [|x p t pat Hx _ IH]; simpl; [done|].
  f_equal; [|done]. by apply N.eqb_eq.
Qed.

(** The look-ahead holds exactly where [sectionEnd] says. *)
Lemma lang_acLook bef u v c c' :
  lang acSectionFlags acLook bef u v c c' → sectionEnd (u ++ v).
Proof.
  intros [H|[H|H]].
  - destruct H as (u1 & v1 & c1 & -> & [(x & -> & Hx) _] & H).
    destruct H as (u2 & v2 & c2 & -> & (Hall & Hmin & Hmax & _) & [(y & -> & Hy) _]).
    apply (sameChar_other acSectionFlags) in Hx; [|lia]. subst x.
    apply (Forall_sameChar_repeat acSectionFlags) in Hall; [|lia].
    right. left. exists (length u2), y, v. simpl in *.
    split; [lia|]. split; [done|]. rewrite Hall at 1. by rewrite <- app_assoc.
  - destruct H as (u1 & v1 & c1 & -> & [(x & -> & Hx) _] & H).
    destruct H as (u2 & v2 & c2 & -> & [(y & -> & Hy) _] & [(z & -> & Hz) _]).
    apply (sameChar_other acSectionFlags) in Hx; [|lia].
    apply (sameChar_other acSectionFlags) in Hy; [|lia].
    apply (sameChar_other acSectionFlags) in Hz; [|lia]. subst.
    right. right. by exists v.
  - destruct H as (-> & Heol & _). destruct v; [by left|done].
Qed.

Lemma sectionEnd_acLook bef q c :
  sectionEnd q → ∃ u v, q = u ++ v ∧ lang acSectionFlags acLook bef u v c c.
Proof.
  intros [->|[(k & x & rest & Hk & Hx & ->)|(rest & ->)]].
  - exists [], []. split; [done|]. right. right. done.
  - exists (10%N :: replicate k 35%N ++ [x]), rest.
    split; [simpl; by rewrite <- app_assoc|]. left.
    exists [10%N], (replicate k 35%N ++ [x]), c. split; [done|].
    split; [split; [by exists 10%N|done]|].
    exists (replicate k 35%N), [x], c. split; [done|].
    split; [|split; [by exists x|done]].
    unfold hashes. simpl. rewrite length_replicate.
    split; [|split; [lia|split; [lia|done]]].
    by apply Forall_replicate.
  - exists [10%N; 10%N; 10%N], rest. split; [done|]. right. left.
    exists [10%N], [10%N; 10%N], c. split; [done|].
    split; [split; [by exists 10%N|done]|].
    exists [10%N], [10%N], c. split; [done|].
    split; split; (by exists 10%N) || done.
Qed.

Lemma sectionEnd_deep k rest : 4 ≤ k → ¬ sectionEnd (10%N :: replicate k 35%N ++ rest).
Proof.
  intros Hk [H|[(k' & x & rest' & Hk' & Hx & H)|(rest' & H)]]; [done| |].
  - injection H as H.
    assert (Hx' : (replicate k 35%N ++ rest) !! k' = Some x).
    { rewrite H. rewrite lookup_app_r by (rewrite length_replicate; lia).
      rewrite length_replicate. by replace (k' - k') with 0 by lia. }
    rewrite lookup_app_l in Hx' by (rewrite length_replicate; lia).
    apply lookup_replicate_1 in Hx' as [-> _]. done.
  - destruct k as [|k]; [lia|]. done.
Qed.

Lemma lang_acHead bef w aft c c' :
  lang acSectionFlags acHead bef w aft c c' →
  ∃ u0 hd, w = u0 ++ hd ∧ ((u0 = [] ∧ bef = []) ∨ u0 = [10%N]) ∧ isAcHeading hd.
Proof.
  intros (u0 & v0 & c0 & -> & H0 & H).
  destruct H as (u1 & v1 & c1 & -> & (Hall1 & Hmin1 & Hmax1 & _) & H).
  destruct H as (u2 & v2 & c2 & -> & (Hall2 & _) & H).
  destruct H as (u3 & v3 & c3 & -> & H3 & H).
  destruct H as (u4 & u5 & c4 & -> & (Hall4 & _) & H5).
  apply lang_chars in H3 as [H3 _]. apply lang_chars in H5 as [H5 _].
  exists u0, (u1 ++ u2 ++ u3 ++ u4 ++ u5). split; [done|]. split.
  - destruct H0 as [(-> & Hbol & _)|[(x & -> & Hx) _]].
    + left. split; [done|]. by destruct bef.
    + right. f_equal. by apply (sameChar_other acSectionFlags) in Hx; [|lia].
  - exists (length u1), u2, u3, u4, u5.
    apply (Forall_sameChar_repeat acSectionFlags) in Hall1; [|lia].
    split; [by rewrite <- Hall1|]. simpl in Hmax1. split; [lia|].
    split; [done|]. split; [by apply sameText_of_chars|].
    split; [done|]. by apply sameText_of_chars.
Qed.

(** Behind the line break that closes the heading, anything is a section:
    the body can always run to the end of the text. *)
Lemma section_complete bef rest c :
  is_Some (matcher acSectionFlags (Seq nl (Seq (Group acBody) (Look acLook)))
             {| before := bef; after := 10%N :: rest; capture := c |} Some).
Proof.
  apply (matcher_complete acSectionFlags _ _ _ _ (10%N :: rest) [] (Some rest));
    simpl; [by rewrite app_nil_r| |done].
  exists [10%N], rest, c. split; [done|]. split; [split; [by exists 10%N|done]|].
  exists rest, [], (Some rest). split; [by rewrite app_nil_r|]. split.
  - split; [|done]. exists c. split; [by apply Forall_true|]. split; [lia|]. done.
  - split; [done|]. split; [|done]. exists [], [], (Some rest). split; [done|].
    right. right. done.
Qed.

(** C7, as the code has it.  When the section pattern matches, the text
    is [p0 ++ hd ++ w3 ++ "\n" ++ body ++ q] where [hd] is the heading
    (one to three [#], "acceptance criteria" in any case), [p0] is empty
    or ends a line, and [w3] is white space.  The body starts behind the
    last line break of the white space that follows the heading text: no
    line break can be reached from its start over white space alone.  It
    ends where the look-ahead first holds: before a line break followed
    by one to three [#] and a white space (whatever the depth of the
    heading of the section), before three line breaks, or at the end of
    the text.  A line of four or more [#] is no such end. *)
Theorem acSection_body (description body : jsstring) :
  acSectionMatch description = Some (Some body) →
  ∃ p0 hd w3 q,
    description = p0 ++ hd ++ w3 ++ [10%N] ++ body ++ q
    ∧ (p0 = [] ∨ ∃ p', p0 = p' ++ [10%N])
    ∧ isAcHeading hd
    ∧ Forall (fun x => isSpace x = true) w3
    ∧ (∀ ws rest, Forall (fun x => isSpace x = true) ws → body ++ q ≠ ws ++ 10%N :: rest)
    ∧ sectionEnd q
    ∧ (∀ b1 b2, body = b1 ++ b2 → b2 ≠ [] → ¬ sectionEnd (b2 ++ q))
    ∧ (∀ k rest, 4 ≤ k → ¬ sectionEnd (10%N :: replicate k 35%N ++ rest)).
Proof.
  unfold acSectionMatch. intros Hm.
  destruct (search acSectionFlags acSectionRegex [] description) as [s|] eqn:Hs; [|done].
  simpl in Hm. injection Hm as Hcap.
  apply search_found in Hs as (skipped & rest & -> & Hs & _).
  rewrite app_nil_r, acSectionRegex_split in Hs.
  apply matcher_sound in Hs as (w & aft1 & c1 & Hrest & Hhead & Hs).
  simpl in Hrest. subst rest.
  apply lang_acHead in Hhead as (u0 & hd & -> & Hu0 & Hhd). simpl in Hu0.
  unfold spaces in Hs. rewrite matcher_Rep in Hs. simpl in Hs.
  apply rep_greedy_last in Hs as (w3 & aft2 & -> & Hw3 & _ & _ & Hs & Hlast).
  set (bef2 := rev w3 ++ rev (u0 ++ hd) ++ rev skipped) in *.
  unfold nl in Hs. rewrite matcher_Atom in Hs. simpl in Hs.
  destruct aft2 as [|y aft3]; [done|].
  destruct (sameChar acSectionFlags 10 y) eqn:Hy; [|done].
  apply sameChar_other in Hy; [|lia]. subst y.
  rewrite matcher_Group in Hs. unfold acBody in Hs. rewrite matcher_Rep in Hs.
  simpl in Hs.
  apply rep_lazy_first in Hs as (body' & q & -> & _ & _ & _ & Hs & Hfirst).
  rewrite matcher_Look in Hs.
  destruct (matcher acSectionFlags acLook _ _) as [[]|] eqn:Hlook; [|done].
  injection Hs as <-. simpl in Hcap. injection Hcap as <-.
  rewrite length_app.
  replace (length body' + length q - length q) with (length body') by lia.
  rewrite take_app_length.
  apply matcher_sound in Hlook as (u & v & c2 & Hq & Hlook & _). simpl in Hq.
  exists (skipped ++ u0), hd, w3, q.
  split; [by rewrite <- !app_assoc|].
  split.
  { destruct Hu0 as [[-> Hsk]| ->].
    - left. rewrite app_nil_r.
      apply (f_equal (@rev N)) in Hsk. by rewrite rev_involutive in Hsk.
    - right. by exists skipped. }
  split; [done|]. split; [done|].
  split.
  { intros ws rest' Hws Heq.
    specialize (Hlast (10%N :: ws) (10%N :: rest') ltac:(done)
                  ltac:(by rewrite Heq) ltac:(by constructor) ltac:(done)).
    pose proof (section_complete (rev (10%N :: ws) ++ bef2) rest' c1) as [x Hx].
    pose proof (eq_trans (eq_sym Hlast) Hx) as Hno. discriminate Hno. }
  split; [rewrite Hq; by eapply lang_acLook|].
  split; [|apply sectionEnd_deep].
  intros b1 b2 -> Hb2 Hend.
  specialize (Hfirst b1 b2 eq_refl Hb2 ltac:(lia)).
  rewrite matcher_Look in Hfirst.
  destruct (matcher acSectionFlags acLook _ _) as [[]|] eqn:Hlook'; [done|].
  match type of Hlook' with
  | matcher _ _ ?st _ = None =>
      apply (sectionEnd_acLook (before st) (b2 ++ q) (capture st)) in Hend
        as (u' & v' & Hq' & Hlang);
      pose proof (matcher_complete acSectionFlags acLook unit st
                    (fun _ => Some tt) u' v' (capture st) Hq' Hlang ltac:(eauto)) as [x Hx]
  end.
  congruence.
Qed.

(** ** The loops *)

Lemma push_cases criteria match1 :
  push criteria match1 = criteria
  ∨ (push criteria match1 = criteria ++ [trim match1]
     ∧ trim match1 ≠ [] ∧ trim match1 ∉ criteria).
Proof.
  unfold push, includes.
  case_bool_decide as H1; simpl; [by left|].
  case_bool_decide as H2; simpl; [by left|]. by right.
Qed.

(** A loop over a pattern that always takes a code unit and always goes
    through the group returns, given one round of fuel per code unit and
    one more; what it adds to the criteria is well formed, new, and
    found in the text in the order in which it is added. *)
Lemma execLoop_spec re :
  captures re = true → 0 < minLength re →
  ∀ fuel bef aft criteria,
    length aft < fuel →
    ∃ new,
      execLoop fuel re bef aft criteria = Returns (criteria ++ new)
      ∧ occursInOrder new aft
      ∧ Forall wellFormed new
      ∧ (NoDup criteria → NoDup (criteria ++ new))
      ∧ ((∀ skipped w rest c', aft = skipped ++ w ++ rest →
            ¬ lang lineFlags re (rev skipped ++ bef) w rest None c') → new = []).
Proof.
  intros Hcap Hmin. induction fuel as [|fuel IH]; intros bef aft criteria Hfuel; [lia|].
  simpl. destruct (search lineFlags re bef aft) as [s|] eqn:Hs.
  - apply search_sound in Hs as (skipped & w & Haft & Hbef & Hl).
    pose proof (lang_minLength _ _ _ _ _ _ _ Hl) as Hlen.
    destruct (lang_captures _ _ Hcap _ _ _ _ _ Hl) as (m & Hm & Hmw).
    rewrite Hm.
    assert (Hshort : length (after s) < fuel).
    { rewrite Haft, !length_app in Hfuel. lia. }
    destruct (IH (before s) (after s) (push criteria m) Hshort)
      as (new & -> & Hord & Hwf & Hnd & _).
    assert (Hrest : within (after s) aft).
    { exists (skipped ++ w), []. by rewrite Haft, app_nil_r, <- app_assoc. }
    destruct (push_cases criteria m) as [Hp|(Hp & Hne & Hnew)]; rewrite Hp in *.
    + exists new. split; [done|]. split; [by eapply occursInOrder_within|].
      split; [done|]. split; [done|].
      intros Hno. by destruct (Hno skipped w (after s) (capture s)).
    + exists (trim m :: new). rewrite <- app_assoc. split; [done|]. split.
      * destruct Hmw as (a & b & ->). destruct (trim_within m) as (x & y & Hxy).
        exists (skipped ++ a ++ x), (y ++ b ++ after s). split.
        -- rewrite Haft. rewrite Hxy at 1. by rewrite <- !app_assoc.
        -- by apply occursInOrder_app_l, occursInOrder_app_l.
      * split; [constructor; [split; [done|apply trim_trim]|done]|].
        split.
        -- intros Hndc.
           replace (criteria ++ trim m :: new) with ((criteria ++ [trim m]) ++ new)
             by (by rewrite <- app_assoc).
           apply Hnd.
           apply NoDup_app. split; [done|]. split; [|apply NoDup_singleton].
           intros z Hz ->%list_elem_of_singleton. done.
        -- intros Hno. by destruct (Hno skipped w (after s) (capture s)).
  - exists []. rewrite app_nil_r. by repeat split.
Qed.

(** More fuel than that changes nothing. *)
Lemma execLoop_enough re :
  captures re = true → 0 < minLength re →
  ∀ fuel fuel' bef aft criteria,
    length aft < fuel → length aft < fuel' →
    execLoop fuel re bef aft criteria = execLoop fuel' re bef aft criteria.
Proof.
  intros Hcap Hmin. induction fuel as [|fuel IH]; intros [|fuel'] bef aft criteria H H';
    [lia|lia|lia|].
  simpl. destruct (search lineFlags re bef aft) as [s|] eqn:Hs; [|done].
  apply search_sound in Hs as (skipped & w & Haft & Hbef & Hl).
  pose proof (lang_minLength _ _ _ _ _ _ _ Hl) as Hlen.
  destruct (capture s); [|done].
  rewrite Haft, !length_app in H, H'. apply IH; lia.
Qed.

Lemma scan_spec re text criteria :
  captures re = true → 0 < minLength re →
  ∃ new,
    scan re text criteria = Returns (criteria ++ new)
    ∧ occursInOrder new text
    ∧ Forall wellFormed new
    ∧ (NoDup criteria → NoDup (criteria ++ new))
    ∧ ((∀ skipped w rest c', text = skipped ++ w ++ rest →
          ¬ lang lineFlags re (rev skipped) w rest None c') → new = []).
Proof.
  intros Hcap Hmin. unfold scan.
  destruct (execLoop_spec re Hcap Hmin (S (length text)) [] text criteria ltac:(lia))
    as (new & H1 & H2 & H3 & H4 & H5).
  exists new. repeat split; try done.
  intros Hno. apply H5. intros skipped w rest c'. rewrite app_nil_r. apply Hno.
Qed.

(** ** The section, seen from the loops *)

(** The body stands after a line feed, and what follows it is nothing or
    begins with a line feed. *)
Lemma acSection_frame description body :
  acSectionMatch description = Some (Some body) →
  ∃ p q, description = (p ++ [10%N]) ++ body ++ q ∧ (q = [] ∨ ∃ q', q = 10%N :: q').
Proof.
  unfold acSectionMatch. intros Hm.
  destruct (search acSectionFlags acSectionRegex [] description) as [s|] eqn:Hs; [|done].
  simpl in Hm. injection Hm as Hcap.
  apply search_found in Hs as (skipped & rest & -> & Hs & _).
  rewrite app_nil_r, acSectionRegex_split in Hs.
  apply matcher_sound in Hs as (w & aft1 & c1 & Hrest & _ & Hs).
  simpl in Hrest. subst rest.
  unfold spaces in Hs. rewrite matcher_Rep in Hs. simpl in Hs.
  apply rep_sound in Hs as (w3 & aft2 & -> & _ & _ & _ & Hs).
  unfold nl in Hs. rewrite matcher_Atom in Hs. simpl in Hs.
  destruct aft2 as [|y aft3]; [done|].
  destruct (sameChar acSectionFlags 10 y) eqn:Hy; [|done].
  apply sameChar_other in Hy; [|lia]. subst y.
  rewrite matcher_Group in Hs. unfold acBody in Hs. rewrite matcher_Rep in Hs.
  simpl in Hs.
  apply rep_sound in Hs as (body' & q & -> & _ & _ & _ & Hs).
  rewrite matcher_Look in Hs.
  destruct (matcher acSectionFlags acLook _ _) as [[]|] eqn:Hlook; [|done].
  injection Hs as <-. simpl in Hcap. injection Hcap as <-.
  rewrite length_app.
  replace (length body' + length q - length q) with (length body') by lia.
  rewrite take_app_length.
  apply matcher_sound in Hlook as (u & v & c2 & Hq & Hlook & _). simpl in Hq.
  apply lang_acLook in Hlook. rewrite <- Hq in Hlook.
  exists (skipped ++ w ++ w3), q. split; [by rewrite <- !app_assoc|].
  destruct Hlook as [->|[(k & x & rest & _ & _ & ->)|(rest & ->)]]; eauto.
Qed.

Lemma acSectionMatch_cases description :
  acSectionMatch description = None
  ∨ ∃ body p q,
      acSectionMatch description = Some (Some body)
      ∧ description = (p ++ [10%N]) ++ body ++ q
      ∧ (q = [] ∨ ∃ q', q = 10%N :: q').
Proof.
  destruct (acSectionMatch description) as [[body|]|] eqn:Hm; [|exfalso|by left].
  - right. destruct (acSection_frame _ _ Hm) as (p & q & Hd & Hq). by exists body, p, q.
  - unfold acSectionMatch in Hm.
    destruct (search acSectionFlags acSectionRegex [] description) as [s|] eqn:Hs; [|done].
    apply search_sound in Hs as (skipped & w & _ & _ & Hl).
    apply lang_captures in Hl as (m & Hcap & _); [|done].
    simpl in Hm. congruence.
Qed.

Lemma patternFree_within description p body q :
  patternFree description →
  description = (p ++ [10%N]) ++ body ++ q →
  (q = [] ∨ ∃ q', q = 10%N :: q') →
  ∀ re, re ∈ [checkboxRegex; numberedRegex; bulletRegex] →
  ∀ skipped w rest c',
    body = skipped ++ w ++ rest →
    ¬ lang lineFlags re (rev skipped) w rest None c'.
Proof.
  intros Hfree -> Hq re Hre skipped w rest c' -> Hl.
  apply (Hfree re ((p ++ [10%N]) ++ skipped) w (rest ++ q) c' Hre).
  { by rewrite <- !app_assoc. }
  eapply (lang_context lineFlags re); [| | |exact Hl].
  - repeat (apply elem_of_cons in Hre as [->|Hre]; [done|]).
    by apply elem_of_nil in Hre.
  - intros u. rewrite !rev_app_distr. simpl.
    destruct u as [|x u]; [|done]. simpl. by destruct (rev skipped).
  - intros v. destruct v as [|x v]; [|done]. simpl.
    destruct rest as [|x rest]; [|done]. simpl.
    by destruct Hq as [->|(q' & ->)].
Qed.

(** The three strategies, one after the other, over the text to search. *)
Lemma strategies_spec (section : bool) (text : jsstring) :
  ∃ l,
    bind (scan checkboxRegex text []) (fun criteria =>
    bind (if (length criteria =? 0)%nat
          then scan numberedRegex text criteria
          else Returns criteria) (fun criteria =>
    if (length criteria =? 0)%nat && section
    then scan bulletRegex text criteria
    else Returns criteria)) = Returns l
    ∧ occursInOrder l text
    ∧ Forall wellFormed l
    ∧ NoDup l
    ∧ ((∀ re, re ∈ [checkboxRegex; numberedRegex; bulletRegex] →
        ∀ skipped w rest c', text = skipped ++ w ++ rest →
          ¬ lang lineFlags re (rev skipped) w rest None c') → l = []).
Proof.
  destruct (scan_spec checkboxRegex text [] eq_refl ltac:(simpl; lia))
    as (l1 & H1 & Ho1 & Hw1 & Hn1 & He1).
  destruct (scan_spec numberedRegex text [] eq_refl ltac:(simpl; lia))
    as (l2 & H2 & Ho2 & Hw2 & Hn2 & He2).
  destruct (scan_spec bulletRegex text [] eq_refl ltac:(simpl; lia))
    as (l3 & H3 & Ho3 & Hw3 & Hn3 & He3).
  change ([] ++ l1) with l1 in *. change ([] ++ l2) with l2 in *.
  change ([] ++ l3) with l3 in *.
  rewrite H1. cbn [bind].
  destruct l1 as [|e1 l1]; cbn [length Nat.eqb andb bind].
  - rewrite H2. cbn [bind]. destruct l2 as [|e2 l2]; cbn [length Nat.eqb andb bind].
    + destruct section.
      * exists l3. split; [done|]. split; [done|]. split; [done|].
        split; [by apply Hn3, NoDup_nil|].
        intros Hno. apply He3. apply Hno. do 2 right. left.
      * exists []. by repeat split; try constructor.
    + exists (e2 :: l2). split; [done|]. split; [done|]. split; [done|].
      split; [by apply Hn2, NoDup_nil|].
      intros Hno. apply He2. apply Hno. right. left.
  - exists (e1 :: l1). split; [done|]. split; [done|]. split; [done|].
    split; [by apply Hn1, NoDup_nil|].
    intros Hno. apply He1. apply Hno. left.
Qed.

(** ** The loops and the rule of the specification *)

Lemma filter_all {A} (P : A → Prop) `{∀ x, Decision (P x)} (l : list A) :
  (∀ x, P x) → filter P l = l.
Proof.
  intros HP. induction l as [|x l IH]; [done|]. by rewrite filter_cons_True, IH.
Qed.

(** The loop keeps, of the texts it is given, the non-empty trimmed ones
    that it has not yet: the first of equal ones. *)
Lemma foldl_push matches : ∀ criteria,
  foldl push criteria matches
  = criteria ++ filter (fun c => c ∉ criteria)
                  (firstOccurrences (filter (fun c => c ≠ []) (trim <$> matches))).
Proof.
  induction matches as [|m matches IH]; intros criteria; simpl.
  - by rewrite app_nil_r.
  - rewrite IH. unfold push, includes.
    set (K := firstOccurrences (filter (fun c => c ≠ []) (trim <$> matches))).
    rewrite filter_cons. destruct (decide (trim m ≠ [])) as [Hne|Heq].
    + rewrite bool_decide_eq_false_2 by done. simpl.
      fold K. rewrite filter_cons.
      destruct (decide (trim m ∉ criteria)) as [Hnew|Hold].
      * rewrite bool_decide_eq_false_2 by done. simpl.
        rewrite <- app_assoc. simpl. do 2 f_equal.
        rewrite list_filter_filter. apply list_filter_iff.
        intros c. rewrite elem_of_app, list_elem_of_singleton. naive_solver.
      * apply dec_stable in Hold. rewrite bool_decide_eq_true_2 by done. simpl.
        f_equal. symmetry. apply list_filter_filter_l. by intros c Hc ->.
    + apply dec_stable in Heq. rewrite bool_decide_eq_true_2 by done. simpl. done.
Qed.

(** A loop over a pattern that always takes a code unit and always goes
    through the group pushes the texts captured, one after the other. *)
Lemma execLoop_captured re :
  captures re = true → 0 < minLength re →
  ∀ fuel bef aft criteria,
    length aft < fuel →
    execLoop fuel re bef aft criteria
    = Returns (foldl push criteria (capturedFrom fuel re bef aft)).
Proof.
  intros Hcap Hmin. induction fuel as [|fuel IH]; intros bef aft criteria Hfuel; [lia|].
  simpl. destruct (search lineFlags re bef aft) as [s|] eqn:Hs; [|done].
  apply search_sound in Hs as (skipped & w & Haft & Hbef & Hl).
  pose proof (lang_minLength _ _ _ _ _ _ _ Hl) as Hlen.
  destruct (lang_captures _ _ Hcap _ _ _ _ _ Hl) as (m & Hm & Hmw).
  rewrite Hm. simpl. apply IH. rewrite Haft, !length_app in Hfuel. lia.
Qed.

Lemma scan_collected re text :
  captures re = true → 0 < minLength re →
  scan re text [] = Returns (collected re text).
Proof.
  intros Hcap Hmin. unfold scan, collected, captured.
  rewrite (execLoop_captured re Hcap Hmin) by lia. rewrite foldl_push. simpl.
  f_equal. apply filter_all. intros c. apply not_elem_of_nil.
Qed.

Lemma strategies_collected (section : bool) (text : jsstring) :
  bind (scan checkboxRegex text []) (fun criteria =>
  bind (if (length criteria =? 0)%nat
        then scan numberedRegex text criteria
        else Returns criteria) (fun criteria =>
  if (length criteria =? 0)%nat && section
  then scan bulletRegex text criteria
  else Returns criteria)) = Returns (strategiesSpec section text).
Proof.
  unfold strategiesSpec.
  rewrite (scan_collected checkboxRegex text eq_refl ltac:(simpl; lia)). cbn [bind].
  destruct (collected checkboxRegex text) as [|box boxes]; cbn [length Nat.eqb andb bind];
    [|done].
  rewrite (scan_collected numberedRegex text eq_refl ltac:(simpl; lia)). cbn [bind].
  destruct (collected numberedRegex text) as [|item items]; cbn [length Nat.eqb andb bind];
    [|done].
  destruct section; [|done].
  apply (scan_collected bulletRegex text eq_refl ltac:(simpl; lia)).
Qed.

(** The extractor returns the list of the specification. *)
Lemma extract_criteriaListSpec (d : description) :
  extractAcceptanceCriteria d = Returns (criteriaListSpec d).
Proof.
  destruct d as [| |[|x description]]; try done.
  set (text := x :: description).
  change (extractAcceptanceCriteria (Text text))
    with (bind (textToSearch text) (fun textToSearch =>
          bind (scan checkboxRegex textToSearch []) (fun criteria =>
          bind (if (length criteria =? 0)%nat
                then scan numberedRegex textToSearch criteria
                else Returns criteria) (fun criteria =>
          if (length criteria =? 0)%nat && bool_decide (is_Some (acSectionMatch text))
          then scan bulletRegex textToSearch criteria
          else Returns criteria)))).
  change (criteriaListSpec (Text text))
    with (match mjoin (acSectionMatch text) with
          | Some body => strategiesSpec true body
          | None => strategiesSpec false text
          end).
  unfold textToSearch.
  destruct (acSectionMatch_cases text) as [Hm|(body & p & q & Hm & Htext & Hq)];
    rewrite Hm; cbn [bind mjoin option_join].
  - apply (strategies_collected false).
  - apply (strategies_collected true).
Qed.

(** The first of two equal criteria is the one kept. *)
Lemma first_occurrence_wins :
  let description :=
    JS.lit "- [ ] A" ++ [10%N] ++ JS.lit "- [ ] B" ++ [10%N] ++ JS.lit "- [x] A" in
  extractAcceptanceCriteria (Text description) = Returns [JS.lit "A"; JS.lit "B"]
  ∧ firstOccurrences [JS.lit "A"; JS.lit "B"; JS.lit "A"] = [JS.lit "A"; JS.lit "B"].
Proof. vm_compute. done. Qed.

(** C6. For every description, absent ones included, the extractor
    returns a list (it neither throws nor runs for ever), and the list is
    the one the specification describes: of the texts captured on the
    matching lines of the first strategy that yields any, taken in the
    order of the lines and trimmed, the non-empty ones, each at its
    first occurrence only.  So every element is non-empty and trimmed;
    no element occurs twice; the elements occur in the description one
    after the other in the order of the list; and the list is empty when
    the description is absent or empty, or when no part of it matches
    any of the three patterns. *)
Theorem extract_wellformed (d : description) :
  ∃ l,
    extractAcceptanceCriteria d = Returns l
    ∧ l = criteriaListSpec d
    ∧ Forall wellFormed l
    ∧ NoDup l
    ∧ occursInOrder l (textOf d)
    ∧ (textOf d = [] → l = [])
    ∧ (patternFree (textOf d) → l = []).
Proof.
  cut (∃ l, extractAcceptanceCriteria d = Returns l
          ∧ Forall wellFormed l ∧ NoDup l ∧ occursInOrder l (textOf d)
          ∧ (textOf d = [] → l = []) ∧ (patternFree (textOf d) → l = [])).
  { intros (l & Hl & H). exists l. split; [done|]. split; [|done].
    rewrite extract_criteriaListSpec in Hl. by injection Hl as <-. }
  assert (Hnone : ∃ l, Returns [] = Returns l ∧ Forall wellFormed l ∧ NoDup l
                    ∧ occursInOrder l [] ∧ (@nil N = [] → l = [])
                    ∧ (patternFree [] → l = [])).
  { exists []. repeat split; by constructor. }
  destruct d as [| |[|x description]]; try exact Hnone.
  set (text := x :: description). simpl textOf. fold text.
  change (extractAcceptanceCriteria (Text text))
    with (bind (textToSearch text) (fun textToSearch =>
          bind (scan checkboxRegex textToSearch []) (fun criteria =>
          bind (if (length criteria =? 0)%nat
                then scan numberedRegex textToSearch criteria
                else Returns criteria) (fun criteria =>
          if (length criteria =? 0)%nat && bool_decide (is_Some (acSectionMatch text))
          then scan bulletRegex textToSearch criteria
          else Returns criteria)))).
  unfold textToSearch.
  destruct (acSectionMatch_cases text) as [Hm|(body & p & q & Hm & Htext & Hq)];
    rewrite Hm; cbn [bind].
  - destruct (strategies_spec (bool_decide (is_Some (@None (option jsstring)))) text)
      as (l & Hl & Ho & Hw & Hn & He).
    exists l. split; [done|]. split; [done|]. split; [done|]. split; [done|].
    split; [done|]. intros Hfree. apply He. intros re Hre skipped w rest c' Ht.
    by apply (Hfree re skipped w rest c' Hre).
  - destruct (strategies_spec (bool_decide (is_Some (Some (Some body)))) body)
      as (l & Hl & Ho & Hw & Hn & He).
    exists l. split; [done|]. split; [done|]. split; [done|].
    split; [eapply occursInOrder_within; [done|]; by exists (p ++ [10%N]), q|].
    split; [done|]. intros Hfree. apply He.
    by apply (patternFree_within text p body q).
Qed.

(** ** The check-box pattern *)

Lemma checkboxRegex_split {A} s (k : pos → option A) :
  matcher lineFlags checkboxRegex s k =
    matcher lineFlags cbPrefix s (fun s1 =>
    matcher lineFlags spaces s1 (fun s2 =>
    matcher lineFlags (Group dots) s2 (fun s3 =>
    matcher lineFlags Eol s3 k))).
Proof. reflexivity. Qed.

Lemma accepts_bullet x :
  accepts lineFlags (OneOf [45; 42]%N) x = true → x = 45%N ∨ x = 42%N.
Proof.
  cbn [accepts existsb]. rewrite orb_false_r.
  intros [H|H]%orb_true_iff; (apply sameChar_other in H; [auto|lia]).
Qed.

Lemma accepts_box x :
  accepts lineFlags (OneOf [32; 120]%N) x = true → x = 32%N ∨ x = 120%N ∨ x = 88%N.
Proof.
  cbn [accepts existsb]. rewrite orb_false_r.
  intros [H|H]%orb_true_iff.
  - apply sameChar_other in H; [auto|lia].
  - right. unfold sameChar, canonicalize in H. simpl in H.
    apply N.eqb_eq in H.
    destruct (N.leb_spec 97 x), (N.leb_spec x 122); simpl in H; lia.
Qed.

Lemma lang_cbPrefix bef w aft c c' :
  lang lineFlags cbPrefix bef w aft c c' → cbShape w ∧ c' = c.
Proof.
  intros (u0 & v0 & c0 & -> & (-> & _ & ->) & H).
  destruct H as (ws_a & v1 & c1 & -> & (Ha & _ & _ & ->) & H).
  destruct H as (u2 & v2 & c2 & -> & [(b & -> & Hb) ->] & H).
  destruct H as (ws_b & v3 & c3 & -> & (Hb' & _ & _ & ->) & H).
  destruct H as (u4 & v4 & c4 & -> & [(y & -> & Hy) ->] & H).
  destruct H as (u5 & u6 & c5 & -> & [(x & -> & Hx) ->] & [(z & -> & Hz) ->]).
  apply (sameChar_other lineFlags) in Hy; [|lia].
  apply (sameChar_other lineFlags) in Hz; [|lia]. subst.
  split; [|done]. exists ws_a, b, ws_b, x. split; [done|].
  split; [done|]. split; [by apply accepts_bullet|]. split; [done|].
  by apply accepts_box.
Qed.

Lemma lang_checkbox bef w aft c c' :
  lang lineFlags checkboxRegex bef w aft c c' →
  ∃ u ws_c cap,
    w = u ++ ws_c ++ cap ∧ cbShape u
    ∧ Forall (fun c => isSpace c = true) ws_c
    ∧ c' = Some cap.
Proof.
  intros (u0 & v0 & c0 & -> & (-> & _ & ->) & H).
  destruct H as (ws_a & v1 & c1 & -> & (Ha & _ & _ & ->) & H).
  destruct H as (u2 & v2 & c2 & -> & [(b & -> & Hb) ->] & H).
  destruct H as (ws_b & v3 & c3 & -> & (Hb' & _ & _ & ->) & H).
  destruct H as (u4 & v4 & c4 & -> & [(y & -> & Hy) ->] & H).
  destruct H as (u5 & v5 & c5 & -> & [(x & -> & Hx) ->] & H).
  destruct H as (u6 & v6 & c6 & -> & [(z & -> & Hz) ->] & H).
  destruct H as (ws_c & v7 & c7 & -> & (Hc & _ & _ & ->) & H).
  destruct H as (cap & v8 & c8 & -> & [_ ->] & (-> & _ & ->)).
  apply (sameChar_other lineFlags) in Hy; [|lia].
  apply (sameChar_other lineFlags) in Hz; [|lia]. subst.
  exists (ws_a ++ b :: ws_b ++ [91%N; x; 93%N]), ws_c, cap.
  split; [simpl; rewrite <- !app_assoc; simpl; by rewrite <- !app_assoc, app_nil_r|].
  split; [|done].
  exists ws_a, b, ws_b, x. split; [done|].
  split; [done|]. split; [by apply accepts_bullet|]. split; [done|].
  by apply accepts_box.
Qed.

(** Behind a check-box token whose captured text is blank there is only
    white space up to the end of the text: a greedy [\s*] would otherwise
    have gone on to the next visible character. *)
Lemma dots_complete bef c r2 cap0 :
  isSpace c = false →
  is_Some (matcher lineFlags (Seq (Group dots) Eol)
             {| before := bef; after := c :: r2; capture := cap0 |} Some).
Proof.
  intros Hc.
  destruct (span_line lineFlags r2 eq_refl) as (u & v & -> & Hu & Hv).
  apply (matcher_complete lineFlags _ _ _ _ (c :: u) v (Some (c :: u))); simpl; [done| |done].
  exists (c :: u), [], (Some (c :: u)). split; [by rewrite app_nil_r|]. split.
  - split; [|done]. exists cap0. split; [|split; [simpl; lia|done]].
    constructor.
    + simpl. destruct (isLineTerminator c) eqn:E; [|done].
      apply isLineTerminator_isSpace in E. congruence.
    + eapply Forall_impl; [done|]. simpl. by intros x ->.
  - done.
Qed.

Lemma bullet_not_in_token b x1 ws_b ws :
  (b = 45%N ∨ b = 42%N) →
  (x1 = 32%N ∨ x1 = 120%N ∨ x1 = 88%N) →
  Forall (fun c => isSpace c = true) ws_b →
  Forall (fun c => isSpace c = true) ws →
  b ∉ ws_b ++ [91%N; x1; 93%N] ++ ws.
Proof.
  intros Hb Hx Hws_b Hws Hin.
  assert (Hnb : isSpace b = false) by (by destruct Hb as [-> | ->]).
  rewrite Forall_forall in Hws_b. rewrite Forall_forall in Hws.
  apply elem_of_app in Hin as [Hin|Hin]; [apply Hws_b in Hin; congruence|].
  apply elem_of_app in Hin as [Hin|Hin]; [|apply Hws in Hin; congruence].
  repeat (apply elem_of_cons in Hin as [Hin|Hin];
          [destruct Hb as [-> | ->], Hx as [-> |[-> | ->]]; done|]).
  by apply elem_of_nil in Hin.
Qed.

Lemma first_checkbox_not_blank text s :
  hasCheckboxLine text →
  search lineFlags checkboxRegex [] text = Some s →
  ∃ m1, capture s = Some m1 ∧ trim m1 ≠ [].
Proof.
  intros (p & wL & q & m & Htext & HL & Hm) Hs.
  assert (Hp : is_Some (matcher lineFlags checkboxRegex
                 {| before := rev p; after := wL ++ q; capture := None |} Some)).
  { by apply (matcher_complete lineFlags _ _ _ _ wL q (Some m)). }
  apply search_found in Hs as (skipped & rest & Hrest & Hs & Hleft).
  rewrite app_nil_r in Hs.
  assert (Hd : ∃ d, rest = d ++ wL ++ q).
  { rewrite Htext in Hrest. apply app_eq_inv in Hrest as [(d & -> & Hr)|(d & -> & Hr)].
    - by exists d.
    - destruct d as [|x d]; [by exists []|]. exfalso.
      specialize (Hleft p (x :: d) eq_refl ltac:(done)).
      rewrite app_nil_r, <- Hr in Hleft. rewrite Hleft in Hp. by destruct Hp. }
  destruct Hd as (d & Hd). clear Hleft Hp Hrest Htext.
  rewrite checkboxRegex_split in Hs.
  apply matcher_sound in Hs as (u & aft1 & c1 & Hrest & Hu & Hs).
  simpl in Hrest. apply lang_cbPrefix in Hu as [Hu ->].
  unfold spaces in Hs. rewrite matcher_Rep in Hs. simpl in Hs.
  apply rep_greedy_last in Hs as (ws_c & aft2 & -> & Hws_c & _ & _ & Hs & Hlast).
  rewrite matcher_Group in Hs. unfold dots in Hs. rewrite matcher_Rep in Hs. simpl in Hs.
  apply rep_sound in Hs as (cap & aft3 & -> & Hcap & Hlen & _ & Hs).
  rewrite matcher_Eol in Hs. simpl in Hs.
  destruct (atEol lineFlags aft3); [|done]. injection Hs as <-. simpl.
  rewrite length_app.
  replace (length cap + length aft3 - length aft3) with (length cap) by lia.
  rewrite take_app_length.
  exists cap. split; [done|]. intros Hblank. apply trim_nil in Hblank.
  assert (Htail : Forall (fun c => isSpace c = true) aft3).
  { destruct (first_nonspace aft3) as [Hall|(r1 & c & r2 & -> & Hr1 & Hc)]; [done|exfalso].
    assert (Hne : cap ++ r1 ≠ []) by (destruct cap; [simpl in Hlen; lia|done]).
    specialize (Hlast (cap ++ r1) (c :: r2) Hne ltac:(by rewrite <- app_assoc)
                  ltac:(by apply Forall_app) ltac:(done)).
    match type of Hlast with
    | matcher _ _ {| before := ?bef; after := _; capture := ?c0 |} _ = None =>
        pose proof (dots_complete bef c r2 c0 Hc) as [x Hx]
    end.
    pose proof (eq_trans (eq_sym Hlast) Hx) as Hno. discriminate Hno. }
  apply Hm. apply trim_spaces.
  apply lang_checkbox in HL as (uL & ws3 & m' & -> & HuL & Hws3 & [= <-]).
  destruct Hu as (ws_a & b1 & ws_b & x1 & -> & Hws_a & Hb1 & Hws_b & Hx1).
  destruct HuL as (ws1 & b & ws2 & x & -> & Hws1 & Hb & Hws2 & Hx).
  set (WS := ws_c ++ cap ++ aft3) in *.
  assert (HWS : Forall (fun c => isSpace c = true) WS).
  { apply Forall_app. split; [done|]. apply Forall_app. by split. }
  assert (Hnb1 : isSpace b1 = false) by (by destruct Hb1 as [-> | ->]).
  assert (Hnb : isSpace b = false) by (by destruct Hb as [-> | ->]).
  assert (Heq : trimStart rest = b1 :: ws_b ++ [91%N; x1; 93%N] ++ WS).
  { rewrite Hrest. rewrite <- !app_assoc. simpl. rewrite trimStart_at by done.
    by rewrite <- !app_assoc. }
  assert (Hrest' : rest = (d ++ ws1) ++ b :: ws2 ++ [91%N; x; 93%N] ++ ws3 ++ m ++ q).
  { rewrite Hd. rewrite <- !app_assoc. simpl. by rewrite <- !app_assoc. }
  destruct (first_nonspace (d ++ ws1)) as [HD|(d1 & c & d2 & HD & Hd1 & Hc)].
  - rewrite Hrest', trimStart_at in Heq by done. injection Heq as <- Heq.
    apply (f_equal trimStart) in Heq.
    rewrite !trimStart_at in Heq by done. injection Heq as <- Heq.
    rewrite <- Heq in HWS. apply Forall_app in HWS as [_ HWS].
    by apply Forall_app in HWS as [HWS _].
  - exfalso. rewrite Hrest', HD, <- app_assoc in Heq. simpl in Heq.
    rewrite trimStart_at in Heq by done. injection Heq as _ Heq.
    apply (bullet_not_in_token b x1 ws_b WS Hb Hx1 Hws_b HWS).
    simpl. rewrite <- Heq. apply elem_of_app. right. left.
Qed.

(** What the search engine finds is a match in the sense of [lang]. *)
Lemma search_hasCheckboxLine text s m :
  search lineFlags checkboxRegex [] text = Some s →
  capture s = Some m → trim m ≠ [] →
  hasCheckboxLine text.
Proof.
  intros Hs Hcap Hm.
  apply search_sound in Hs as (skipped & w & Haft & _ & Hl).
  exists skipped, w, (after s), m. rewrite app_nil_r, Hcap in Hl. done.
Qed.

Lemma scan_checkbox_nonempty text :
  hasCheckboxLine text →
  ∃ cb, scan checkboxRegex text [] = Returns cb ∧ cb ≠ [].
Proof.
  intros Hline.
  assert (Hfound : is_Some (search lineFlags checkboxRegex [] text)).
  { destruct Hline as (p & wL & q & m & -> & HL & _).
    apply search_complete. rewrite app_nil_r.
    by apply (matcher_complete lineFlags _ _ _ _ wL q (Some m)). }
  destruct Hfound as [s Hs].
  destruct (first_checkbox_not_blank text s Hline Hs) as (m1 & Hcap & Hm1).
  unfold scan. cbn [execLoop]. rewrite Hs, Hcap.
  assert (Hpush : push [] m1 = [trim m1]).
  { unfold push, includes. rewrite bool_decide_eq_false_2 by done.
    rewrite bool_decide_eq_false_2 by apply not_elem_of_nil. done. }
  rewrite Hpush.
  apply search_sound in Hs as (skipped & w & Haft & _ & Hl).
  apply lang_minLength in Hl. simpl in Hl.
  destruct (execLoop_spec checkboxRegex eq_refl ltac:(simpl; lia) (length text)
              (before s) (after s) [trim m1]) as (new & -> & _).
  { rewrite Haft, !length_app. lia. }
  by exists ([trim m1] ++ new).
Qed.

(** C8. When the text to search (the body of the section if there is
    one, else the whole description) holds a check-box line whose text
    is not blank, the extractor returns exactly what the check-box loop
    collects, which is not empty: the numbered and the bullet loop add
    nothing. *)
Theorem checkbox_precedence (description text : jsstring) :
  description ≠ [] →
  textToSearch description = Returns text →
  hasCheckboxLine text →
  ∃ cb,
    scan checkboxRegex text [] = Returns cb
    ∧ cb ≠ []
    ∧ extractAcceptanceCriteria (Text description) = Returns cb.
Proof.
  intros Hne Htext Hline.
  destruct (scan_checkbox_nonempty text Hline) as (cb & Hscan & Hcb).
  exists cb. split; [done|]. split; [done|].
  destruct description as [|x description]; [done|].
  set (d := x :: description) in *.
  change (extractAcceptanceCriteria (Text d))
    with (bind (textToSearch d) (fun textToSearch =>
          bind (scan checkboxRegex textToSearch []) (fun criteria =>
          bind (if (length criteria =? 0)%nat
                then scan numberedRegex textToSearch criteria
                else Returns criteria) (fun criteria =>
          if (length criteria =? 0)%nat && bool_decide (is_Some (acSectionMatch d))
          then scan bulletRegex textToSearch criteria
          else Returns criteria)))).
  rewrite Htext. cbn [bind]. rewrite Hscan. cbn [bind].
  destruct cb as [|e cb]; [done|]. done.
Qed.

Lemma checkbox_precedence_witness :
  let description :=
    JS.lines ["Intro"; "## Acceptance Criteria"; "- [ ] A"; "1. second"; "- third"]%string in
  let text := JS.lines ["- [ ] A"; "1. second"; "- third"]%string in
  ∃ cb,
    scan checkboxRegex text [] = Returns cb
    ∧ cb ≠ []
    ∧ extractAcceptanceCriteria (Text description) = Returns cb.
Proof.
  intros description text.
  apply (checkbox_precedence description text).
  - done.
  - vm_compute. reflexivity.
  - apply (search_hasCheckboxLine text
             (default {| before := []; after := []; capture := None |}
                (search lineFlags checkboxRegex [] text))
             (JS.lit "A")); vm_compute; [reflexivity|reflexivity|discriminate].
Defined.

(** C10. In the section "## Acceptance Criteria" with the single line
    "- [ ]", the check-box pattern does not match, the numbered pattern
    does not match, and the bullet pattern captures the token: the
    extractor returns ["[ ]"]. *)
Theorem bare_checkbox_is_a_bullet :
  let description := JS.lines ["## Acceptance Criteria"; "- [ ]"]%string in
  textToSearch description = Returns (JS.lit "- [ ]")
  ∧ search lineFlags checkboxRegex [] (JS.lit "- [ ]") = None
  ∧ scan checkboxRegex (JS.lit "- [ ]") [] = Returns []
  ∧ scan numberedRegex (JS.lit "- [ ]") [] = Returns []
  ∧ scan bulletRegex (JS.lit "- [ ]") [] = Returns [JS.lit "[ ]"]
  ∧ extractAcceptanceCriteria (Text description) = Returns [JS.lit "[ ]"].
Proof. vm_compute. by repeat split. Qed.

(** C7 as stated fails twice.  A heading of two [#] ends a section opened
    by a heading of one [#]; and blank lines behind the heading are
    skipped, so that three of them do not make an empty section. *)
Lemma section_ends_at_deeper_heading :
  let rest := JS.lines ["- [ ] A"; "## Notes"; "- [ ] B"]%string in
  let description := JS.lit "# Acceptance Criteria" ++ 10%N :: rest in
  let rest' := JS.lines [""; ""; ""; "- [ ] A"]%string in
  let description' := JS.lit "## Acceptance Criteria" ++ 10%N :: rest' in
  (sectionBodySpec 1 rest = rest
   ∧ acSectionMatch description = Some (Some (JS.lit "- [ ] A"))
   ∧ acSectionMatch description ≠ Some (Some (sectionBodySpec 1 rest))
   ∧ extractAcceptanceCriteria (Text description) = Returns [JS.lit "A"])
  ∧ (sectionBodySpec 2 rest' = []
     ∧ acSectionMatch description' = Some (Some (JS.lit "- [ ] A"))
     ∧ acSectionMatch description' ≠ Some (Some (sectionBodySpec 2 rest'))
     ∧ extractAcceptanceCriteria (Text description') = Returns [JS.lit "A"]).
Proof. vm_compute. repeat split; congruence. Qed.

Lemma acSection_body_witness :
  let description :=
    JS.lines ["Intro"; "## Acceptance Criteria"; ""; "- [ ] A"; "#### deep"; "- [ ] B";
              "# Next"; "- [ ] C"]%string in
  let body := JS.lines ["- [ ] A"; "#### deep"; "- [ ] B"]%string in
  ∃ p0 hd w3 q,
    description = p0 ++ hd ++ w3 ++ [10%N] ++ body ++ q
    ∧ (p0 = [] ∨ ∃ p', p0 = p' ++ [10%N])
    ∧ isAcHeading hd
    ∧ Forall (fun x => isSpace x = true) w3
    ∧ (∀ ws rest, Forall (fun x => isSpace x = true) ws → body ++ q ≠ ws ++ 10%N :: rest)
    ∧ sectionEnd q
    ∧ (∀ b1 b2, body = b1 ++ b2 → b2 ≠ [] → ¬ sectionEnd (b2 ++ q))
    ∧ (∀ k rest, 4 ≤ k → ¬ sectionEnd (10%N :: replicate k 35%N ++ rest)).
Proof.
  intros description body.
  apply (acSection_body description body). vm_compute. reflexivity.
Defined.

End LinearFacts.

(* ===================================================================== *)
(** * Properties of the duplicate-run guard *)
(* ===================================================================== *)

Section WebhookFacts.
Import JS Queue Webhooks.

Lemma postLinear_accepts issueId now s :
  issueTests s !! issueId = Some Completed ∨ issueTests s !! issueId = None →
  ∃ s' queuedMessage position running maxConcurrent,
    postLinear issueId now s
      = (s', Accepted queuedMessage issueId position running maxConcurrent)
    ∧ testQueue s' = (enqueue issueId now (testQueue s)).1
    ∧ (issueTests s' !! issueId = Some Queued ∨ issueTests s' !! issueId = Some Running).
Proof.
  intros Hrec. unfold postLinear, enqueue, getStatus.
  destruct (processQueue now (pushTask issueId now (testQueue s))) as [w startedTask] eqn:Hp.
  assert (Hst : <[issueId := Queued]> (issueTests s) !! issueId = Some Queued
                → taskStarts startedTask (<[issueId := Queued]> (issueTests s)) !! issueId
                    = Some Queued
                  ∨ taskStarts startedTask (<[issueId := Queued]> (issueTests s)) !! issueId
                    = Some Running).
  { intros Hq. destruct startedTask as [t|]; simpl; [|by left].
    destruct (decide (id t = issueId)) as [->|Hne].
    - right. apply lookup_insert_eq.
    - left. by rewrite lookup_insert_ne. }
  specialize (Hst (lookup_insert_eq _ _ _)).
  destruct Hrec as [-> | ->]; simpl; eauto 10.
Qed.

(** C9. A request for a ticket whose record exists with a status other
    than "completed" is answered with a conflict that carries that
    status, which is "queued" or "running", and leaves the table, the
    queue and the timers as they were: nothing is submitted.  A request
    for a ticket whose record is "completed", or that has no record, is
    accepted: its task is handed to [enqueue] and its record is set to
    "queued" (or "running" already, when the queue starts it at once). *)
Theorem dedup_by_ticket (s : server) (issueId : jsstring) (now : Z) :
  (∀ st, issueTests s !! issueId = Some st → st ≠ Completed →
     postLinear issueId now s = (s, Conflict st issueId)
     ∧ (st = Queued ∨ st = Running))
  ∧ (issueTests s !! issueId = Some Completed ∨ issueTests s !! issueId = None →
     ∃ s' queuedMessage position running maxConcurrent,
       postLinear issueId now s
         = (s', Accepted queuedMessage issueId position running maxConcurrent)
       ∧ testQueue s' = (enqueue issueId now (testQueue s)).1
       ∧ (issueTests s' !! issueId = Some Queued
          ∨ issueTests s' !! issueId = Some Running)).
Proof.
  split; [|apply postLinear_accepts].
  intros st Hrec Hst. unfold postLinear. rewrite Hrec.
  rewrite bool_decide_eq_true_2 by done. split; [done|].
  destruct st; auto. done.
Qed.

(** The scenario of the specification: a second request while the first
    run is under way is a conflict; once the run has ended the ticket is
    accepted again, before the clean-up timer fires as well as after. *)
Lemma dedup_by_ticket_witness :
  let T1 := lit "T1" in
  let s1 := (postLinear T1 1 (start 3)).1 in
  let s2 := default s1 (workEnds 0 (Threw (JError (lit "boom"))) 5 s1) in
  let s3 := default s2 (timerFires 0 s2) in
  (postLinear T1 2 s1 = (s1, Conflict Running T1) ∧ (Running = Queued ∨ Running = Running))
  ∧ (∃ s' queuedMessage position running maxConcurrent,
       postLinear T1 6 s2
         = (s', Accepted queuedMessage T1 position running maxConcurrent)
       ∧ testQueue s' = (enqueue T1 6 (testQueue s2)).1
       ∧ (issueTests s' !! T1 = Some Queued ∨ issueTests s' !! T1 = Some Running))
  ∧ (∃ s' queuedMessage position running maxConcurrent,
       postLinear T1 7 s3
         = (s', Accepted queuedMessage T1 position running maxConcurrent)
       ∧ testQueue s' = (enqueue T1 7 (testQueue s3)).1
       ∧ (issueTests s' !! T1 = Some Queued ∨ issueTests s' !! T1 = Some Running)).
Proof.
  intros T1 s1 s2 s3. split; [|split].
  - apply (proj1 (dedup_by_ticket s1 T1 2) Running); [vm_compute; reflexivity|done].
  - apply (proj2 (dedup_by_ticket s2 T1 6)). left. vm_compute. reflexivity.
  - apply (proj2 (dedup_by_ticket s3 T1 7)). right. vm_compute. reflexivity.
Defined.

End WebhookFacts.

(* ===================================================================== *)
(** * TestQueue: what its callers can rely on *)
(* ===================================================================== *)

Section QueueObservers.
Import JS Queue QueueState.

Lemma distinct_new N : distinct (new N).
Proof. split; simpl; [constructor|set_solver|done]. Qed.

Lemma distinct_reached N es w :
  NoDup (submitted es) → run (new N) es = Some w → distinct w.
Proof. intros Hnd Hrun. eapply (distinct_run es (new N)); [apply distinct_new|done|done]. Qed.

Lemma run_snoc w es e w' :
  run w (es ++ [e]) = Some w' ↔ ∃ w1, run w es = Some w1 ∧ step w1 e = Some w'.
Proof.
  rewrite run_app. destruct (run w es) as [w1|]; simpl.
  - destruct (step w1 e) as [w2|] eqn:E; split.
    + intros [= <-]. by exists w1.
    + intros (? & [= <-] & Hs). by rewrite Hs in E.
    + done.
    + intros (? & [= <-] & Hs). by rewrite Hs in E.
  - split; [done|]. by intros (? & ? & _).
Qed.

Lemma submitted_snoc es e :
  submitted (es ++ [e])
  = submitted es ++ match e with Enqueue i _ => [i] | Settle _ _ _ => [] end.
Proof. unfold submitted. rewrite omap_app. simpl. by destruct e. Qed.

(** The started tasks followed by the waiting ones carry the submitted
    ids, in the order of submission. *)
Lemma arrivals_are_submissions N es : ∀ w,
  run (new N) es = Some w → id <$> (started w ++ queue (tq w)) = submitted es.
Proof.
  induction es as [|e es IH] using rev_ind; intros w.
  - by intros [= <-].
  - intros (w1 & Hrun & Hstep)%run_snoc. rewrite submitted_snoc, <- (IH _ Hrun).
    apply step_cases in Hstep as [(i & now & -> & ->)|(k & c & now & t & -> & Hk & ->)].
    + destruct (processQueue_grows now (pushTask i now w1)) as (_ & _ & ->). simpl.
      by rewrite app_assoc, fmap_app.
    + destruct (processQueue_grows now (release k t c w1)) as (_ & _ & ->). simpl.
      by rewrite app_nil_r.
Qed.

(** ** Every slot is used *)

Lemma busy_enqueue i now w : busy w → busy (processQueue now (pushTask i now w)).1.
Proof.
  intros Hb.
  destruct (processQueue_cases now (pushTask i now w))
    as [[-> [Hfull|Hq]]|(h & rest & Hq & Hlt & ->)]; simpl in *.
  - by right.
  - by destruct (queue (tq w)).
  - destruct Hb as [Hb|Hb]; [|lia]. rewrite Hb in Hq. simplify_eq/=. by left.
Qed.

Lemma busy_release k t c now w :
  busy w →
  (∀ h rest, queue (tq w) = h :: rest → delete (id t) (running (tq w)) !! id h = None) →
  busy (processQueue now (release k t c w)).1.
Proof.
  intros Hb Hfresh.
  destruct (processQueue_cases now (release k t c w))
    as [[-> [Hfull|Hq]]|(h & rest & Hq & Hlt & ->)]; simpl in *.
  - by right.
  - by left.
  - destruct Hb as [Hb|Hb]; [by rewrite Hb in Hq|].
    unfold busy. simpl. right. rewrite map_size_insert_None by eauto.
    pose proof (size_delete_le (running (tq w)) (id t)) as Hle.
    destruct (running (tq w) !! id t) eqn:E.
    + rewrite map_size_delete_Some in Hlt |- * by eauto.
      assert (0 < size (running (tq w)))%nat; [|lia].
      destruct (decide (size (running (tq w)) = 0%nat)) as [Hz|]; [|lia].
      apply map_size_empty_inv in Hz. by rewrite Hz in E.
    + rewrite delete_id in Hlt by done. lia.
Qed.

Lemma busy_settle k t c now w :
  awaiting w !! k = Some t → distinct w → busy w →
  busy (processQueue now (release k t c w)).1.
Proof.
  intros Hk Hd Hb. pose proof (distinct_release k t c w Hk Hd) as [Hids Hdom Haw].
  apply busy_release; [done|]. intros h rest Hq. simpl in *.
  apply not_elem_of_dom. rewrite Hdom. rewrite not_elem_of_list_to_set.
  intros Hin. rewrite Hq, fmap_app in Hids. apply NoDup_app in Hids as (_ & Hdisj & _).
  eapply Hdisj; [|by left].
  eapply elem_of_sublist; [done|]. by apply fmap_sublist.
Qed.

Lemma busy_reached N es : ∀ w,
  NoDup (submitted es) → run (new N) es = Some w → busy w.
Proof.
  induction es as [|e es IH] using rev_ind; intros w Hnd.
  - intros [= <-]. by left.
  - intros (w1 & Hrun & Hstep)%run_snoc.
    assert (Hnd1 : NoDup (submitted es)).
    { rewrite submitted_snoc in Hnd. by apply NoDup_app in Hnd as (? & _). }
    apply step_cases in Hstep as [(i & now & -> & ->)|(k & c & now & t & -> & Hk & ->)].
    + apply busy_enqueue; eauto.
    + apply busy_settle; eauto using distinct_reached.
Qed.

(** X1.  As long as no id is submitted twice, no task waits while a slot
    is free: whenever [getStatus] reports a task queued, it reports the
    running set at the ceiling. *)
Theorem no_task_waits_beside_free_slot (N : Z) (es : list event) (w : world) :
  NoDup (submitted es) →
  run (new N) es = Some w →
  let '(queued, running, maxConcurrent, _, _) := getStatus w in
  0 < queued → maxConcurrent ≤ running.
Proof.
  intros Hnd Hrun. simpl. intros Hq.
  destruct (busy_reached N es w Hnd Hrun) as [Hb|Hb]; [|done].
  rewrite Hb in Hq. simpl in Hq. lia.
Qed.

Lemma no_task_waits_beside_free_slot_witness :
  let es := [Enqueue (lit "a") 1; Enqueue (lit "b") 2; Enqueue (lit "c") 3;
             Settle 0 (Returned JNull) 4; Enqueue (lit "d") 5] in
  let w := default (new 2) (run (new 2) es) in
  let '(queued, running, maxConcurrent, _, _) := getStatus w in
  (0 < queued) ∧ maxConcurrent ≤ running.
Proof.
  split; [vm_compute; reflexivity|].
  apply (no_task_waits_beside_free_slot 2
           [Enqueue (lit "a") 1; Enqueue (lit "b") 2; Enqueue (lit "c") 3;
            Settle 0 (Returned JNull) 4; Enqueue (lit "d") 5]
           (default (new 2) _)).
  - apply (bool_decide_unpack _). vm_compute. exact I.
  - vm_compute. reflexivity.
  - vm_compute. reflexivity.
Defined.

(** With an id submitted twice a slot can stay free beside a waiting
    task: when the task that takes over the freed slot carries an id
    that is still in the running set, the set does not grow, and
    [processQueue] is not called again. *)
Lemma duplicate_id_idles_slot :
  let a := lit "a" in let b := lit "b" in let c := lit "c" in
  let es := [Enqueue a 1; Enqueue b 2; Enqueue a 3; Enqueue c 4;
             Settle 1 (Returned JNull) 5] in
  let w := default (new 2) (run (new 2) es) in
  id <$> queue (tq w) = [c] ∧ size (running (tq w)) = 1%nat ∧ maxConcurrent (tq w) = 2.
Proof. vm_compute. done. Qed.

(** ** The three look-ups agree *)

Lemma findIndex_isQueued i q :
  (findIndex i q = -1 ∧ existsb (fun t => bool_decide (id t = i)) q = false)
  ∨ (0 ≤ findIndex i q < Z.of_nat (length q)
     ∧ existsb (fun t => bool_decide (id t = i)) q = true).
Proof.
  induction q as [|t q IH]; simpl; [by left|].
  case_bool_decide; simpl; [right; split; [lia|done]|].
  destruct IH as [[-> ->]|[Hr ->]]; [by left|right].
  destruct (findIndex i q =? -1) eqn:E; [lia|]. split; [lia|done].
Qed.

(** X2.  [getPosition] agrees with [isRunning] and [isQueued] in every
    state of the queue: it is 0 exactly for a running id, at least 1
    exactly for an id that is queued and not running, -1 exactly for an
    id that is neither, and it never exceeds the length of the waiting
    line. *)
Theorem position_agrees_with_flags (w : world) (i : jsstring) :
  (getPosition i w = 0 ↔ isRunning i w = true)
  ∧ (1 ≤ getPosition i w ↔ isRunning i w = false ∧ isQueued i w = true)
  ∧ (getPosition i w = -1 ↔ isRunning i w = false ∧ isQueued i w = false)
  ∧ -1 ≤ getPosition i w ≤ Z.of_nat (length (queue (tq w))).
Proof.
  unfold getPosition, isQueued.
  pose proof (findIndex_isQueued i (queue (tq w))) as Hq.
  destruct (isRunning i w).
  - repeat split; try done; try lia; try (by intros []).
  - destruct Hq as [[-> ->]|[Hr ->]]; simpl.
    + repeat split; try done; try lia; try (by intros []).
    + destruct (findIndex i (queue (tq w)) =? -1) eqn:E; [lia|].
      repeat split; try done; try lia; try (by intros []).
Qed.

Lemma isQueued_elem i w : isQueued i w = true ↔ i ∈ id <$> queue (tq w).
Proof.
  unfold isQueued. rewrite existsb_exists, list_elem_of_fmap. split.
  - intros (t & Hin%list_elem_of_In & Hid%bool_decide_eq_true). by exists t.
  - intros (t & -> & Hin). exists t. split; [by apply list_elem_of_In|].
    by apply bool_decide_eq_true.
Qed.

Lemma isRunning_elem i w : isRunning i w = true ↔ i ∈ dom (running (tq w)).
Proof. unfold isRunning. by rewrite bool_decide_eq_true, elem_of_dom. Qed.

Lemma unsubmitted_absent N es w i :
  run (new N) es = Some w → i ∉ submitted es →
  running (tq w) !! i = None ∧ i ∉ id <$> queue (tq w).
Proof.
  intros Hrun Hi. eapply (absent_stays i es (new N)); [done| |done|done].
  simpl. apply not_elem_of_nil.
Qed.

(** ** The ceiling

    The running set holds ids, not tasks: its size is the number of
    tasks under way only as long as no two of them share an id. *)

Lemma flights_new N : flights (new N).
Proof. split; simpl; [constructor|set_solver]. Qed.

Lemma flights_processQueue now w : flights w → flights (processQueue now w).1.
Proof.
  intros [Hids Hdom].
  destruct (processQueue_cases now w) as [[-> _]|(h & rest & Hq & Hlt & ->)]; simpl.
  - by split.
  - split; simpl.
    + rewrite <- app_assoc. simpl. by rewrite <- Hq.
    + rewrite dom_insert_L, Hdom, fmap_app, list_to_set_app_L. simpl. set_solver.
Qed.

Lemma flights_pushTask i now w :
  inFlight i w = false → flights w → flights (pushTask i now w).
Proof.
  intros [Hr Hq]%orb_false_elim [Hids Hdom]. split; simpl; [|done].
  rewrite app_assoc, fmap_app. apply NoDup_app. split; [done|]. simpl.
  split; [|apply NoDup_singleton]. intros x Hx ->%list_elem_of_singleton.
  rewrite fmap_app, elem_of_app in Hx. destruct Hx as [Hx|Hx].
  - apply not_true_iff_false in Hr. apply Hr. rewrite isRunning_elem, Hdom. set_solver.
  - apply not_true_iff_false in Hq. apply Hq. by rewrite isQueued_elem.
Qed.

Lemma flights_release k t c w :
  awaiting w !! k = Some t → flights w → flights (release k t c w).
Proof.
  intros Hk [Hids Hdom].
  pose proof Hids as Hnd. rewrite fmap_app in Hnd. apply NoDup_app in Hnd as (Hnd & _ & _).
  split; simpl.
  - apply (sublist_NoDup _ (id <$> awaiting w ++ queue (tq w))); [done|].
    apply fmap_sublist, sublist_app; [|done]. apply sublist_delete.
  - rewrite dom_delete_L, Hdom, delete_take_drop.
    rewrite <- (take_drop_middle _ _ _ Hk) in Hnd |- * at 1.
    rewrite fmap_app, fmap_cons in Hnd.
    apply NoDup_app in Hnd as (_ & Hdisj & Hnd). apply NoDup_cons in Hnd as [Hnot _].
    rewrite !fmap_app, fmap_cons, !list_to_set_app_L, list_to_set_cons.
    assert (id t ∉ id <$> take k (awaiting w)) by (intros Hin; apply (Hdisj _ Hin); left).
    set_solver.
Qed.

Lemma flights_run es : ∀ w w',
  flights w → apart w es = true → run w es = Some w' → flights w'.
Proof.
  induction es as [|e es IH]; simpl; intros w w' Hw.
  - by intros _ [= <-].
  - destruct (step w e) as [w1|] eqn:E; [|done].
    intros [He Hes]%andb_prop. apply IH; [|done].
    apply step_cases in E as [(i & now & -> & ->)|(k & c & now & t & -> & Hk & ->)].
    + apply flights_processQueue, flights_pushTask; [|done].
      by apply negb_true_iff in He.
    + by apply flights_processQueue, flights_release.
Qed.

(** With no two tasks under way sharing an id, the running set has one
    id for each of them. *)
Lemma flights_count w : flights w → length (awaiting w) = size (running (tq w)).
Proof.
  intros [Hids Hdom].
  rewrite <- size_dom, Hdom, size_list_to_set, length_fmap; [done|].
  rewrite fmap_app in Hids. by apply NoDup_app in Hids as (? & _).
Qed.

(** A trace that submits no id twice keeps the tasks apart. *)
Lemma NoDup_apart N es2 : ∀ es1 w,
  run (new N) es1 = Some w → NoDup (submitted (es1 ++ es2)) → apart w es2 = true.
Proof.
  induction es2 as [|e es2 IH]; simpl; intros es1 w Hrun Hnd; [done|].
  apply andb_true_intro. split.
  - destruct e as [i now|]; [|done]. apply negb_true_iff, not_true_iff_false.
    intros Hin. destruct (unsubmitted_absent N es1 w i Hrun) as [Hr Hq].
    { unfold submitted in Hnd. rewrite omap_app in Hnd. simpl in Hnd.
      apply NoDup_app in Hnd as (_ & Hdisj & _). intros Hi. apply (Hdisj _ Hi). left. }
    apply orb_prop in Hin as [Hin|Hin].
    + apply isRunning_elem, elem_of_dom in Hin as [x Hx]. congruence.
    + by apply isQueued_elem in Hin.
  - destruct (step w e) as [w1|] eqn:E; [|done].
    apply (IH (es1 ++ [e])).
    + apply run_snoc. by exists w.
    + by rewrite <- app_assoc.
Qed.

(** An id submitted twice: three tasks under way with a ceiling of two,
    the third submission started at once. *)
Lemma duplicate_ids_overrun :
  let a := lit "a" in let b := lit "b" in
  let es := [Enqueue a 1; Enqueue a 2; Enqueue b 3] in
  let w := default (new 2) (run (new 2) es) in
  run (new 2) es = Some w
  ∧ length (awaiting w) = 3%nat ∧ size (running (tq w)) = 2%nat ∧ queue (tq w) = []
  ∧ ¬ (∀ N es w, 1 ≤ N → run (new N) es = Some w → Z.of_nat (length (awaiting w)) ≤ N).
Proof.
  intros a b es w.
  split; [vm_compute; reflexivity|]. split; [vm_compute; reflexivity|].
  split; [vm_compute; reflexivity|]. split; [vm_compute; reflexivity|].
  intros Hall. specialize (Hall 2 es w ltac:(lia) ltac:(vm_compute; reflexivity)).
  vm_compute in Hall. by apply Hall.
Qed.

(** C1, as the code has it.  With a ceiling [N >= 1] fixed by the
    constructor, whatever sequence of submissions and settlements the
    queue goes through, its running set never holds more than [N] ids;
    and once it holds [N], every further submission is appended to the
    waiting line and starts nothing: running set, awaited tasks and
    start log stay as they are for as long as no task settles.  The
    tasks under way are as many as the ids of the running set, and so at
    most [N], provided no id is submitted while a task with that id is
    running or queued; a sequence that submits no id twice is such. *)
Theorem running_never_exceeds_ceiling (N : Z) (es : list event) (w : world) :
  1 ≤ N →
  run (new N) es = Some w →
  Z.of_nat (size (running (tq w))) ≤ N
  ∧ (apart (new N) es = true →
     length (awaiting w) = size (running (tq w)) ∧ Z.of_nat (length (awaiting w)) ≤ N)
  ∧ (NoDup (submitted es) → apart (new N) es = true)
  ∧ (Z.of_nat (size (running (tq w))) = N →
     ∀ subs : list (jsstring * Z),
       ∃ w', run w (uncurry Enqueue <$> subs) = Some w'
         ∧ running (tq w') = running (tq w)
         ∧ awaiting w' = awaiting w
         ∧ started w' = started w
         ∧ id <$> queue (tq w') = (id <$> queue (tq w)) ++ subs.*1).
Proof.
  intros HN Hrun.
  assert (Hinv : bounded N w) by (eapply bounded_run; [apply bounded_new; lia|done]).
  split; [apply Hinv|]. split; [|split].
  - intros Hap.
    assert (Hlen : length (awaiting w) = size (running (tq w))).
    { apply flights_count. eapply flights_run; [apply flights_new|done|done]. }
    split; [done|]. rewrite Hlen. apply Hinv.
  - intros Hnd. by apply (NoDup_apart N es [] (new N)).
  - intros Hfull subs. apply enqueues_full. rewrite (bounded_max _ _ Hinv). lia.
Qed.

Lemma running_never_exceeds_ceiling_witness :
  let a := lit "a" in let b := lit "b" in let c := lit "c" in
  let es := [Enqueue a 1; Settle 0 (Returned JNull) 2; Enqueue a 3; Enqueue b 4;
             Enqueue c 5] in
  let w := default (new 2) (run (new 2) es) in
  Z.of_nat (size (running (tq w))) ≤ 2
  ∧ (apart (new 2) es = true →
     length (awaiting w) = size (running (tq w)) ∧ Z.of_nat (length (awaiting w)) ≤ 2)
  ∧ (NoDup (submitted es) → apart (new 2) es = true)
  ∧ (Z.of_nat (size (running (tq w))) = 2 →
     ∀ subs : list (jsstring * Z),
       ∃ w', run w (uncurry Enqueue <$> subs) = Some w'
         ∧ running (tq w') = running (tq w)
         ∧ awaiting w' = awaiting w
         ∧ started w' = started w
         ∧ id <$> queue (tq w') = (id <$> queue (tq w)) ++ subs.*1).
Proof.
  intros a b c es w.
  apply (running_never_exceeds_ceiling 2 es w); [lia | vm_compute; reflexivity].
Defined.

(** X3.  As long as no id is submitted twice, no id is running and
    queued at once, and every id that is running or queued has been
    submitted. *)
Theorem never_running_and_queued (N : Z) (es : list event) (w : world) (i : jsstring) :
  NoDup (submitted es) →
  run (new N) es = Some w →
  (isRunning i w = true → isQueued i w = false)
  ∧ (isRunning i w = true ∨ isQueued i w = true → i ∈ submitted es).
Proof.
  intros Hnd Hrun. pose proof (distinct_reached N es w Hnd Hrun) as [Hids Hdom Haw].
  pose proof (arrivals_are_submissions N es w Hrun) as Harr.
  assert (Hstarted : isRunning i w = true → i ∈ id <$> started w).
  { rewrite isRunning_elem, Hdom, elem_of_list_to_set. intros Hin.
    eapply elem_of_sublist; [done|]. by apply fmap_sublist. }
  split.
  - intros Hr%Hstarted. apply not_true_is_false. rewrite isQueued_elem. intros Hq.
    rewrite fmap_app in Hids. apply NoDup_app in Hids as (_ & Hdisj & _). by eapply Hdisj.
  - rewrite <- Harr, fmap_app, elem_of_app, isQueued_elem. intros [Hr|Hq]; auto.
Qed.

Lemma never_running_and_queued_witness :
  let es := [Enqueue (lit "a") 1; Enqueue (lit "b") 2] in
  let w := default (new 1) (run (new 1) es) in
  (isRunning (lit "a") w = true → isQueued (lit "a") w = false)
  ∧ (isRunning (lit "a") w = true ∨ isQueued (lit "a") w = true → lit "a" ∈ submitted es).
Proof.
  apply (never_running_and_queued 1 [Enqueue (lit "a") 1; Enqueue (lit "b") 2]
           (default (new 1) _) (lit "a")).
  - apply (bool_decide_unpack _). vm_compute. exact I.
  - vm_compute. reflexivity.
Defined.

(** ** Promises *)

Lemma elem_of_delete_other {T} (l : list T) k t x :
  l !! k = Some t → x ∈ l → x ≠ t → x ∈ delete k l.
Proof.
  intros Hk Hx Hne. rewrite <- (take_drop_middle _ _ _ Hk) in Hx.
  rewrite delete_take_drop. rewrite elem_of_app, elem_of_cons in Hx.
  rewrite elem_of_app. naive_solver.
Qed.

Lemma NoDup_fmap_eq {A B} (g : A → B) (l : list A) x y :
  NoDup (g <$> l) → x ∈ l → y ∈ l → g x = g y → x = y.
Proof.
  induction l as [|a l IH]; simpl; [by intros _ ?%elem_of_nil|].
  intros [Hnot Hnd]%NoDup_cons [->|Hx]%elem_of_cons [->|Hy]%elem_of_cons Heq; auto.
  - destruct Hnot. rewrite Heq. by apply list_elem_of_fmap_2.
  - destruct Hnot. rewrite <- Heq. by apply list_elem_of_fmap_2.
Qed.

Lemma ordered_promises w : ordered w → NoDup (promise <$> (started w ++ queue (tq w))).
Proof. intros [-> _]. apply NoDup_seq. Qed.

Lemma ordered_promise_lt w t :
  ordered w → t ∈ started w ++ queue (tq w) → (promise t < nextPromise w)%nat.
Proof.
  intros [Harr _] Hin. apply (list_elem_of_fmap_2 promise) in Hin.
  rewrite Harr, elem_of_seq in Hin. lia.
Qed.

Lemma awaiting_started w t : ordered w → t ∈ awaiting w → t ∈ started w.
Proof. intros [_ Haw] Hin. by eapply elem_of_sublist. Qed.

(** An awaited task is no other awaited or waiting task. *)
Lemma awaited_once w k t t' :
  ordered w → awaiting w !! k = Some t →
  t' ∈ delete k (awaiting w) ++ queue (tq w) → promise t' ≠ promise t.
Proof.
  intros Hord Hk Hin Heq.
  assert (Ht : t ∈ started w) by eauto using awaiting_started, list_elem_of_lookup_2.
  assert (t' = t) as ->.
  { eapply (NoDup_fmap_eq promise); [by apply ordered_promises| |by apply elem_of_app; left|done].
    apply elem_of_app in Hin as [Hin|Hin]; apply elem_of_app; [left|by right].
    eapply awaiting_started; [done|]. by eapply list_elem_of_delete_inv. }
  pose proof (ordered_NoDup w Hord) as Hnd.
  apply elem_of_app in Hin as [Hin|Hin].
  - revert Hin. apply NoDup_delete_lookup; [|done].
    eapply sublist_NoDup; [|apply Hord]. by apply NoDup_app in Hnd as (? & _).
  - apply NoDup_app in Hnd as (_ & Hdisj & _). by eapply Hdisj.
Qed.

Lemma settling_new N : settling (new N).
Proof.
  split; simpl.
  - by intros t ?%elem_of_nil.
  - intros p [s Hs]. by rewrite lookup_empty in Hs.
Qed.

Lemma settling_processQueue now w : settling w → settling (processQueue now w).1.
Proof.
  intros [Hpend Hknown].
  destruct (processQueue_cases now w) as [[-> _]|(h & rest & Hq & Hlt & ->)]; simpl.
  - by split.
  - split; simpl.
    + intros t Hin. apply Hpend. rewrite Hq. rewrite <- app_assoc in Hin. done.
    + intros p Hp. destruct (Hknown p Hp) as (t & Hin & <-). exists t.
      split; [|done]. apply elem_of_app. by left.
Qed.

Lemma settling_pushTask i now w : ordered w → settling w → settling (pushTask i now w).
Proof.
  intros Hord [Hpend Hknown]. split; simpl; [|done].
  intros t. rewrite app_assoc, elem_of_app, list_elem_of_singleton.
  intros [Hin| ->]; [by apply Hpend|]. simpl.
  destruct (promises w !! nextPromise w) eqn:E; [|done].
  destruct (Hknown (nextPromise w)) as (t & Hin & Heq); [by eauto|].
  assert (promise t < nextPromise w)%nat; [|lia].
  apply ordered_promise_lt; [done|]. apply elem_of_app. by left.
Qed.

(** What [release] does to the promises. *)
Lemma release_promises k t c w :
  promises (release k t c w)
  = match outcome c with
    | Some s => <[promise t := s]> (promises w)
    | None => promises w
    end.
Proof. done. Qed.

Lemma settling_release k t c w :
  awaiting w !! k = Some t → ordered w → settling w → settling (release k t c w).
Proof.
  intros Hk Hord [Hpend Hknown].
  assert (Hin : t ∈ awaiting w) by by eapply list_elem_of_lookup_2.
  assert (Hold : ∀ t', t' ∈ delete k (awaiting w) ++ queue (tq w) →
                       promises w !! promise t' = None).
  { intros t' Hin'. apply Hpend.
    apply elem_of_app in Hin' as [Hin'|Hin']; apply elem_of_app;
      [left; by eapply list_elem_of_delete_inv|by right]. }
  split; rewrite release_promises; simpl.
  - intros t' Hin'. destruct (outcome c); [|by apply Hold].
    rewrite lookup_insert_ne; [by apply Hold|]. by intros ?; eapply awaited_once.
  - intros p [s Hs]. destruct (outcome c); [|by eauto].
    destruct (decide (promise t = p)) as [<-|Hne].
    + exists t. split; [|done]. by eapply awaiting_started.
    + rewrite lookup_insert_ne in Hs by done. eauto.
Qed.

Lemma settling_step w e w' :
  ordered w → settling w → step w e = Some w' → settling w'.
Proof.
  intros Hord Hs [(i & now & -> & ->)|(k & c & now & t & -> & Hk & ->)]%step_cases.
  - by apply settling_processQueue, settling_pushTask.
  - by apply settling_processQueue, settling_release.
Qed.

Lemma settling_run es : ∀ w w',
  ordered w → settling w → run w es = Some w' → ordered w' ∧ settling w'.
Proof.
  induction es as [|e es IH]; simpl; intros w w' Hord Hs.
  - by intros [= <-].
  - destruct (step w e) as [w1|] eqn:E; [|done].
    apply IH; eauto using ordered_step, settling_step.
Qed.

Lemma settling_reached N es w : run (new N) es = Some w → ordered w ∧ settling w.
Proof. apply settling_run; [apply ordered_new|apply settling_new]. Qed.

(** [processQueue] settles nothing. *)
Lemma processQueue_promises now w : promises (processQueue now w).1 = promises w.
Proof. by destruct (processQueue_cases now w) as [[-> _]|(h & rest & _ & _ & ->)]. Qed.

(** A promise that is settled is left as it is by every later step. *)
Lemma settled_stays es : ∀ w w' p s,
  ordered w → settling w →
  promises w !! p = Some s → run w es = Some w' → promises w' !! p = Some s.
Proof.
  induction es as [|e es IH]; simpl; intros w w' p s Hord Hs Hp.
  - by intros [= <-].
  - destruct (step w e) as [w1|] eqn:E; [|done].
    apply IH; eauto using ordered_step, settling_step.
    apply step_cases in E as [(i & now & -> & ->)|(k & c & now & t & -> & Hk & ->)];
      rewrite processQueue_promises; [done|].
    rewrite release_promises. destruct (outcome c); [|done].
    rewrite lookup_insert_ne; [done|]. intros <-.
    rewrite (settling_pending w Hs t) in Hp; [done|].
    apply elem_of_app. left. by eapply list_elem_of_lookup_2.
Qed.


(** X4.  The queue settles a promise at most once: whatever a promise
    holds in a state reached from [new TestQueue(N)], it holds in every
    later state. *)
Theorem settled_promise_never_changes (N : Z) (es es' : list event) (w w' : world)
    (p : nat) (s : settlement) :
  run (new N) es = Some w →
  promises w !! p = Some s →
  run w es' = Some w' →
  promises w' !! p = Some s.
Proof.
  intros [Hord Hs]%settling_reached Hp Hrun. by eapply settled_stays.
Qed.

Lemma settled_promise_never_changes_witness :
  let es := [Enqueue (lit "a") 1; Enqueue (lit "b") 2; Settle 0 (Threw JNull) 3] in
  let es' := [Enqueue (lit "a") 4; Settle 0 (Returned JNull) 5; Settle 0 (Returned JNull) 6] in
  let w := default (new 1) (run (new 1) es) in
  let w' := default w (run w es') in
  promises w' !! 0%nat = Some (Rejected (JError (lit "null"))).
Proof.
  apply (settled_promise_never_changes 1
           [Enqueue (lit "a") 1; Enqueue (lit "b") 2; Settle 0 (Threw JNull) 3]
           [Enqueue (lit "a") 4; Settle 0 (Returned JNull) 5; Settle 0 (Returned JNull) 6]
           (default (new 1)
              (run (new 1)
                 [Enqueue (lit "a") 1; Enqueue (lit "b") 2; Settle 0 (Threw JNull) 3]))).
  - vm_compute. reflexivity.
  - vm_compute. reflexivity.
  - vm_compute. reflexivity.
Defined.

(** ** A task that fails *)




(** A failure that cannot be turned into a string, such as
    [Object.create(null)]: the promise of the task stays pending, while
    the id leaves the running set and the next task is started. *)
Lemma failure_without_string_is_not_reported :
  let w := default (new 1) (run (new 1) [Enqueue (lit "T1") 1; Enqueue (lit "T2") 2]) in
  let w' := default w (step w (Settle 0 (Threw (JObject None)) 3)) in
  promises w' !! 0%nat = None
  ∧ running (tq w') !! lit "T1" = None
  ∧ awaiting w' = [{| id := lit "T2"; promise := 1; queuedAt := 2 |}]
  ∧ queue (tq w') = [].
Proof. vm_compute. done. Qed.

(** ** Pending and settled *)

Lemma lost_snoc es e : lost (es ++ [e]) = (lost es + if unsettled e then 1 else 0)%nat.
Proof.
  unfold lost. rewrite List.filter_app, length_app. simpl.
  by destruct (unsettled e).
Qed.

Lemma lost_cases es e : lost (es ++ [e]) = 0%nat ↔ lost es = 0%nat ∧ unsettled e = false.
Proof. rewrite lost_snoc. destruct (unsettled e); split; try lia; by intros []. Qed.

Lemma allSettled_processQueue now w : allSettled w → allSettled (processQueue now w).1.
Proof.
  intros Hdone.
  destruct (processQueue_cases now w) as [[-> _]|(h & rest & Hq & Hlt & ->)]; [done|].
  intros t. simpl. rewrite !elem_of_app, list_elem_of_singleton. intros Hin Hnot.
  apply Hdone; naive_solver.
Qed.

Lemma allSettled_release k t c s w :
  awaiting w !! k = Some t → outcome c = Some s →
  allSettled w → allSettled (release k t c w).
Proof.
  intros Hk Hc Hdone t' Hst Hnot. rewrite release_promises, Hc. simpl in *.
  destruct (decide (promise t = promise t')) as [Heq|Hne].
  - rewrite Heq, lookup_insert_eq. eauto.
  - rewrite lookup_insert_ne by done. apply Hdone; [done|]. intros Hin'.
    apply Hnot. eapply elem_of_delete_other; [done|done|]. by intros ->.
Qed.

(** As long as every failure can be reported, every task that has ended
    has its promise settled. *)
Lemma allSettled_reached N es : ∀ w,
  run (new N) es = Some w → lost es = 0%nat → allSettled w.
Proof.
  induction es as [|e es IH] using rev_ind; intros w.
  - intros [= <-] _ t. by intros ?%elem_of_nil.
  - intros (w1 & Hrun & Hstep)%run_snoc [Hlost He]%lost_cases.
    specialize (IH w1 Hrun Hlost).
    apply step_cases in Hstep as [(i & now & -> & ->)|(k & c & now & t & -> & Hk & ->)].
    + by apply allSettled_processQueue.
    + simpl in He. destruct (outcome c) as [s|] eqn:Hc; [|done].
      by eapply allSettled_processQueue, allSettled_release.
Qed.

(** The started tasks are those under way, those whose promise is
    settled, and those that ended with their promise left pending. *)
Lemma started_accounted N es : ∀ w,
  run (new N) es = Some w →
  length (started w) = (length (awaiting w) + size (promises w) + lost es)%nat.
Proof.
  induction es as [|e es IH] using rev_ind; intros w.
  - intros [= <-]. simpl. by rewrite map_size_empty.
  - intros (w1 & Hrun & Hstep)%run_snoc. rewrite lost_snoc.
    specialize (IH w1 Hrun). destruct (settling_reached N es w1 Hrun) as [Hord Hs].
    assert (Hpq : ∀ now w0,
               (length (started (processQueue now w0).1) + length (awaiting w0)
                = length (started w0) + length (awaiting (processQueue now w0).1))%nat).
    { intros now w0.
      destruct (processQueue_cases now w0) as [[-> _]|(h & rest & _ & _ & ->)]; simpl; [lia|].
      rewrite !length_app. simpl. lia. }
    apply step_cases in Hstep as [(i & now & -> & ->)|(k & c & now & t & -> & Hk & ->)].
    + specialize (Hpq now (pushTask i now w1)). rewrite processQueue_promises.
      simpl in *. lia.
    + specialize (Hpq now (release k t c w1)).
      rewrite processQueue_promises, release_promises.
      assert (Hnone : promises w1 !! promise t = None).
      { apply (settling_pending w1 Hs), elem_of_app. left. by eapply list_elem_of_lookup_2. }
      assert (Hdel : S (length (delete k (awaiting w1))) = length (awaiting w1)).
      { rewrite length_delete by eauto. apply lookup_lt_Some in Hk. lia. }
      simpl in *. destruct (outcome c).
      * rewrite map_size_insert_None by done. lia.
      * lia.
Qed.

(** X5.  In every state reached from [new TestQueue(N)] the promise of
    every task that waits or is under way is pending, and every settled
    promise belongs to a task that was started and is awaited no more.
    A task that has ended may have its promise pending still: that of a
    task whose failure [String] could not convert.  When no task has
    ended so, the promise of a task is pending exactly while the task
    waits or is under way. *)
Theorem promise_pending_until_settled (N : Z) (es : list event) (w : world) :
  run (new N) es = Some w →
  (∀ t, t ∈ awaiting w ∨ t ∈ queue (tq w) → promises w !! promise t = None)
  ∧ (∀ p, is_Some (promises w !! p) →
       ∃ t, t ∈ started w ∧ (t ∉ awaiting w) ∧ promise t = p)
  ∧ (lost es = 0%nat →
     ∀ t, t ∈ started w ++ queue (tq w) →
       (promises w !! promise t = None) ↔ (t ∈ awaiting w ∨ t ∈ queue (tq w))).
Proof.
  intros Hrun. pose proof (settling_reached N es w Hrun) as [Hord [Hpend Hknown]].
  split; [|split].
  - intros t Hor. apply Hpend. by apply elem_of_app.
  - intros p Hp. destruct (Hknown p Hp) as (t & Hin & <-). exists t.
    split; [done|]. split; [|done]. intros Haw.
    rewrite Hpend in Hp; [by destruct Hp|]. apply elem_of_app. by left.
  - intros Hlost t Hin. pose proof (allSettled_reached N es w Hrun Hlost) as Hdone. split.
    + intros Hnone. apply elem_of_app in Hin as [Hin|Hin]; [|by right].
      destruct (decide (t ∈ awaiting w)) as [|Hnot]; [by left|].
      destruct (Hdone t Hin Hnot) as [s Hs]. by rewrite Hs in Hnone.
    + intros Hor. apply Hpend. by apply elem_of_app.
Qed.

Lemma promise_pending_until_settled_witness :
  let es := [Enqueue (lit "a") 1; Enqueue (lit "b") 2; Enqueue (lit "c") 3;
             Settle 0 (Returned JNull) 4] in
  let w := default (new 1) (run (new 1) es) in
  (∀ t, t ∈ awaiting w ∨ t ∈ queue (tq w) → promises w !! promise t = None)
  ∧ (∀ p, is_Some (promises w !! p) →
       ∃ t, t ∈ started w ∧ (t ∉ awaiting w) ∧ promise t = p)
  ∧ (lost es = 0%nat →
     ∀ t, t ∈ started w ++ queue (tq w) →
       (promises w !! promise t = None) ↔ (t ∈ awaiting w ∨ t ∈ queue (tq w))).
Proof.
  apply (promise_pending_until_settled 1
           [Enqueue (lit "a") 1; Enqueue (lit "b") 2; Enqueue (lit "c") 3;
            Settle 0 (Returned JNull) 4]
           (default (new 1) _)).
  vm_compute. reflexivity.
Defined.

(** X6.  A task whose work returns a value has its promise fulfilled
    with that very value, and the promise holds it in every later
    state. *)
Theorem success_reaches_promise (N : Z) (es es' : list event) (w w' w'' : world)
    (k : nat) (t : QueuedTask) (v : value) (now : Z) :
  run (new N) es = Some w →
  awaiting w !! k = Some t →
  step w (Settle k (Returned v) now) = Some w' →
  run w' es' = Some w'' →
  promises w' !! promise t = Some (Fulfilled v)
  ∧ promises w'' !! promise t = Some (Fulfilled v).
Proof.
  intros [Hord Hs]%settling_reached Hk Hstep Hrun.
  assert (Hp : promises w' !! promise t = Some (Fulfilled v)).
  { apply step_cases in Hstep as [(? & ? & ? & _)|(k' & c & now' & t' & Heq & Hk' & Hw')];
      [done|]. injection Heq as <- <- <-. rewrite Hk in Hk'. injection Hk' as <-. subst w'.
    assert (promises (release k t (Returned v) w) !! promise t = Some (Fulfilled v)) as Hrel.
    { simpl. by rewrite lookup_insert_eq. }
    by destruct (processQueue_cases now (release k t (Returned v) w))
      as [[-> _]|(h & rest & _ & _ & ->)]. }
  split; [done|].
  eapply (settled_stays es' w'); eauto using ordered_step, settling_step.
Qed.

Lemma success_reaches_promise_witness :
  let es := [Enqueue (lit "a") 1; Enqueue (lit "b") 2] in
  let es' := [Settle 0 (Threw JNull) 4; Enqueue (lit "c") 5] in
  let w := default (new 1) (run (new 1) es) in
  let w' := default w (step w (Settle 0 (Returned (JString (lit "ok"))) 3)) in
  let w'' := default w' (run w' es') in
  promises w' !! 0%nat = Some (Fulfilled (JString (lit "ok")))
  ∧ promises w'' !! 0%nat = Some (Fulfilled (JString (lit "ok"))).
Proof.
  apply (success_reaches_promise 1 [Enqueue (lit "a") 1; Enqueue (lit "b") 2]
           [Settle 0 (Threw JNull) 4; Enqueue (lit "c") 5]
           (default (new 1) (run (new 1) [Enqueue (lit "a") 1; Enqueue (lit "b") 2]))
           _ _ 0
           {| id := lit "a"; promise := 0; queuedAt := 1 |} (JString (lit "ok")) 3).
  - vm_compute. reflexivity.
  - vm_compute. reflexivity.
  - vm_compute. reflexivity.
  - vm_compute. reflexivity.
Defined.

(** ** What [getStatus] tells before an [enqueue] *)

(** X7.  Both routes read [getStatus] and then call [enqueue], answering
    "queued" when [running >= maxConcurrent] and "started" otherwise,
    with the position [queued + 1].  As long as no id is submitted twice
    the answer is right about what [enqueue] then does: at the ceiling
    the new task waits at that position; below it the task is started at
    once, nothing is queued, and its position is 0, not [queued + 1]. *)
Theorem status_tells_what_enqueue_does (N : Z) (es : list event) (w : world)
    (i : jsstring) (now : Z) :
  run (new N) es = Some w →
  NoDup (submitted es ++ [i]) →
  let '(queued, running, maxConcurrent, _, _) := getStatus w in
  let w' := (enqueue i now w).1 in
  (maxConcurrent ≤ running →
     getPosition i w' = queued + 1 ∧ isQueued i w' = true ∧ isRunning i w' = false)
  ∧ (running < maxConcurrent →
     queued = 0 ∧ getPosition i w' = 0 ∧ isRunning i w' = true ∧ isQueued i w' = false).
Proof.
  intros Hrun Hnd. apply NoDup_app in Hnd as (Hnd & Hdisj & _).
  assert (Hi : i ∉ submitted es) by (intros Hin; apply (Hdisj _ Hin); left).
  destruct (unsubmitted_absent N es w i Hrun Hi) as [Hr Hq].
  simpl. unfold enqueue. simpl. split.
  - intros Hfull.
    destruct (processQueue_cases now (pushTask i now w))
      as [[-> _]|(h & rest & _ & Hlt & _)]; [|simpl in Hlt; lia].
    cbn [fst].
    assert (Hfirst : firstAt i (queue (tq (pushTask i now w))) (length (queue (tq w)))).
    { simpl. split.
      - rewrite fmap_app, lookup_app_r by (by rewrite length_fmap).
        by rewrite length_fmap, Nat.sub_diag.
      - intros m Hm Hlook. apply Hq. rewrite fmap_app, lookup_app_l in Hlook
          by (by rewrite length_fmap). by eapply list_elem_of_lookup_2. }
    split; [|split].
    + by rewrite (getPosition_waiting i (pushTask i now w) _ Hr Hfirst).
    + apply isQueued_elem. simpl. rewrite fmap_app. apply elem_of_app. right. by left.
    + apply not_true_is_false. rewrite isRunning_elem. simpl. by apply not_elem_of_dom.
  - intros Hfree.
    destruct (busy_reached N es w Hnd Hrun) as [Hb|Hb]; [|lia].
    rewrite Hb. split; [done|].
    rewrite (processQueue_admits now (pushTask i now w)
               {| id := i; promise := nextPromise w; queuedAt := now |} []);
      [|by simpl; rewrite Hb|done].
    simpl. split; [|split].
    + apply getPosition_running. simpl. rewrite lookup_insert_eq. eauto.
    + apply isRunning_elem. simpl. set_solver.
    + done.
Qed.

Lemma status_tells_what_enqueue_does_witness :
  let es := [Enqueue (lit "a") 1; Enqueue (lit "b") 2; Enqueue (lit "c") 3] in
  let w := default (new 2) (run (new 2) es) in
  let '(queued, running, maxConcurrent, _, _) := getStatus w in
  let w' := (enqueue (lit "d") 4 w).1 in
  (maxConcurrent ≤ running →
     getPosition (lit "d") w' = queued + 1 ∧ isQueued (lit "d") w' = true
     ∧ isRunning (lit "d") w' = false)
  ∧ (running < maxConcurrent →
     queued = 0 ∧ getPosition (lit "d") w' = 0 ∧ isRunning (lit "d") w' = true
     ∧ isQueued (lit "d") w' = false).
Proof.
  apply (status_tells_what_enqueue_does 2
           [Enqueue (lit "a") 1; Enqueue (lit "b") 2; Enqueue (lit "c") 3]
           (default (new 2)
              (run (new 2) [Enqueue (lit "a") 1; Enqueue (lit "b") 2; Enqueue (lit "c") 3]))
           (lit "d") 4).
  - vm_compute. reflexivity.
  - apply (bool_decide_unpack _). vm_compute. exact I.
Defined.

(** ** Counting tasks *)

Lemma awaited_are_running w : distinct w → length (awaiting w) = size (running (tq w)).
Proof.
  intros [Hids Hdom Haw].
  rewrite <- size_dom, Hdom, size_list_to_set, length_fmap; [done|].
  eapply sublist_NoDup; [|by apply fmap_sublist].
  rewrite fmap_app in Hids. by apply NoDup_app in Hids as (? & _).
Qed.

(** X8.  Every submitted task is counted once: the tasks queued, those
    awaited, the settled promises and the tasks that ended with their
    promise left pending (by a failure that [String] could not convert)
    add up to the number of submissions.  As long as no id is submitted
    twice, [getStatus] counts the same: [queued + running], the settled
    promises and the tasks ended without settlement add up to the
    submissions. *)
Theorem every_task_accounted_for (N : Z) (es : list event) (w : world) :
  run (new N) es = Some w →
  length (submitted es)
    = (length (queue (tq w)) + length (awaiting w) + size (promises w) + lost es)%nat
  ∧ (NoDup (submitted es) →
     let '(queued, running, _, _, _) := getStatus w in
     queued + running + Z.of_nat (size (promises w)) + Z.of_nat (lost es)
     = Z.of_nat (length (submitted es))).
Proof.
  intros Hrun.
  assert (Hlen : length (submitted es)
    = (length (queue (tq w)) + length (awaiting w) + size (promises w) + lost es)%nat).
  { rewrite <- (arrivals_are_submissions N es w Hrun), length_fmap, length_app.
    rewrite (started_accounted N es w Hrun). lia. }
  split; [done|]. intros Hnd. simpl.
  rewrite <- (awaited_are_running w) by eauto using distinct_reached. lia.
Qed.

Lemma every_task_accounted_for_witness :
  let es := [Enqueue (lit "a") 1; Enqueue (lit "b") 2; Enqueue (lit "c") 3;
             Settle 0 (Threw (JObject None)) 4; Settle 0 (Threw JNull) 5] in
  let w := default (new 1) (run (new 1) es) in
  length (submitted es)
    = (length (queue (tq w)) + length (awaiting w) + size (promises w) + lost es)%nat
  ∧ (NoDup (submitted es) →
     let '(queued, running, _, _, _) := getStatus w in
     queued + running + Z.of_nat (size (promises w)) + Z.of_nat (lost es)
     = Z.of_nat (length (submitted es))).
Proof.
  apply (every_task_accounted_for 1
           [Enqueue (lit "a") 1; Enqueue (lit "b") 2; Enqueue (lit "c") 3;
            Settle 0 (Threw (JObject None)) 4; Settle 0 (Threw JNull) 5]
           (default (new 1) _)).
  vm_compute. reflexivity.
Defined.

(** ** A ceiling of zero *)

Lemma idle_run N es : ∀ w,
  N ≤ 0 → run (new N) es = Some w →
  started w = [] ∧ awaiting w = [] ∧ promises w = ∅ ∧ running (tq w) = ∅
  ∧ maxConcurrent (tq w) = N ∧ ∀ k c now, Settle k c now ∉ es.
Proof.
  induction es as [|e es IH] using rev_ind; intros w HN.
  - intros [= <-]. repeat split; try done. intros k c now. apply not_elem_of_nil.
  - intros (w1 & Hrun & Hstep)%run_snoc.
    destruct (IH w1 HN Hrun) as (Hst & Haw & Hp & Hr & Hmax & Hno).
    destruct e as [i now|k c now].
    + rewrite enqueue_full in Hstep by (rewrite Hmax, Hr, map_size_empty; simpl; lia).
      injection Hstep as <-. simpl. repeat split; try done.
      intros k c now'. rewrite elem_of_app, list_elem_of_singleton. intros [Hin|?]; [|done].
      by eapply Hno.
    + simpl in Hstep. unfold resume in Hstep. by rewrite Haw in Hstep.
Qed.

(** X9.  A queue built with a ceiling of zero or less starts nothing:
    every submitted task stays in the waiting line, in the order of
    submission, no promise is ever settled, and no task can end. *)
Theorem zero_ceiling_starts_nothing (N : Z) (es : list event) (w : world) :
  N ≤ 0 →
  run (new N) es = Some w →
  started w = [] ∧ running (tq w) = ∅ ∧ promises w = ∅
  ∧ id <$> queue (tq w) = submitted es
  ∧ (∀ i, i ∈ submitted es → 1 ≤ getPosition i w)
  ∧ (∀ k c now, Settle k c now ∉ es).
Proof.
  intros HN Hrun. destruct (idle_run N es w HN Hrun) as (Hst & Haw & Hp & Hr & Hmax & Hno).
  pose proof (arrivals_are_submissions N es w Hrun) as Harr. rewrite Hst in Harr.
  repeat split; try done.
  intros i Hi. rewrite <- Harr in Hi. simpl in Hi.
  unfold getPosition, isRunning. rewrite Hr, lookup_empty.
  rewrite bool_decide_eq_false_2 by (by intros [? ?]).
  destruct (findIndex_spec i (queue (tq w))) as [[_ Hnot]|(n & -> & _)]; [done|].
  destruct (Z.eqb_spec (Z.of_nat n) (-1)); lia.
Qed.

Lemma zero_ceiling_starts_nothing_witness :
  let es := [Enqueue (lit "a") 1; Enqueue (lit "b") 2] in
  let w := default (new 0) (run (new 0) es) in
  started w = [] ∧ running (tq w) = ∅ ∧ promises w = ∅
  ∧ id <$> queue (tq w) = submitted es
  ∧ (∀ i, i ∈ submitted es → 1 ≤ getPosition i w)
  ∧ (∀ k c now, Settle k c now ∉ es).
Proof.
  apply (zero_ceiling_starts_nothing 0 [Enqueue (lit "a") 1; Enqueue (lit "b") 2]
           (default (new 0) _)).
  - lia.
  - vm_compute. reflexivity.
Defined.

(** ** The lists of [getStatus] *)

#[local] Instance insertedBefore_trans q : Transitive (insertedBefore q).
Proof. unfold insertedBefore. intros i j k. lia. Qed.

#[local] Instance insertedBefore_total q : Total (insertedBefore q).
Proof. unfold insertedBefore. intros i j. lia. Qed.

Lemma StronglySorted_on {A} (R R' : relation A) (l : list A) :
  (∀ x y, x ∈ l → y ∈ l → R x y → R' x y) → StronglySorted R l → StronglySorted R' l.
Proof.
  intros HR Hl. induction Hl as [|x l Hl IH Hx]; constructor.
  - apply IH. intros y z Hy Hz. apply HR; by right.
  - rewrite Forall_forall in Hx |- *. intros y Hy. apply HR; [by left|by right|by apply Hx].
Qed.

Lemma stamped_new N : stamped (new N).
Proof. split; simpl; constructor. Qed.

Lemma stamped_processQueue now w : flights w → stamped w → stamped (processQueue now w).1.
Proof.
  intros [Hids Hdom] [Hsorted Hbelow].
  destruct (processQueue_cases now w) as [[-> _]|(h & rest & Hq & Hlt & ->)]; [by split|].
  rewrite Hq, fmap_app, fmap_cons in Hids.
  apply NoDup_app in Hids as (_ & Hdisj & [Hh _]%NoDup_cons).
  assert (Hfresh : ∀ t, t ∈ awaiting w → id t ≠ id h).
  { intros t Hin Heq. apply (Hdisj (id t)); [by apply list_elem_of_fmap_2|].
    rewrite Heq. by left. }
  assert (Hnone : running (tq w) !! id h = None).
  { apply not_elem_of_dom. rewrite Hdom, elem_of_list_to_set, list_elem_of_fmap.
    intros (t & Heq & Hin). by apply (Hfresh t). }
  set (w' := {| tq := _ |}).
  assert (Hnew : insertedAt (tq w') (id h) = length (started w)).
  { unfold insertedAt, w', setOrder. simpl. by rewrite Hnone, lookup_insert_eq. }
  assert (Hold : ∀ t, t ∈ awaiting w → insertedAt (tq w') (id t) = insertedAt (tq w) (id t)).
  { intros t Hin. unfold insertedAt, w', setOrder. simpl.
    rewrite Hnone, lookup_insert_ne; [done|]. intros Heq. by apply (Hfresh t). }
  assert (Haw : awaiting w' = awaiting w ++ [h]) by done.
  assert (Hst : started w' = started w ++ [h]) by done.
  cbn [fst]. clearbody w'.
  rewrite Forall_forall in Hbelow.
  split; rewrite Haw, ?Hst.
  - apply StronglySorted_app_2.
    + intros t t' Hin ->%list_elem_of_singleton. unfold startedBefore.
      rewrite Hnew, Hold by done. by apply Hbelow.
    + eapply StronglySorted_on; [|done]. intros t t' Hin Hin'. unfold startedBefore.
      by rewrite !Hold.
    + repeat constructor.
  - rewrite Forall_app, Forall_singleton, length_app, Hnew. simpl. split; [|lia].
    rewrite Forall_forall. intros t Hin. rewrite Hold by done.
    specialize (Hbelow t Hin). lia.
Qed.

Lemma stamped_pushTask i now w : stamped w → stamped (pushTask i now w).
Proof. by intros [Hsorted Hbelow]. Qed.

Lemma stamped_release k t c w :
  awaiting w !! k = Some t → flights w → stamped w → stamped (release k t c w).
Proof.
  intros Hk [Hids Hdom] [Hsorted Hbelow].
  rewrite fmap_app in Hids. apply NoDup_app in Hids as (Hnd & _ & _).
  assert (Hold : ∀ t', t' ∈ delete k (awaiting w) →
            insertedAt (tq (release k t c w)) (id t') = insertedAt (tq w) (id t')).
  { intros t' Hin. unfold insertedAt. simpl. rewrite lookup_delete_ne; [done|].
    intros Heq. revert Hin. rewrite delete_take_drop.
    rewrite <- (take_drop_middle _ _ _ Hk) in Hnd.
    rewrite fmap_app, fmap_cons in Hnd.
    apply NoDup_app in Hnd as (_ & Hdisj & [Hnot _]%NoDup_cons).
    intros [Hin|Hin]%elem_of_app.
    - apply (Hdisj (id t')); [by apply list_elem_of_fmap_2|]. rewrite <- Heq. by left.
    - apply Hnot. rewrite Heq. by apply list_elem_of_fmap_2. }
  assert (Hsub : delete k (awaiting w) `sublist_of` awaiting w) by apply sublist_delete.
  assert (Haw : awaiting (release k t c w) = delete k (awaiting w)) by done.
  assert (Hst : started (release k t c w) = started w) by done.
  split; rewrite Haw, ?Hst.
  - apply (StronglySorted_on (startedBefore w)).
    + intros t1 t2 H1 H2. unfold startedBefore. rewrite !Hold by done. done.
    + clear Hold Haw. revert Hsub Hsorted. generalize (delete k (awaiting w)) (awaiting w).
      intros l1 l2 Hsub. induction Hsub as [|x k1 k2 Hsub IH|x k1 k2 Hsub IH];
        rewrite ?StronglySorted_cons; [done| |naive_solver].
      intros [Hx Hl2]. split; [|by apply IH].
      rewrite Forall_forall in Hx |- *. intros y Hy. apply Hx. by eapply elem_of_sublist.
  - rewrite Forall_forall in Hbelow |- *. intros t' Hin. rewrite Hold by done.
    apply Hbelow. by eapply elem_of_sublist.
Qed.

Lemma stamped_run es : ∀ w w',
  flights w → stamped w → apart w es = true → run w es = Some w' → flights w' ∧ stamped w'.
Proof.
  induction es as [|e es IH]; simpl; intros w w' Hf Hs.
  - by intros _ [= <-].
  - destruct (step w e) as [w1|] eqn:E; [|done].
    intros [He Hes]%andb_prop. apply IH; [| |done].
    + apply (flights_run [e] w); [done| |by simpl; rewrite E].
      simpl. rewrite E. by rewrite He.
    + apply step_cases in E as [(i & now & -> & ->)|(k & c & now & t & -> & Hk & ->)].
      * apply stamped_processQueue; [|by apply stamped_pushTask].
        apply flights_pushTask; [|done]. by apply negb_true_iff in He.
      * apply stamped_processQueue; [by apply flights_release|by apply stamped_release].
Qed.

(** X23.  As long as no id is submitted while a task with that id is
    running or queued, [getStatus] lists as [runningIds] the ids of the
    tasks under way in the order in which these were started. *)
Theorem runningIds_in_start_order (N : Z) (es : list event) (w : world) :
  apart (new N) es = true →
  run (new N) es = Some w →
  let '(_, _, _, runningIds, _) := getStatus w in
  runningIds = id <$> awaiting w ∧ awaiting w `sublist_of` started w.
Proof.
  intros Hap Hrun. simpl.
  destruct (stamped_run es (new N) w (flights_new N) (stamped_new N) Hap Hrun)
    as [[Hids Hdom] [Hsorted Hbelow]].
  split; [|by eapply ordered_awaiting, ordered_run; [apply ordered_new|]].
  rewrite fmap_app in Hids. apply NoDup_app in Hids as (Hnd & _ & _).
  apply (StronglySorted_unique_strong (insertedBefore (tq w))).
  - intros i j Hk Hj%list_elem_of_fmap. destruct Hj as (t' & -> & Hin').
    pose proof (merge_sort_Permutation (insertedBefore (tq w))
                  (map_to_list (running (tq w))).*1) as Hperm.
    unfold insertedBefore. intros H1 H2.
    assert (Hi' : i ∈ id <$> awaiting w).
    { unfold keys in Hk. rewrite Hperm in Hk.
      apply list_elem_of_fmap in Hk as ([i' x] & -> & Hx%elem_of_map_to_list).
      assert (i' ∈ dom (running (tq w))) as Hd by (apply elem_of_dom; eauto).
      by rewrite Hdom, elem_of_list_to_set in Hd. }
    apply list_elem_of_fmap in Hi' as (t & -> & Hin).
    destruct (decide (t = t')) as [->|Hne]; [done|]. exfalso.
    clear -Hsorted Hin Hin' Hne H1 H2.
    induction Hsorted as [|x l Hl IH Hx]; [by apply elem_of_nil in Hin|].
    rewrite Forall_forall in Hx. unfold startedBefore in Hx.
    apply elem_of_cons in Hin as [->|Hin]; apply elem_of_cons in Hin' as [->|Hin'].
    + done.
    + specialize (Hx _ Hin'). lia.
    + specialize (Hx _ Hin). lia.
    + by apply IH.
  - apply StronglySorted_merge_sort; apply _.
  - eapply StronglySorted_fmap; [|done]. unfold startedBefore, insertedBefore.
    intros t t'. lia.
  - unfold keys. rewrite merge_sort_Permutation.
    apply NoDup_Permutation; [apply NoDup_fst_map_to_list|done|].
    intros i.
    assert (i ∈ id <$> awaiting w ↔ i ∈ dom (running (tq w))) as ->
      by by rewrite Hdom, elem_of_list_to_set.
    rewrite elem_of_dom, list_elem_of_fmap. split.
    + intros ([i' x] & -> & Hin%elem_of_map_to_list). by exists x.
    + intros [x Hx]. exists (i, x). split; [done|]. by apply elem_of_map_to_list.
Qed.

Lemma runningIds_in_start_order_witness :
  let es := [Enqueue (lit "b") 1; Enqueue (lit "a") 2; Enqueue (lit "c") 3;
             Settle 0 (Returned JNull) 4; Enqueue (lit "b") 5] in
  let w := default (new 3) (run (new 3) es) in
  let '(_, _, _, runningIds, _) := getStatus w in
  runningIds = id <$> awaiting w ∧ awaiting w `sublist_of` started w.
Proof.
  apply (runningIds_in_start_order 3
           [Enqueue (lit "b") 1; Enqueue (lit "a") 2; Enqueue (lit "c") 3;
            Settle 0 (Returned JNull) 4; Enqueue (lit "b") 5]
           (default (new 3) _)).
  - vm_compute. reflexivity.
  - vm_compute. reflexivity.
Defined.

(** [runningIds] lists the ids in the order in which they entered the
    running set, not in the order of the ids: "b" started before "a"
    comes first, and started again after its end it comes last. *)
Lemma runningIds_in_insertion_order :
  let w := default (new 3)
             (run (new 3) [Enqueue (lit "b") 1; Enqueue (lit "a") 2]) in
  let w' := default w
              (run w [Enqueue (lit "c") 3; Settle 0 (Returned JNull) 4;
                      Enqueue (lit "b") 5]) in
  (getStatus w).1.2 = [lit "b"; lit "a"]
  ∧ (getStatus w').1.2 = [lit "a"; lit "c"; lit "b"].
Proof. vm_compute. done. Qed.

(** X10.  What [getStatus] reports hangs together with the look-ups:
    its two counts are the lengths of its two lists, no id is listed as
    running twice, an id is listed as running or as queued exactly when
    [isRunning] or [isQueued] says so, and [getPosition] is -1 exactly
    for the ids in neither list. *)
Theorem status_lists_agree (w : world) :
  let '(queued, running, _, runningIds, queuedIds) := getStatus w in
  queued = Z.of_nat (length queuedIds)
  ∧ running = Z.of_nat (length runningIds)
  ∧ NoDup runningIds
  ∧ (∀ i, i ∈ runningIds ↔ isRunning i w = true)
  ∧ (∀ i, i ∈ queuedIds ↔ isQueued i w = true)
  ∧ (∀ i, getPosition i w = -1 ↔ (i ∉ runningIds) ∧ (i ∉ queuedIds)).
Proof.
  simpl.
  pose proof (merge_sort_Permutation (insertedBefore (tq w))
                (map_to_list (running (tq w))).*1) as Hperm.
  fold (keys (tq w)) in Hperm.
  assert (Hrun : ∀ i, i ∈ keys (tq w) ↔ isRunning i w = true).
  { intros i. rewrite Hperm, isRunning_elem, elem_of_dom, list_elem_of_fmap. split.
    - intros ([i' x] & -> & Hin%elem_of_map_to_list). by exists x.
    - intros [x Hx]. exists (i, x). split; [done|]. by apply elem_of_map_to_list. }
  split; [by rewrite length_fmap|].
  split; [by rewrite Hperm, length_fmap, length_map_to_list|].
  split; [rewrite Hperm; apply NoDup_fst_map_to_list|]. split; [done|].
  split; [intros i; by rewrite isQueued_elem|].
  intros i. rewrite Hrun, <- isQueued_elem. unfold getPosition, isQueued.
  destruct (isRunning i w); [naive_solver|].
  destruct (findIndex_isQueued i (queue (tq w))) as [[-> ->]|[Hr ->]]; simpl;
    [naive_solver|].
  destruct (Z.eqb_spec (findIndex i (queue (tq w))) (-1)); [lia|].
  split; [lia|]. by intros [_ ?].
Qed.

(** ** The queue drains *)

Lemma draining_new N : draining (new N).
Proof. split; simpl; [set_solver|done]. Qed.

Lemma draining_processQueue now w :
  1 ≤ maxConcurrent (tq w) →
  dom (running (tq w)) ⊆ list_to_set (id <$> awaiting w) →
  draining (processQueue now w).1.
Proof.
  intros HN Hdom.
  destruct (processQueue_cases now w) as [[-> [Hfull|Hq]]|(h & rest & Hq & Hlt & ->)]; simpl.
  - split; [done|]. intros Haw. rewrite Haw in Hdom. simpl in Hdom.
    assert (running (tq w) = ∅) as Hr by (apply dom_empty_iff_L; set_solver).
    rewrite Hr, map_size_empty in Hfull. simpl in Hfull. lia.
  - by split.
  - split; simpl.
    + rewrite dom_insert_L, fmap_app, list_to_set_app_L. simpl. set_solver.
    + by intros [_ ?]%app_eq_nil.
Qed.

Lemma draining_step N w e w' :
  1 ≤ N → bounded N w → draining w → step w e = Some w' → draining w'.
Proof.
  intros HN Hb [Hdom Hidle] [(i & now & -> & ->)|(k & c & now & t & -> & Hk & ->)]%step_cases.
  - apply draining_processQueue; simpl; [by rewrite (bounded_max N w Hb)|done].
  - apply draining_processQueue; simpl; [by rewrite (bounded_max N w Hb)|].
    rewrite dom_delete_L. intros x [Hx Hne]%elem_of_difference.
    apply Hdom in Hx. rewrite elem_of_list_to_set, list_elem_of_fmap in Hx.
    destruct Hx as (t' & -> & Hin). rewrite elem_of_list_to_set. apply list_elem_of_fmap_2.
    eapply elem_of_delete_other; [done|done|]. intros ->. set_solver.
Qed.

Lemma draining_reached N es : ∀ w,
  1 ≤ N → run (new N) es = Some w → bounded N w ∧ draining w.
Proof.
  induction es as [|e es IH] using rev_ind; intros w HN.
  - intros [= <-]. split; [apply bounded_new; lia|apply draining_new].
  - intros (w1 & Hrun & Hstep)%run_snoc. destruct (IH w1 HN Hrun) as [Hb Hd].
    split; [by eapply bounded_step|by eapply draining_step].
Qed.

(** Ending the task that was started first, again and again. *)
Lemma drain N c now n : ∀ w,
  1 ≤ N → bounded N w → draining w → ordered w → settling w →
  (length (awaiting w) + length (queue (tq w)))%nat = n →
  ∃ w', run w (replicate n (Settle 0 c now)) = Some w'
    ∧ awaiting w' = [] ∧ queue (tq w') = []
    ∧ started w' = started w ++ queue (tq w)
    ∧ ordered w' ∧ settling w'.
Proof.
  induction n as [|n IH]; intros w HN Hb Hd Hord Hs Hlen.
  - exists w. simpl. destruct (awaiting w), (queue (tq w)); try done.
    by rewrite app_nil_r.
  - destruct (awaiting w) as [|t aw] eqn:Haw.
    { rewrite (draining_idle w Hd Haw) in Hlen. done. }
    assert (Hk : awaiting w !! 0%nat = Some t) by by rewrite Haw.
    assert (Hstep : step w (Settle 0 c now) = Some (processQueue now (release 0 t c w)).1).
    { simpl. unfold resume. by rewrite Hk. }
    cbn [replicate run]. rewrite Hstep.
    set (w1 := (processQueue now (release 0 t c w)).1) in *.
    assert (Hlen1 : (length (awaiting w1) + length (queue (tq w1)))%nat = n).
    { unfold w1.
      destruct (processQueue_cases now (release 0 t c w))
        as [[-> _]|(h & rest & Hq & _ & ->)]; simpl in *.
      - rewrite Haw. simpl in *. lia.
      - rewrite Haw, Hq in *. simpl in *. rewrite length_app. simpl. lia. }
    destruct (IH w1) as (w' & Hrun & Haw' & Hq' & Hst' & Hord' & Hs'); try done.
    + by eapply bounded_step.
    + by eapply draining_step.
    + by eapply ordered_step.
    + by eapply settling_step.
    + exists w'. split; [done|]. split; [done|]. split; [done|]. split; [|done].
      rewrite Hst'. unfold w1.
      destruct (processQueue_grows now (release 0 t c w)) as (_ & _ & ->). done.
Qed.

(** X11.  With a ceiling of at least one the queue drains: from every
    state reached, when each task under way ends in its turn, every
    waiting task is started, in the order of the waiting line, and in
    the end nothing waits and nothing is under way.  Every promise ever
    handed out is then settled, but for one promise for each task that
    ended by a failure that [String] could not convert: these stay
    pending. *)
Theorem queue_drains (N : Z) (es : list event) (w : world) (c : completion) (now : Z) :
  1 ≤ N →
  run (new N) es = Some w →
  let ends := replicate (length (awaiting w) + length (queue (tq w))) (Settle 0 c now) in
  ∃ w',
    run w ends = Some w'
    ∧ awaiting w' = [] ∧ queue (tq w') = []
    ∧ started w' = started w ++ queue (tq w)
    ∧ (size (promises w') + lost (es ++ ends))%nat = length (submitted es).
Proof.
  intros HN Hrun ends. destruct (draining_reached N es w HN Hrun) as [Hb Hd].
  destruct (settling_reached N es w Hrun) as [Hord Hs].
  destruct (drain N c now _ w HN Hb Hd Hord Hs eq_refl)
    as (w' & Hrun' & Haw' & Hq' & Hst' & Hord' & Hs').
  exists w'. split; [done|]. split; [done|]. split; [done|]. split; [done|].
  assert (Hall : run (new N) (es ++ ends) = Some w') by (by rewrite run_app, Hrun).
  pose proof (started_accounted N _ w' Hall) as Hcount.
  rewrite Haw', Hst' in Hcount. simpl in Hcount.
  rewrite <- Hcount, <- (arrivals_are_submissions N es w Hrun). by rewrite length_fmap.
Qed.

Lemma queue_drains_witness :
  let es := [Enqueue (lit "a") 1; Enqueue (lit "b") 2; Enqueue (lit "a") 3;
             Enqueue (lit "c") 4; Settle 1 (Returned JNull) 5] in
  let w := default (new 2) (run (new 2) es) in
  let ends := replicate (length (awaiting w) + length (queue (tq w)))
                (Settle 0 (Threw (JObject None)) 6) in
  ∃ w',
    run w ends = Some w'
    ∧ awaiting w' = [] ∧ queue (tq w') = []
    ∧ started w' = started w ++ queue (tq w)
    ∧ (size (promises w') + lost (es ++ ends))%nat = length (submitted es).
Proof.
  apply (queue_drains 2
           [Enqueue (lit "a") 1; Enqueue (lit "b") 2; Enqueue (lit "a") 3;
            Enqueue (lit "c") 4; Settle 1 (Returned JNull) 5]
           (default (new 2) _) (Threw (JObject None)) 6).
  - lia.
  - vm_compute. reflexivity.
Defined.

End QueueObservers.

(* ===================================================================== *)
(** * The webhook server over time *)
(* ===================================================================== *)

Section HandlerFacts.
Import JS Queue QueueState Webhooks Handlers.

Lemma postLinear_conflict issueId now s st :
  issueTests s !! issueId = Some st → st ≠ Completed →
  postLinear issueId now s = (s, Conflict st issueId).
Proof.
  intros Hst Hne. unfold postLinear. rewrite Hst. by rewrite bool_decide_eq_true_2.
Qed.

Lemma postLinear_accept issueId now s :
  issueTests s !! issueId = Some Completed ∨ issueTests s !! issueId = None →
  postLinear issueId now s =
    (let p := processQueue now (pushTask issueId now (testQueue s)) in
     {| issueTests := taskStarts p.2 (<[issueId := Queued]> (issueTests s));
        testQueue := p.1; timers := timers s |},
     Accepted (Z.of_nat (size (running (tq (testQueue s))))
                 >=? maxConcurrent (tq (testQueue s)))
       issueId (Z.of_nat (length (queue (tq (testQueue s)))) + 1)
       (Z.of_nat (size (running (tq (testQueue s))))) (maxConcurrent (tq (testQueue s)))).
Proof.
  intros Hrec. unfold postLinear, getStatus.
  destruct (processQueue now (pushTask issueId now (testQueue s))) as [w st].
  destruct Hrec as [-> | ->]; [by rewrite bool_decide_eq_false_2 by (by intros ?)|done].
Qed.

Lemma workEnds_cases k c now s s' :
  workEnds k c now s = Some s' →
  ∃ t, awaiting (testQueue s) !! k = Some t
    ∧ s' = (let p := processQueue now (release k t c (testQueue s)) in
            {| issueTests := taskStarts p.2 (<[id t := Completed]> (issueTests s));
               testQueue := p.1; timers := timers s ++ [id t] |}).
Proof.
  unfold workEnds, resume. destruct (awaiting (testQueue s) !! k) as [t|]; [|done].
  destruct (processQueue now (release k t c (testQueue s))) as [w st] eqn:E.
  intros [= <-]. exists t. by rewrite E.
Qed.

Lemma tracked_start N : tracked ∅ (new N).
Proof.
  split; simpl.
  - constructor.
  - set_solver.
  - intros i. rewrite lookup_empty. split; [done|by intros ?%elem_of_nil].
  - intros i. rewrite lookup_empty. split; [done|by intros ?%elem_of_nil].
Qed.

(** [processQueue] and the first statement of the task it starts. *)
Lemma tracked_processQueue now tests w :
  tracked tests w →
  tracked (taskStarts (processQueue now w).2 tests) (processQueue now w).1.
Proof.
  intros [Hfl Hdom Hq Hr].
  destruct (processQueue_cases now w) as [[-> _]|(h & rest & Hqueue & Hlt & ->)]; simpl.
  - by split.
  - rewrite Hqueue in Hfl, Hq.
    assert (Hperm : id <$> (awaiting w ++ [h]) ++ rest = id <$> awaiting w ++ h :: rest).
    { by rewrite <- app_assoc. }
    assert (Hh : id h ∉ id <$> rest).
    { rewrite fmap_app, fmap_cons in Hfl. apply NoDup_app in Hfl as (_ & _ & Hfl).
      by apply NoDup_cons in Hfl as [? _]. }
    split; simpl.
    + by rewrite Hperm.
    + rewrite dom_insert_L, Hdom, fmap_app, list_to_set_app_L. simpl. set_solver.
    + intros i. destruct (decide (i = id h)) as [->|Hne].
      * rewrite lookup_insert_eq. split; [done|by intros ?].
      * rewrite lookup_insert_ne by done. rewrite Hq, fmap_cons, elem_of_cons. naive_solver.
    + intros i. rewrite fmap_app, elem_of_app. simpl. rewrite list_elem_of_singleton.
      destruct (decide (i = id h)) as [->|Hne].
      * rewrite lookup_insert_eq. split; auto.
      * rewrite lookup_insert_ne by done. rewrite Hr. naive_solver.
Qed.

Lemma tracked_pushTask i now tests w :
  tracked tests w →
  tests !! i ≠ Some Queued → tests !! i ≠ Some Running →
  tracked (<[i := Queued]> tests) (pushTask i now w).
Proof.
  intros [Hfl Hdom Hq Hr] HnQ HnR. rewrite Hq in HnQ. rewrite Hr in HnR.
  split; simpl.
  - rewrite app_assoc, fmap_app. apply NoDup_app. split; [done|]. simpl.
    split; [|apply NoDup_singleton]. intros x Hx ->%list_elem_of_singleton.
    rewrite fmap_app, elem_of_app in Hx. naive_solver.
  - done.
  - intros j. rewrite fmap_app, elem_of_app. simpl. rewrite list_elem_of_singleton.
    destruct (decide (j = i)) as [->|Hne].
    + rewrite lookup_insert_eq. naive_solver.
    + rewrite lookup_insert_ne by done. rewrite Hq. naive_solver.
  - intros j. destruct (decide (j = i)) as [->|Hne].
    + rewrite lookup_insert_eq. split; [done|by intros ?].
    + rewrite lookup_insert_ne by done. apply Hr.
Qed.

Lemma tracked_release k t c tests w :
  tracked tests w → awaiting w !! k = Some t →
  tracked (<[id t := Completed]> tests) (release k t c w)
  ∧ id t ∉ id <$> (delete k (awaiting w) ++ queue (tq w)).
Proof.
  intros [Hfl Hdom Hq Hr] Hk.
  rewrite <- (take_drop_middle _ _ _ Hk) in Hfl.
  rewrite <- !app_assoc, !fmap_app, fmap_cons in Hfl. simpl in Hfl.
  apply NoDup_app in Hfl as (Hnd1 & Hdisj & Hfl).
  apply NoDup_cons in Hfl as [Hnot Hnd2].
  assert (Hnot1 : id t ∉ id <$> take k (awaiting w)).
  { intros Hin. apply (Hdisj _ Hin). by left. }
  rewrite <- fmap_app in Hnot, Hnd2.
  assert (Hfresh : id t ∉ id <$> (delete k (awaiting w) ++ queue (tq w))).
  { rewrite delete_take_drop, <- app_assoc, fmap_app, elem_of_app. naive_solver. }
  split; [|done]. split; simpl.
  - rewrite delete_take_drop, <- app_assoc, fmap_app. apply NoDup_app.
    split; [done|]. split; [|done]. intros x Hx Hin. apply (Hdisj _ Hx).
    rewrite fmap_app in Hin. by right.
  - rewrite dom_delete_L, Hdom. rewrite <- (take_drop_middle _ _ _ Hk) at 1.
    rewrite delete_take_drop, !fmap_app, fmap_cons, !list_to_set_app_L, list_to_set_cons.
    rewrite fmap_app, elem_of_app in Hnot. set_solver.
  - intros i. destruct (decide (i = id t)) as [->|Hne].
    + rewrite lookup_insert_eq. split; [done|]. intros Hin. destruct Hfresh.
      rewrite fmap_app, elem_of_app. by right.
    + rewrite lookup_insert_ne by done. apply Hq.
  - intros i. destruct (decide (i = id t)) as [->|Hne].
    + rewrite lookup_insert_eq. split; [done|]. intros Hin. destruct Hfresh.
      rewrite fmap_app, elem_of_app. by left.
    + rewrite lookup_insert_ne by done. rewrite Hr.
      rewrite <- (take_drop_middle _ _ _ Hk) at 1.
      rewrite delete_take_drop, !fmap_app, fmap_cons, !elem_of_app, elem_of_cons.
      naive_solver.
Qed.

Lemma tracked_delete i tests w :
  tracked tests w →
  tests !! i ≠ Some Queued → tests !! i ≠ Some Running →
  tracked (delete i tests) w.
Proof.
  intros [Hfl Hdom Hq Hr] HnQ HnR. split; [done|done| |].
  - intros j. destruct (decide (j = i)) as [->|Hne].
    + rewrite lookup_delete_eq. rewrite <- Hq. naive_solver.
    + rewrite lookup_delete_ne by done. apply Hq.
  - intros j. destruct (decide (j = i)) as [->|Hne].
    + rewrite lookup_delete_eq. rewrite <- Hr. naive_solver.
    + rewrite lookup_delete_ne by done. apply Hr.
Qed.

Lemma coherent_start N : 0 ≤ N → coherent N (start N).
Proof.
  intros HN. split; [by apply bounded_new|]. split; [apply tracked_start|by left].
Qed.

Lemma coherent_handle N s r s' :
  coherent N s → stale s r = false → handle s r = Some s' → coherent N s'.
Proof.
  intros (Hb & Htr & Hbusy) Hfresh Hh. destruct r as [i now|k c now|j]; simpl in *.
  - injection Hh as <-. destruct (issueTests s !! i) as [st|] eqn:Hrec.
    + destruct (decide (st = Completed)) as [->|Hne].
      * rewrite postLinear_accept by auto. simpl. split; [|split].
        -- by apply bounded_processQueue, bounded_pushTask.
        -- apply tracked_processQueue, tracked_pushTask; [done| |]; by rewrite Hrec.
        -- by apply busy_enqueue.
      * by rewrite (postLinear_conflict i now s st).
    + rewrite postLinear_accept by auto. simpl. split; [|split].
      * by apply bounded_processQueue, bounded_pushTask.
      * apply tracked_processQueue, tracked_pushTask; [done| |]; by rewrite Hrec.
      * by apply busy_enqueue.
  - apply workEnds_cases in Hh as (t & Hk & ->). simpl.
    destruct (tracked_release k t c _ _ Htr Hk) as [Htr' Hnot]. split; [|split].
    + by apply bounded_processQueue, bounded_release.
    + by apply tracked_processQueue.
    + apply busy_release; [done|]. intros h rest Hq.
      apply not_elem_of_dom. rewrite dom_delete_L. intros [Hin Hne]%elem_of_difference.
      rewrite (tracked_dom _ _ Htr), elem_of_list_to_set in Hin.
      pose proof (tracked_flights _ _ Htr) as Hfl.
      rewrite Hq, fmap_app in Hfl. apply NoDup_app in Hfl as (_ & Hdisj & _).
      eapply Hdisj; [done|by left].
  - unfold timerFires in Hh. destruct (timers s !! j) as [i|]; [|done].
    injection Hh as <-. simpl. apply bool_decide_eq_false in Hfresh.
    split; [done|]. split; [|done]. apply tracked_delete; [done| |]; naive_solver.
Qed.

Lemma coherent_serve N rs : ∀ s s',
  coherent N s → timely s rs = true → serve s rs = Some s' → coherent N s'.
Proof.
  induction rs as [|r rs IH]; simpl; intros s s' Hc Ht.
  - by intros [= <-].
  - apply andb_true_iff in Ht as [Hfresh%negb_true_iff Ht].
    destruct (handle s r) as [s1|] eqn:E; [|done].
    apply IH; [by eapply coherent_handle|done].
Qed.

Lemma tracked_count tests w : tracked tests w → length (awaiting w) = size (running (tq w)).
Proof.
  intros [Hfl Hdom _ _].
  rewrite <- size_dom, Hdom, size_list_to_set, length_fmap; [done|].
  rewrite fmap_app in Hfl. by apply NoDup_app in Hfl as (? & _).
Qed.

(** X12.  As long as no clean-up timer goes off stale, the duplicate
    guard keeps the runs apart: the runs that wait or are under way are
    of different issues, so the running set counts the runs under way,
    which are at most [N]; and an issue is recorded as queued or as
    running exactly when the queue holds it as queued or as running. *)
Theorem guard_keeps_runs_apart (N : Z) (rs : list request) (s : server) :
  0 ≤ N →
  timely (start N) rs = true →
  serve (start N) rs = Some s →
  let w := testQueue s in
  NoDup (id <$> (awaiting w ++ queue (tq w)))
  ∧ length (awaiting w) = size (running (tq w))
  ∧ Z.of_nat (length (awaiting w)) ≤ N
  ∧ (∀ i, issueTests s !! i = Some Queued ↔ isQueued i w = true)
  ∧ (∀ i, issueTests s !! i = Some Running ↔ isRunning i w = true).
Proof.
  intros HN Ht Hs.
  destruct (coherent_serve N rs (start N) s (coherent_start N HN) Ht Hs) as (Hb & Htr & _).
  pose proof (tracked_count _ _ Htr) as Hlen. simpl.
  split; [apply Htr|]. split; [done|]. split; [rewrite Hlen; apply Hb|]. split.
  - intros i. rewrite isQueued_elem. apply Htr.
  - intros i. rewrite isRunning_elem, (tracked_dom _ _ Htr), elem_of_list_to_set. apply Htr.
Qed.

Lemma guard_keeps_runs_apart_witness :
  let T1 := lit "T1" in let T2 := lit "T2" in
  let rs := [PostLinear T1 1; PostLinear T2 2; PostLinear T1 3;
             WorkEnds 0 (Threw JNull) 4; TimerFires 0; PostLinear T1 5] in
  let s := default (start 1) (serve (start 1) rs) in
  let w := testQueue s in
  NoDup (id <$> (awaiting w ++ queue (tq w)))
  ∧ length (awaiting w) = size (running (tq w))
  ∧ Z.of_nat (length (awaiting w)) ≤ 1
  ∧ (∀ i, issueTests s !! i = Some Queued ↔ isQueued i w = true)
  ∧ (∀ i, issueTests s !! i = Some Running ↔ isRunning i w = true).
Proof.
  apply (guard_keeps_runs_apart 1
           [PostLinear (lit "T1") 1; PostLinear (lit "T2") 2; PostLinear (lit "T1") 3;
            WorkEnds 0 (Threw JNull) 4; TimerFires 0; PostLinear (lit "T1") 5]
           (default (start 1) _)).
  - lia.
  - vm_compute. reflexivity.
  - vm_compute. reflexivity.
Defined.

(** X13.  As long as no clean-up timer goes off stale, the 202 answer of
    [router.post("/linear")] is right about the run it announces: after
    "Tests queued" the issue is recorded as queued and waits at the
    position given; after "Tests started" the issue is recorded as
    running and its position is 0. *)
Theorem accepted_message_is_right (N : Z) (rs : list request) (s s' : server)
    (issueId : jsstring) (now : Z) (queuedMessage : bool) (position nRunning nMax : Z) :
  0 ≤ N →
  timely (start N) rs = true →
  serve (start N) rs = Some s →
  postLinear issueId now s = (s', Accepted queuedMessage issueId position nRunning nMax) →
  (queuedMessage = true →
     issueTests s' !! issueId = Some Queued
     ∧ getPosition issueId (testQueue s') = position)
  ∧ (queuedMessage = false →
     issueTests s' !! issueId = Some Running
     ∧ getPosition issueId (testQueue s') = 0).
Proof.
  intros HN Ht Hs Hpost.
  destruct (coherent_serve N rs (start N) s (coherent_start N HN) Ht Hs)
    as (Hb & Htr & Hbusy).
  assert (Hrec : issueTests s !! issueId = Some Completed ∨ issueTests s !! issueId = None).
  { destruct (issueTests s !! issueId) as [st|] eqn:Hrec; [|by right].
    destruct (decide (st = Completed)) as [->|Hne]; [by left|].
    by rewrite (postLinear_conflict issueId now s st) in Hpost. }
  assert (HnQ : issueId ∉ id <$> queue (tq (testQueue s))).
  { rewrite <- (tracked_queued _ _ Htr). by destruct Hrec as [-> | ->]. }
  assert (HnR : running (tq (testQueue s)) !! issueId = None).
  { apply not_elem_of_dom. rewrite (tracked_dom _ _ Htr), elem_of_list_to_set.
    rewrite <- (tracked_running _ _ Htr). by destruct Hrec as [-> | ->]. }
  rewrite postLinear_accept in Hpost by done. injection Hpost as <- <- <- <- <-.
  simpl. split.
  - intros Hfull%Z.geb_le.
    destruct (processQueue_cases now (pushTask issueId now (testQueue s)))
      as [[-> _]|(h & rest & _ & Hlt & _)]; [|simpl in Hlt; lia].
    simpl. split; [by rewrite lookup_insert_eq|].
    apply (getPosition_waiting issueId (pushTask issueId now (testQueue s))); [done|].
    simpl. split.
    + rewrite fmap_app, lookup_app_r by (by rewrite length_fmap).
      by rewrite length_fmap, Nat.sub_diag.
    + intros m Hm Hlook. apply HnQ. rewrite fmap_app, lookup_app_l in Hlook
        by (by rewrite length_fmap). by eapply list_elem_of_lookup_2.
  - intros Hfree. assert (Hlt : Z.of_nat (size (running (tq (testQueue s))))
                                < maxConcurrent (tq (testQueue s))).
    { destruct (Z.geb_spec (Z.of_nat (size (running (tq (testQueue s)))))
                  (maxConcurrent (tq (testQueue s)))); [done|lia]. }
    destruct Hbusy as [Hq|Hfull]; [|lia].
    rewrite (processQueue_admits now (pushTask issueId now (testQueue s))
               {| id := issueId; promise := nextPromise (testQueue s); queuedAt := now |} []);
      [|by simpl; rewrite Hq|done].
    simpl. split; [by rewrite lookup_insert_eq|].
    apply getPosition_running. simpl. rewrite lookup_insert_eq. eauto.
Qed.

Lemma accepted_message_is_right_witness :
  let T1 := lit "T1" in let T2 := lit "T2" in
  let s := default (start 1) (serve (start 1) [PostLinear T1 1]) in
  let s' := (postLinear T2 2 s).1 in
  (true = true →
     issueTests s' !! T2 = Some Queued ∧ getPosition T2 (testQueue s') = 1)
  ∧ (true = false →
     issueTests s' !! T2 = Some Running ∧ getPosition T2 (testQueue s') = 0).
Proof.
  apply (accepted_message_is_right 1 [PostLinear (lit "T1") 1]
           (default (start 1) (serve (start 1) [PostLinear (lit "T1") 1]))
           _ (lit "T2") 2 true 1 1 1).
  - lia.
  - vm_compute. reflexivity.
  - vm_compute. reflexivity.
  - vm_compute. reflexivity.
Defined.

(** X14.  A clean-up timer deletes the record of its issue whatever the
    record says.  So once a timer for an issue has gone off, the next
    webhook for that issue is accepted and a further task for it is
    handed to the queue, even while an earlier run of it is queued or
    running. *)
Theorem stale_timer_unlocks_issue (s : server) (j : nat) (issueId : jsstring) (now : Z) :
  timers s !! j = Some issueId →
  ∃ s1 s2 queuedMessage position running maxConcurrent,
    timerFires j s = Some s1
    ∧ issueTests s1 !! issueId = None
    ∧ postLinear issueId now s1
      = (s2, Accepted queuedMessage issueId position running maxConcurrent)
    ∧ testQueue s2 = (enqueue issueId now (testQueue s)).1.
Proof.
  intros Hj. unfold timerFires. rewrite Hj.
  eexists _, _, _, _, _, _. split; [done|]. simpl. split; [by rewrite lookup_delete_eq|].
  rewrite postLinear_accept by (right; simpl; by rewrite lookup_delete_eq).
  split; [done|]. done.
Qed.

Lemma stale_timer_unlocks_issue_witness :
  let T1 := lit "T1" in
  let s := default (start 2)
             (serve (start 2) [PostLinear T1 1; WorkEnds 0 (Returned JNull) 2;
                               PostLinear T1 3]) in
  (issueTests s !! T1 = Some Running
   ∧ postLinear T1 4 s = (s, Conflict Running T1))
  ∧ ∃ s1 s2 queuedMessage position running maxConcurrent,
      timerFires 0 s = Some s1
      ∧ issueTests s1 !! T1 = None
      ∧ postLinear T1 4 s1
        = (s2, Accepted queuedMessage T1 position running maxConcurrent)
      ∧ testQueue s2 = (enqueue T1 4 (testQueue s)).1.
Proof.
  split; [split; vm_compute; reflexivity|].
  apply (stale_timer_unlocks_issue
           (default (start 2)
              (serve (start 2) [PostLinear (lit "T1") 1; WorkEnds 0 (Returned JNull) 2;
                                PostLinear (lit "T1") 3]))
           0 (lit "T1") 4).
  vm_compute. reflexivity.
Defined.

(** X15.  As long as no clean-up timer goes off stale, the end of a
    run, whether its work returned or threw, leaves the issue recorded
    as completed with one more clean-up timer armed for it, and the next
    webhook for that issue is accepted at once. *)
Theorem finished_issue_can_run_again (N : Z) (rs : list request) (s s' : server)
    (k : nat) (c : completion) (now now' : Z) :
  0 ≤ N →
  timely (start N) rs = true →
  serve (start N) rs = Some s →
  workEnds k c now s = Some s' →
  ∃ t, awaiting (testQueue s) !! k = Some t
    ∧ issueTests s' !! id t = Some Completed
    ∧ timers s' = timers s ++ [id t]
    ∧ ∃ s'' queuedMessage position nRunning nMax,
        postLinear (id t) now' s' = (s'', Accepted queuedMessage (id t) position nRunning nMax).
Proof.
  intros HN Ht Hs Hends.
  destruct (coherent_serve N rs (start N) s (coherent_start N HN) Ht Hs) as (_ & Htr & _).
  apply workEnds_cases in Hends as (t & Hk & ->). exists t. split; [done|].
  destruct (tracked_release k t c _ _ Htr Hk) as [_ Hnot].
  assert (Hrec : taskStarts (processQueue now (release k t c (testQueue s))).2
                   (<[id t := Completed]> (issueTests s)) !! id t = Some Completed).
  { destruct (processQueue_cases now (release k t c (testQueue s)))
      as [[-> _]|(h & rest & Hq & _ & ->)]; simpl.
    - by rewrite lookup_insert_eq.
    - rewrite lookup_insert_ne; [by rewrite lookup_insert_eq|]. intros Heq.
      apply Hnot. rewrite fmap_app, elem_of_app. right. simpl in Hq. rewrite Hq, <- Heq.
      by left. }
  cbn zeta. cbn [issueTests timers]. split; [done|]. split; [done|].
  rewrite postLinear_accept by (by left). by eexists _, _, _, _, _.
Qed.

Lemma finished_issue_can_run_again_witness :
  let T1 := lit "T1" in
  let s := default (start 1) (serve (start 1) [PostLinear T1 1; PostLinear (lit "T2") 2]) in
  let s' := default s (workEnds 0 (Threw (JError (lit "boom"))) 3 s) in
  ∃ t, awaiting (testQueue s) !! 0%nat = Some t
    ∧ issueTests s' !! id t = Some Completed
    ∧ timers s' = timers s ++ [id t]
    ∧ ∃ s'' queuedMessage position nRunning nMax,
        postLinear (id t) 4 s' = (s'', Accepted queuedMessage (id t) position nRunning nMax).
Proof.
  apply (finished_issue_can_run_again 1 [PostLinear (lit "T1") 1; PostLinear (lit "T2") 2]
           (default (start 1) (serve (start 1) [PostLinear (lit "T1") 1; PostLinear (lit "T2") 2]))
           _ 0 (Threw (JError (lit "boom"))) 3 4).
  - lia.
  - vm_compute. reflexivity.
  - vm_compute. reflexivity.
  - vm_compute. reflexivity.
Defined.

End HandlerFacts.

(* ===================================================================== *)
(** * POST /linear/e2e *)
(* ===================================================================== *)

Section E2EFacts.
Import JS Webhooks E2E.

Lemma postLinearE2E_accept issueId s :
  e2eIssueTests s !! issueId = Some Completed ∨ e2eIssueTests s !! issueId = None →
  postLinearE2E issueId s =
    ({| e2eIssueTests := <[issueId := Running]> (e2eIssueTests s);
        e2eAwaiting := e2eAwaiting s ++ [issueId];
        e2eTimers := e2eTimers s |},
     E2EAccepted issueId).
Proof.
  intros Hrec. unfold postLinearE2E.
  destruct Hrec as [-> | ->]; [by rewrite bool_decide_eq_false_2 by (by intros ?)|done].
Qed.

Lemma postLinearE2E_cases issueId s :
  (∃ st, e2eIssueTests s !! issueId = Some st ∧ st ≠ Completed
         ∧ postLinearE2E issueId s = (s, E2EConflict st issueId))
  ∨ ((e2eIssueTests s !! issueId = Some Completed ∨ e2eIssueTests s !! issueId = None)
     ∧ postLinearE2E issueId s =
         ({| e2eIssueTests := <[issueId := Running]> (e2eIssueTests s);
             e2eAwaiting := e2eAwaiting s ++ [issueId];
             e2eTimers := e2eTimers s |},
          E2EAccepted issueId)).
Proof.
  destruct (e2eIssueTests s !! issueId) as [st|] eqn:Hrec.
  - destruct (decide (st = Completed)) as [->|Hne].
    + right. split; [by left|]. apply postLinearE2E_accept. by left.
    + left. exists st. split; [done|]. split; [done|].
      unfold postLinearE2E. rewrite Hrec. by rewrite bool_decide_eq_true_2.
  - right. split; [by right|]. apply postLinearE2E_accept. by right.
Qed.

Lemma e2e_no_Queued rs : ∀ s s',
  (∀ i, e2eIssueTests s !! i ≠ Some Queued) →
  e2eServe s rs = Some s' →
  ∀ i, e2eIssueTests s' !! i ≠ Some Queued.
Proof.
  induction rs as [|r rs IH]; simpl; intros s s' Hs.
  - by intros [= <-].
  - destruct (e2eHandle s r) as [s1|] eqn:E; [|done]. apply IH. intros i.
    destruct r as [issueId|k|j]; simpl in E.
    + injection E as <-.
      destruct (postLinearE2E_cases issueId s) as [(st & _ & _ & ->)|[_ ->]]; simpl; [done|].
      destruct (decide (i = issueId)) as [->|Hne];
        [by rewrite lookup_insert_eq|by rewrite lookup_insert_ne].
    + unfold e2eRunEnds in E. destruct (e2eAwaiting s !! k) as [issueId|]; [|done].
      injection E as <-. simpl.
      destruct (decide (i = issueId)) as [->|Hne];
        [by rewrite lookup_insert_eq|by rewrite lookup_insert_ne].
    + unfold e2eTimerFires in E. destruct (e2eTimers s !! j) as [issueId|]; [|done].
      injection E as <-. simpl.
      destruct (decide (i = issueId)) as [->|Hne];
        [by rewrite lookup_delete_eq|by rewrite lookup_delete_ne].
Qed.

(** X16.  The E2E route never records an issue as queued, although the
    type of its table allows it: whatever has happened, a request that
    is refused as a duplicate is refused with the status running. *)
Theorem e2e_conflict_is_running (rs : list e2eRequest) (s s' : e2eServer)
    (issueId : jsstring) (existing : status) :
  e2eServe e2eStart rs = Some s →
  postLinearE2E issueId s = (s', E2EConflict existing issueId) →
  existing = Running ∧ s' = s ∧ ∀ i, e2eIssueTests s !! i ≠ Some Queued.
Proof.
  intros Hs Hpost.
  assert (Hno : ∀ i, e2eIssueTests s !! i ≠ Some Queued).
  { eapply (e2e_no_Queued rs e2eStart); [|done]. intros i. simpl. by rewrite lookup_empty. }
  destruct (postLinearE2E_cases issueId s) as [(st & Hrec & Hne & Heq)|[_ Heq]];
    rewrite Heq in Hpost; [|done].
  injection Hpost as <- <-. split; [|done].
  destruct st; [by destruct (Hno issueId)|done|done].
Qed.

Lemma e2e_conflict_is_running_witness :
  let T1 := lit "T1" in
  let s := default e2eStart (e2eServe e2eStart [PostLinearE2E T1]) in
  Running = Running ∧ s = s ∧ ∀ i, e2eIssueTests s !! i ≠ Some Queued.
Proof.
  apply (e2e_conflict_is_running [PostLinearE2E (lit "T1")]
           (default e2eStart (e2eServe e2eStart [PostLinearE2E (lit "T1")])) _
           (lit "T1") Running).
  - vm_compute. reflexivity.
  - vm_compute. reflexivity.
Defined.

Lemma e2e_posts issueIds : ∀ s,
  NoDup issueIds →
  (∀ i, i ∈ issueIds → e2eIssueTests s !! i = None) →
  ∃ s', e2eServe s (PostLinearE2E <$> issueIds) = Some s'
    ∧ e2eAwaiting s' = e2eAwaiting s ++ issueIds
    ∧ (∀ i, i ∈ issueIds → e2eIssueTests s' !! i = Some Running)
    ∧ (∀ i, i ∉ issueIds → e2eIssueTests s' !! i = e2eIssueTests s !! i).
Proof.
  induction issueIds as [|i0 ids IH]; intros s Hnd Hfree.
  - exists s. simpl. rewrite app_nil_r. repeat split; try done. by intros i ?%elem_of_nil.
  - apply NoDup_cons in Hnd as [Hnot Hnd]. simpl.
    rewrite postLinearE2E_accept by (right; apply Hfree; by left). simpl.
    destruct (IH {| e2eIssueTests := <[i0 := Running]> (e2eIssueTests s);
                    e2eAwaiting := e2eAwaiting s ++ [i0];
                    e2eTimers := e2eTimers s |}) as (s' & Hrun & Haw & Hin & Hout);
      [done| |].
    { intros i Hi. simpl. rewrite lookup_insert_ne by (by intros ->).
      apply Hfree. by right. }
    exists s'. split; [done|]. simpl in *. split; [by rewrite Haw, <- app_assoc|]. split.
    + intros i [->|Hi]%elem_of_cons; [|by apply Hin].
      rewrite Hout by done. by rewrite lookup_insert_eq.
    + intros i [Hne Hi]%not_elem_of_cons. rewrite Hout by done.
      by rewrite lookup_insert_ne.
Qed.

(** X17.  E2E runs do not go through the queue and have no ceiling:
    webhooks for any number of different issues are all accepted, and
    all their runs are under way at once, each recorded as running. *)
Theorem e2e_runs_have_no_ceiling (issueIds : list jsstring) :
  NoDup issueIds →
  ∃ s, e2eServe e2eStart (PostLinearE2E <$> issueIds) = Some s
    ∧ e2eAwaiting s = issueIds
    ∧ (∀ i, i ∈ issueIds → e2eIssueTests s !! i = Some Running)
    ∧ (∀ i, i ∈ issueIds →
         postLinearE2E i s = (s, E2EConflict Running i)).
Proof.
  intros Hnd.
  destruct (e2e_posts issueIds e2eStart Hnd) as (s & Hrun & Haw & Hin & _).
  { intros i _. simpl. by rewrite lookup_empty. }
  exists s. split; [done|]. split; [done|]. split; [done|].
  intros i Hi. destruct (postLinearE2E_cases i s) as [(st & Hrec & _ & ->)|[Hrec _]].
  - rewrite (Hin i Hi) in Hrec. by injection Hrec as <-.
  - rewrite (Hin i Hi) in Hrec. by destruct Hrec.
Qed.

Lemma e2e_runs_have_no_ceiling_witness :
  let issueIds := [lit "T1"; lit "T2"; lit "T3"; lit "T4"] in
  ∃ s, e2eServe e2eStart (PostLinearE2E <$> issueIds) = Some s
    ∧ e2eAwaiting s = issueIds
    ∧ (∀ i, i ∈ issueIds → e2eIssueTests s !! i = Some Running)
    ∧ (∀ i, i ∈ issueIds →
         postLinearE2E i s = (s, E2EConflict Running i)).
Proof.
  apply (e2e_runs_have_no_ceiling [lit "T1"; lit "T2"; lit "T3"; lit "T4"]).
  apply (bool_decide_unpack _). vm_compute. exact I.
Defined.

End E2EFacts.

(* ===================================================================== *)
(** * Extracting what POST /run-test wrote *)
(* ===================================================================== *)

Section RoundTrip.
Import Regex Linear Api.
Local Open Scope nat_scope.
#[local] Arguments matcher : simpl never.
#[local] Arguments rep : simpl never.

Lemma search_unfold f r bef aft :
  search f r bef aft =
    match matcher f r {| before := bef; after := aft; capture := None |} Some with
    | Some s => Some s
    | None =>
        match aft with
        | [] => None
        | c :: aft' => search f r (c :: bef) aft'
        end
    end.
Proof. by destruct aft. Qed.

(** A greedy quantifier that cannot take the next code unit. *)
Lemma rep_stop {A} f a max bef aft (k : list N → list N → option A) :
  match aft with c :: _ => accepts f a c = false | [] => True end →
  rep f a true 0 max bef aft k = k bef aft.
Proof.
  intros Hno. rewrite rep_unfold. destruct aft as [|c aft]; simpl; [done|].
  by rewrite Hno, andb_false_r.
Qed.

(** A greedy quantifier that can. *)
Lemma rep_take {A} f a bef c aft (k : list N → list N → option A) :
  accepts f a c = true →
  rep f a true 0 None bef (c :: aft) k =
    match rep f a true 0 None (c :: bef) aft k with
    | Some x => Some x
    | None => k bef (c :: aft)
    end.
Proof. intros Hyes. rewrite rep_unfold. simpl. by rewrite Hyes. Qed.

Lemma join_cons_cons sep p q l : join sep (p :: q :: l) = p ++ sep ++ join sep (q :: l).
Proof. done. Qed.

Lemma rawDescription_cons c criteria :
  rawDescription (c :: criteria) = JS.lit "- [ ] " ++ c ++ moreLines criteria.
Proof.
  unfold rawDescription. revert c. induction criteria as [|c' cs IH]; intros c.
  - simpl. by rewrite app_nil_r.
  - specialize (IH c'). rewrite !fmap_cons in *. rewrite join_cons_cons, IH.
    by rewrite <- app_assoc.
Qed.

Lemma checkboxLine_units : JS.lit "- [ ] " = [45; 32; 91; 32; 93; 32]%N.
Proof. done. Qed.

(** The section pattern needs a [#] at the start of the text or after a
    line feed. *)
Lemma canonicalize_35 c : (canonicalize c =? 35)%N = (c =? 35)%N.
Proof.
  unfold canonicalize.
  destruct ((97 <=? c)%N && (c <=? 122)%N) eqn:E; [|done].
  apply andb_true_iff in E as [H1%N.leb_le H2%N.leb_le].
  destruct (N.eqb_spec (c - 32) 35), (N.eqb_spec c 35); try done; lia.
Qed.

Lemma canonicalize_10 c : (canonicalize c =? 10)%N = (c =? 10)%N.
Proof.
  unfold canonicalize.
  destruct ((97 <=? c)%N && (c <=? 122)%N) eqn:E; [|done].
  apply andb_true_iff in E as [H1%N.leb_le H2%N.leb_le].
  destruct (N.eqb_spec (c - 32) 10), (N.eqb_spec c 10); try done; lia.
Qed.

Lemma hashes_none {A} bef aft (k : pos → option A) cap :
  match aft with c :: _ => (c =? 35)%N = false | [] => True end →
  matcher acSectionFlags hashes {| before := bef; after := aft; capture := cap |} k = None.
Proof.
  intros Hno. unfold hashes. rewrite matcher_Rep, rep_unfold. simpl.
  destruct aft as [|c aft]; [done|]. unfold sameChar. simpl.
  change (canonicalize 35) with 35%N. by rewrite canonicalize_35, Hno.
Qed.

Lemma matcher_Alt {A} f r1 r2 s (k : pos → option A) :
  matcher f (Alt r1 r2) s k =
    match matcher f r1 s k with
    | Some x => Some x
    | None => matcher f r2 s k
    end.
Proof. done. Qed.

Lemma acSection_none_at bef aft :
  noHeadingMark (match bef with [] => true | c :: _ => (c =? 10)%N end) aft = true →
  matcher acSectionFlags acSectionRegex {| before := bef; after := aft; capture := None |} Some
  = None.
Proof.
  intros Hno. unfold acSectionRegex.
  change (seq_of (?r :: ?rs)) with (Seq r (seq_of rs)).
  rewrite matcher_Seq, matcher_Alt.
  change (seq_of (?r :: ?rs)) with (Seq r (seq_of rs)).
  assert (Hbol : matcher acSectionFlags Bol {| before := bef; after := aft; capture := None |}
            (λ s', matcher acSectionFlags
                     (Seq hashes (seq_of [spaces; word "acceptance"; spaces; word "criteria";
                        spaces; nl; Group (Rep false 0 None Any);
                        Look (Alt (seq_of [nl; hashes; Atom Space])
                                  (Alt (seq_of [nl; nl; nl]) Eol))])) s' Some) = None).
  { rewrite matcher_Bol. simpl. destruct bef as [|b bef]; simpl; [|done].
    rewrite matcher_Seq. apply hashes_none. destruct aft as [|c aft]; [done|].
    simpl in Hno. by destruct (c =? 35)%N. }
  rewrite Hbol. unfold nl. rewrite matcher_Atom. simpl.
  destruct aft as [|c aft]; [done|]. unfold sameChar. simpl.
  change (canonicalize 10) with 10%N. rewrite canonicalize_10.
  destruct (c =? 10)%N eqn:Ec; [|done].
  rewrite matcher_Seq. apply hashes_none. destruct aft as [|c' aft]; [done|].
  simpl in Hno. rewrite Ec in Hno. apply andb_true_iff in Hno as [_ Hno].
  simpl in Hno. apply andb_true_iff in Hno as [Hno _]. by destruct (c' =? 35)%N.
Qed.

Lemma acSection_none bef aft :
  noHeadingMark (match bef with [] => true | c :: _ => (c =? 10)%N end) aft = true →
  search acSectionFlags acSectionRegex bef aft = None.
Proof.
  revert bef. induction aft as [|c aft IH]; intros bef Hno.
  - rewrite search_unfold. by rewrite acSection_none_at.
  - rewrite search_unfold. rewrite acSection_none_at by done.
    apply IH. simpl in Hno. by apply andb_true_iff in Hno as [_ Hno].
Qed.

Lemma singleLine_no_feed c x : singleLine c → x ∈ c → (x =? 10)%N = false.
Proof.
  intros Hc Hx. unfold singleLine in Hc. rewrite Forall_forall in Hc.
  specialize (Hc x Hx). destruct (N.eqb_spec x 10) as [->|]; [done|done].
Qed.

Lemma noHeadingMark_line c rest :
  singleLine c → noHeadingMark false (c ++ rest) = noHeadingMark false rest.
Proof.
  induction c as [|x c IH]; intros Hc; [done|]. simpl.
  rewrite (singleLine_no_feed (x :: c) x Hc) by (by left).
  apply IH. by apply Forall_inv_tail in Hc.
Qed.

Lemma noHeadingMark_moreLines criteria :
  Forall singleLine criteria → noHeadingMark false (moreLines criteria) = true.
Proof.
  induction 1 as [|c cs Hc _ IH]; [done|].
  cbn [moreLines]. rewrite checkboxLine_units. simpl. by rewrite noHeadingMark_line.
Qed.

Lemma noHeadingMark_rawDescription criteria :
  Forall singleLine criteria → noHeadingMark true (rawDescription criteria) = true.
Proof.
  destruct 1 as [|c cs Hc Hcs]; [done|].
  rewrite rawDescription_cons, checkboxLine_units. simpl.
  rewrite noHeadingMark_line by done. by apply noHeadingMark_moreLines.
Qed.

(** ** The check-box pattern on one line *)

Lemma matcher_seq_of {A} f r r' rs s (k : pos → option A) :
  matcher f (seq_of (r :: r' :: rs)) s k
  = matcher f r s (fun s' => matcher f (seq_of (r' :: rs)) s' k).
Proof. done. Qed.

Lemma cbPrefix_line {A} bef tl cap (k : pos → option A) :
  atBol lineFlags bef = true →
  matcher lineFlags cbPrefix
    {| before := bef; after := 45%N :: 32%N :: 91%N :: 32%N :: 93%N :: tl; capture := cap |} k
  = k {| before := 93%N :: 32%N :: 91%N :: 32%N :: 45%N :: bef; after := tl; capture := cap |}.
Proof.
  intros Hbol. unfold cbPrefix.
  rewrite matcher_seq_of, matcher_Bol. cbn [before after capture]. rewrite Hbol.
  unfold spaces at 1. rewrite matcher_seq_of, matcher_Rep. cbn [before after capture].
  rewrite rep_stop by done.
  rewrite matcher_seq_of, matcher_Atom. cbn [before after capture].
  change (accepts lineFlags (OneOf [45%N; 42%N]) 45) with true. cbv iota.
  unfold spaces at 1. rewrite matcher_seq_of, matcher_Rep. cbn [before after capture].
  rewrite rep_take by done. rewrite rep_stop by done.
  rewrite !matcher_seq_of, !matcher_Atom. cbn [before after capture].
  change (accepts lineFlags (Char 91) 91) with true.
  change (accepts lineFlags (Char 91) 32) with false. cbv iota.
  rewrite !matcher_seq_of, !matcher_Atom. cbn [before after capture].
  change (accepts lineFlags (OneOf [32%N; 120%N]) 32) with true. cbv iota.
  change (seq_of [?r]) with r.
  rewrite !matcher_Atom. cbn [before after capture].
  change (accepts lineFlags (Char 93) 93) with true. cbv iota.
  by destruct (k _).
Qed.

(** [.+] takes a whole line. *)
Lemma dots_line {A} c rest (k : list N → list N → option A) r :
  singleLine c → atEol lineFlags rest = true →
  ∀ bef, k (rev c ++ bef) rest = Some r →
         rep lineFlags Dot true 0 None bef (c ++ rest) k = Some r.
Proof.
  intros Hc Heol. induction Hc as [|x c Hx Hc IH]; intros bef Hk.
  - simpl in *. rewrite rep_stop; [done|]. destruct rest as [|y rest]; [done|].
    simpl in *. by rewrite Heol.
  - simpl. rewrite rep_take by (by simpl; rewrite Hx).
    rewrite IH; [done|]. simpl in Hk. by rewrite <- app_assoc in Hk.
Qed.

Lemma wellFormed_head c : wellFormed c → noLeadingSpace c.
Proof.
  intros [_ Htrim]. unfold trim in Htrim.
  destruct (trimStart_suffix c) as (x & Hx & _).
  destruct (trimStart_suffix (rev (trimStart c))) as (y & Hy & _).
  assert (Hlen : length c = length (trimStart (rev (trimStart c)))).
  { rewrite <- Htrim at 1. by rewrite length_rev. }
  apply (f_equal length) in Hx, Hy. rewrite length_app in Hx, Hy.
  rewrite length_rev in Hy.
  assert (length x = 0) as Hx0 by lia.
  destruct (trimStart_suffix c) as (x' & Hx' & _).
  assert (length x' = 0) as ->%nil_length_inv.
  { apply (f_equal length) in Hx'. rewrite length_app in Hx'. lia. }
  simpl in Hx'. rewrite Hx'. apply trimStart_noLeadingSpace.
Qed.

Lemma take_capture (c rest : jsstring) :
  take (length (c ++ rest) - length rest) (c ++ rest) = c.
Proof.
  rewrite length_app. replace (length c + length rest - length rest) with (length c) by lia.
  by rewrite take_app_length.
Qed.

Lemma checkbox_line bef c rest :
  atBol lineFlags bef = true → wellFormed c → singleLine c → atEol lineFlags rest = true →
  matcher lineFlags checkboxRegex
    {| before := bef; after := JS.lit "- [ ] " ++ c ++ rest; capture := None |} Some
  = Some {| before := rev (JS.lit "- [ ] " ++ c) ++ bef; after := rest; capture := Some c |}.
Proof.
  intros Hbol Hwf Hc Heol. pose proof (wellFormed_head c Hwf) as Hhead.
  destruct Hwf as [Hne _]. rewrite checkboxLine_units.
  rewrite checkboxRegex_split. cbn [app]. rewrite cbPrefix_line by done.
  unfold spaces. rewrite matcher_Rep. cbn [before after capture].
  rewrite rep_take by done.
  assert (Hin : rep lineFlags Space true 0 None (32%N :: 93%N :: 32%N :: 91%N :: 32%N :: 45%N :: bef)
            (c ++ rest)
            (λ bef0 aft, matcher lineFlags (Group dots)
               {| before := bef0; after := aft; capture := None |}
               (λ s3, matcher lineFlags Eol s3 Some))
          = Some {| before := rev c ++ 32%N :: 93%N :: 32%N :: 91%N :: 32%N :: 45%N :: bef;
                    after := rest; capture := Some c |}).
  { destruct c as [|x c]; [done|]. simpl in Hhead.
    rewrite rep_stop by done.
    rewrite matcher_Group. unfold dots. rewrite matcher_Rep. cbn [before after capture].
    rewrite rep_unfold. cbn -[rep]. apply Forall_cons in Hc as [Hx Hc]. rewrite Hx. cbn -[rep].
    apply dots_line; [done|done|].
    rewrite matcher_Eol. cbn [before after capture]. rewrite Heol.
    change (S (length (c ++ rest))) with (length ((x :: c) ++ rest)).
    change (x :: c ++ rest) with ((x :: c) ++ rest). rewrite take_capture.
    by rewrite <- app_assoc. }
  rewrite Hin. simpl rev. by rewrite <- !app_assoc.
Qed.

(** ** The loop over the lines *)

Lemma execLoop_S fuel re bef aft criteria :
  execLoop (S fuel) re bef aft criteria =
    match search lineFlags re bef aft with
    | None => Returns criteria
    | Some s =>
        match capture s with
        | None => Throws
        | Some match1 => execLoop fuel re (before s) (after s) (push criteria match1)
        end
    end.
Proof. done. Qed.

Lemma checkbox_needs_bol bef aft :
  atBol lineFlags bef = false →
  matcher lineFlags checkboxRegex {| before := bef; after := aft; capture := None |} Some
  = None.
Proof.
  intros Hbol. unfold checkboxRegex. rewrite matcher_seq_of, matcher_Bol.
  cbn [before]. by rewrite Hbol.
Qed.

Lemma line_end_not_bol c bef :
  c ≠ [] → singleLine c → atBol lineFlags (rev (JS.lit "- [ ] " ++ c) ++ bef) = false.
Proof.
  intros Hne Hc. rewrite rev_app_distr, <- app_assoc.
  destruct (rev c) as [|y l] eqn:E.
  - apply (f_equal (@rev N)) in E. rewrite rev_involutive in E. by destruct Hne.
  - simpl. unfold singleLine in Hc. rewrite Forall_forall in Hc. apply Hc.
    apply list_elem_of_In, in_rev. rewrite E. by left.
Qed.

Lemma atEol_moreLines criteria : atEol lineFlags (moreLines criteria) = true.
Proof. by destruct criteria. Qed.

Lemma push_fresh criteria c :
  wellFormed c → c ∉ criteria → push criteria c = criteria ++ [c].
Proof.
  intros [Hne Htrim] Hnot. unfold push, includes. rewrite Htrim.
  by rewrite bool_decide_eq_false_2, bool_decide_eq_false_2.
Qed.

Lemma loop_moreLines criteria : ∀ fuel bef acc,
  atBol lineFlags bef = false →
  Forall (fun c => wellFormed c ∧ singleLine c) criteria →
  NoDup (acc ++ criteria) →
  length (moreLines criteria) < fuel →
  execLoop fuel checkboxRegex bef (moreLines criteria) acc = Returns (acc ++ criteria).
Proof.
  induction criteria as [|c cs IH]; intros fuel bef acc Hbol Hgood Hnd Hfuel.
  - destruct fuel as [|fuel]; [simpl in Hfuel; lia|].
    rewrite execLoop_S. simpl moreLines. rewrite search_unfold.
    rewrite checkbox_needs_bol by done. by rewrite app_nil_r.
  - destruct fuel as [|fuel]; [simpl in Hfuel; lia|].
    apply Forall_cons in Hgood as [[Hwf Hc] Hgood].
    rewrite execLoop_S. cbn [moreLines]. rewrite search_unfold.
    rewrite checkbox_needs_bol by done. rewrite search_unfold.
    rewrite checkbox_line; [|done|done|done|apply atEol_moreLines].
    cbn [capture before after].
    rewrite push_fresh; [|done|].
    2:{ apply NoDup_app in Hnd as (_ & Hdisj & _). intros Hin.
        apply (Hdisj _ Hin). by left. }
    rewrite IH.
    + by rewrite <- app_assoc.
    + apply line_end_not_bol; [apply Hwf|done].
    + done.
    + by rewrite <- app_assoc.
    + cbn [moreLines] in Hfuel. simpl in Hfuel. rewrite !length_app in Hfuel. lia.
Qed.

(** X18.  What POST /run-test writes as [rawDescription], one line
    ["- [ ] " + c] per criterion, reads back as the criteria themselves:
    when every criterion is non-empty, trimmed and free of line breaks,
    and no criterion occurs twice, [extractAcceptanceCriteria] returns
    exactly the list that was written. *)
Theorem rawDescription_round_trip (criteria : list jsstring) :
  Forall (fun c => wellFormed c ∧ singleLine c) criteria →
  NoDup criteria →
  extractAcceptanceCriteria (Text (rawDescription criteria)) = Returns criteria.
Proof.
  intros Hgood Hnd. destruct criteria as [|c cs]; [done|].
  assert (Hsec : acSectionMatch (rawDescription (c :: cs)) = None).
  { unfold acSectionMatch. rewrite acSection_none; [done|].
    apply noHeadingMark_rawDescription. eapply Forall_impl; [done|]. by intros ? [_ ?]. }
  assert (Hscan : scan checkboxRegex (rawDescription (c :: cs)) [] = Returns (c :: cs)).
  { unfold scan. rewrite rawDescription_cons, execLoop_S, search_unfold.
    apply Forall_cons in Hgood as [[Hwf Hc] Hgood].
    rewrite checkbox_line; [|done|done|done|apply atEol_moreLines].
    cbn [capture before after]. rewrite push_fresh; [|done|apply not_elem_of_nil].
    rewrite loop_moreLines; [done| |done|done|].
    - apply line_end_not_bol; [apply Hwf|done].
    - rewrite !length_app. rewrite checkboxLine_units. simpl. lia. }
  assert (Htext : rawDescription (c :: cs) ≠ []).
  { rewrite rawDescription_cons, checkboxLine_units. done. }
  unfold extractAcceptanceCriteria.
  destruct (rawDescription (c :: cs)) as [|x text] eqn:E; [done|].
  unfold textToSearch. rewrite Hsec. cbn [bind]. rewrite Hscan. by cbn.
Qed.

Lemma rawDescription_round_trip_witness :
  let criteria := [JS.lit "User can log in"; JS.lit "Dashboard shows 3 ideas"] in
  extractAcceptanceCriteria (Text (rawDescription criteria)) = Returns criteria.
Proof.
  apply (rawDescription_round_trip
           [JS.lit "User can log in"; JS.lit "Dashboard shows 3 ideas"]).
  - repeat constructor; try done; vm_compute; repeat constructor.
  - apply (bool_decide_unpack _). vm_compute. exact I.
Defined.

(** ** A check box without text *)

(** The section pattern needs a [#] with a line feed somewhere after
    it. *)
Lemma section_needs_mark_and_feed description :
  is_Some (acSectionMatch description) →
  ∃ a b c, description = a ++ 35%N :: b ++ 10%N :: c.
Proof.
  unfold acSectionMatch. intros [m Hm].
  destruct (search acSectionFlags acSectionRegex [] description) as [s|] eqn:Hs; [|done].
  apply search_found in Hs as (skipped & rest & -> & Hs & _).
  rewrite app_nil_r, acSectionRegex_split in Hs.
  apply matcher_sound in Hs as (w & aft1 & c1 & Hrest & Hhead & Hs).
  simpl in Hrest. subst rest.
  apply lang_acHead in Hhead as (u0 & hd & -> & _ & Hhd).
  destruct Hhd as (k & w1 & t1 & w2 & t2 & -> & [Hk _] & _).
  unfold spaces in Hs. rewrite matcher_Rep in Hs. simpl in Hs.
  apply rep_sound in Hs as (w3 & aft2 & -> & _ & _ & _ & Hs).
  unfold nl in Hs. rewrite matcher_Atom in Hs. simpl in Hs.
  destruct aft2 as [|y aft3]; [done|].
  destruct (sameChar acSectionFlags 10 y) eqn:Hy; [|done].
  apply sameChar_other in Hy; [|lia]. subst y.
  destruct k as [|k]; [lia|]. simpl.
  exists (skipped ++ u0), (replicate k 35%N ++ w1 ++ t1 ++ w2 ++ t2 ++ w3), aft3.
  repeat (rewrite <- app_assoc || rewrite <- app_comm_cons). done.
Qed.

Lemma no_mark_before_feed (p c a b d : jsstring) :
  35%N ∉ p → 10%N ∉ c → p ++ 10%N :: c ≠ a ++ 35%N :: b ++ 10%N :: d.
Proof.
  intros Hp Hc Heq.
  change (a ++ 35%N :: b ++ 10%N :: d) with (a ++ (35%N :: b) ++ 10%N :: d) in Heq.
  rewrite app_assoc in Heq.
  apply app_eq_inv in Heq as [(k & Hk1 & Hk2)|(k & Hk1 & Hk2)].
  - apply Hp. rewrite Hk1. set_solver.
  - destruct k as [|x k].
    + rewrite app_nil_r in Hk1. apply Hp. rewrite <- Hk1. set_solver.
    + injection Hk2 as <- ->. apply Hc. set_solver.
Qed.

(** X19.  A check box without text takes the next line as its text:
    for every line [c] that is non-empty, trimmed and free of line
    breaks, be it a heading, a numbered item or prose, the description
    ["- [ ]"], line feed, [c] yields the one criterion [c]. *)
Theorem empty_checkbox_takes_next_line (c : jsstring) :
  wellFormed c → singleLine c →
  extractAcceptanceCriteria (Text (JS.lit "- [ ]" ++ 10%N :: c)) = Returns [c].
Proof.
  intros Hwf Hc. pose proof (wellFormed_head c Hwf) as Hhead.
  set (text := JS.lit "- [ ]" ++ 10%N :: c).
  assert (Hsec : acSectionMatch text = None).
  { destruct (acSectionMatch text) as [m|] eqn:E; [|done]. exfalso.
    destruct (section_needs_mark_and_feed text) as (a & b & d & Heq); [by rewrite E|].
    revert Heq. apply no_mark_before_feed.
    - vm_compute. intros Hin. by repeat (apply elem_of_cons in Hin as [Hin|Hin]; [done|];
        try apply elem_of_nil in Hin).
    - intros Hin. unfold singleLine in Hc. rewrite Forall_forall in Hc.
      by specialize (Hc _ Hin). }
  assert (Hm : matcher lineFlags checkboxRegex
                 {| before := []; after := text; capture := None |} Some
               = Some {| before := rev text; after := []; capture := Some c |}).
  { unfold text. change (JS.lit "- [ ]") with [45; 32; 91; 32; 93]%N. cbn [app].
    rewrite checkboxRegex_split, cbPrefix_line by done.
    unfold spaces. rewrite matcher_Rep. cbn [before after capture].
    rewrite rep_take by done.
    destruct c as [|x c]; [by destruct Hwf|]. simpl in Hhead.
    rewrite rep_stop by done.
    rewrite matcher_Group. unfold dots. rewrite matcher_Rep. cbn [before after capture].
    rewrite rep_unfold. cbn -[rep]. apply Forall_cons in Hc as [Hx Hc]. rewrite Hx. cbn -[rep].
    rewrite <- (app_nil_r c) at 1.
    rewrite (dots_line c [] _ {| before := rev (x :: c) ++ [10; 93; 32; 91; 32; 45]%N;
                                 after := []; capture := Some (x :: c) |}); [|done|done|].
    - simpl. by rewrite <- !app_assoc.
    - rewrite matcher_Eol. cbn [before after capture atEol].
      simpl length. rewrite Nat.sub_0_r.
      change (take (S (length c)) (x :: c)) with (x :: take (length c) c).
      rewrite firstn_all. simpl. by rewrite <- !app_assoc. }
  assert (Hscan : scan checkboxRegex text [] = Returns [c]).
  { unfold scan. rewrite execLoop_S, search_unfold, Hm. cbn [capture before after].
    rewrite push_fresh; [|done|apply not_elem_of_nil].
    assert (Hlen : length text = S (length (tail text))) by (by unfold text).
    rewrite Hlen, execLoop_S, search_unfold, checkbox_needs_bol; [done|].
    unfold text. rewrite rev_app_distr. simpl rev. rewrite <- !app_assoc.
    destruct (rev c) as [|y l] eqn:E.
    - apply (f_equal (@rev N)) in E. rewrite rev_involutive in E. by destruct Hwf.
    - simpl. unfold singleLine in Hc. rewrite Forall_forall in Hc. apply Hc.
      apply list_elem_of_In, in_rev. rewrite E. by left. }
  unfold extractAcceptanceCriteria. fold text.
  destruct text as [|x t] eqn:E; [done|].
  unfold textToSearch. rewrite Hsec. cbn [bind]. rewrite Hscan. by cbn.
Qed.

Lemma empty_checkbox_takes_next_line_witness :
  extractAcceptanceCriteria (Text (JS.lit "- [ ]" ++ 10%N :: JS.lit "## Notes"))
  = Returns [JS.lit "## Notes"].
Proof.
  apply (empty_checkbox_takes_next_line (JS.lit "## Notes")).
  - split; [done|vm_compute; reflexivity].
  - vm_compute. repeat constructor.
Defined.

End RoundTrip.

(* ===================================================================== *)
(** * The strategies of the extractor, and the issue it is called for *)
(* ===================================================================== *)

Section IssueFacts.
Import Regex Linear Webhooks Issue.
Local Open Scope nat_scope.
#[local] Arguments matcher : simpl never.
#[local] Arguments rep : simpl never.

(** A search that fails leaves no match anywhere in the text. *)
Lemma search_None_no_match f r text :
  search f r [] text = None →
  ∀ skipped w rest c', text = skipped ++ w ++ rest →
    ¬ lang f r (rev skipped) w rest None c'.
Proof.
  intros Hnone skipped w rest c' -> Hlang.
  assert (is_Some (search f r [] (skipped ++ w ++ rest))) as [s Hs]; [|by rewrite Hs in Hnone].
  apply search_complete. rewrite app_nil_r.
  apply (matcher_complete f r _ {| before := rev skipped; after := w ++ rest; capture := None |}
           Some w rest c'); [done|done|by eexists].
Qed.

(** X20.  Bullet lines count only under an "Acceptance Criteria"
    heading: a description without such a section in which nothing
    matches the check-box or the numbered pattern yields no criteria,
    whatever bullets it has. *)
Theorem bullets_need_a_section (description : jsstring) :
  acSectionMatch description = None →
  (∀ re, re ∈ [checkboxRegex; numberedRegex] →
     ∀ skipped w rest c', description = skipped ++ w ++ rest →
       ¬ lang lineFlags re (rev skipped) w rest None c') →
  extractAcceptanceCriteria (Text description) = Returns [].
Proof.
  intros Hsec Hfree. destruct description as [|x description]; [done|].
  set (text := x :: description) in *.
  change (extractAcceptanceCriteria (Text text))
    with (bind (textToSearch text) (fun textToSearch =>
          bind (scan checkboxRegex textToSearch []) (fun criteria =>
          bind (if (length criteria =? 0)%nat
                then scan numberedRegex textToSearch criteria
                else Returns criteria) (fun criteria =>
          if (length criteria =? 0)%nat && bool_decide (is_Some (acSectionMatch text))
          then scan bulletRegex textToSearch criteria
          else Returns criteria)))).
  unfold textToSearch. rewrite Hsec. cbn [bind].
  destruct (scan_spec checkboxRegex text []) as (l1 & -> & _ & _ & _ & He1); [done|simpl; lia|].
  rewrite He1 by (apply Hfree; set_solver). cbn [bind app length Nat.eqb].
  destruct (scan_spec numberedRegex text []) as (l2 & -> & _ & _ & _ & He2); [done|simpl; lia|].
  rewrite He2 by (apply Hfree; set_solver). by cbn.
Qed.

Lemma bullets_need_a_section_witness :
  let bullets := JS.lines ["Notes"; "- first"; "* second"]%string in
  extractAcceptanceCriteria (Text bullets) = Returns []
  ∧ extractAcceptanceCriteria
      (Text (JS.lit "## Acceptance Criteria" ++ 10%N :: JS.lines ["- first"; "* second"]%string))
    = Returns [JS.lit "first"; JS.lit "second"].
Proof.
  split; [|vm_compute; reflexivity].
  apply (bullets_need_a_section (JS.lines ["Notes"; "- first"; "* second"]%string)).
  - vm_compute. reflexivity.
  - intros re Hre. apply search_None_no_match.
    apply elem_of_cons in Hre as [->|Hre]; [vm_compute; reflexivity|].
    apply list_elem_of_singleton in Hre as ->. vm_compute. reflexivity.
Defined.

(** The extractor returns, and what it returns is well formed. *)
Lemma extract_returns (d : Linear.description) :
  ∃ l, extractAcceptanceCriteria d = Returns l
     ∧ Forall wellFormed l ∧ (textOf d = [] → l = []).
Proof.
  destruct d as [| |[|x description]]; try (by exists []).
  set (text := x :: description).
  change (extractAcceptanceCriteria (Text text))
    with (bind (textToSearch text) (fun textToSearch =>
          bind (scan checkboxRegex textToSearch []) (fun criteria =>
          bind (if (length criteria =? 0)%nat
                then scan numberedRegex textToSearch criteria
                else Returns criteria) (fun criteria =>
          if (length criteria =? 0)%nat && bool_decide (is_Some (acSectionMatch text))
          then scan bulletRegex textToSearch criteria
          else Returns criteria)))).
  unfold textToSearch.
  destruct (acSectionMatch_cases text) as [Hm|(body & p & q & Hm & _ & _)];
    rewrite Hm; cbn [bind].
  - destruct (strategies_spec (bool_decide (is_Some (@None (option jsstring)))) text)
      as (l & Hl & _ & Hw & _ & _).
    exists l. by repeat split.
  - destruct (strategies_spec (bool_decide (is_Some (Some (Some body)))) body)
      as (l & Hl & _ & Hw & _ & _).
    exists l. by repeat split.
Qed.

(** X21.  [router.post("/linear")] parses every issue without throwing
    and looks at the criteria before it looks at the table of issues: an
    issue without criteria, one without a description among them, is
    answered with 200 whatever its record says, and nothing changes;
    every other issue goes to the duplicate guard, with criteria that are
    non-empty and trimmed. *)
Theorem webhook_needs_criteria (data : LinearIssue) (now : Z) (s : server) :
  ∃ parsedIssue,
    parseIssueForTesting data = Returns parsedIssue
    ∧ Parsed.id parsedIssue = id data
    ∧ Forall wellFormed (Parsed.acceptanceCriteria parsedIssue)
    ∧ (textOf (description data) = [] → Parsed.acceptanceCriteria parsedIssue = [])
    ∧ (Parsed.rawDescription parsedIssue = None
       ↔ description data = Null ∨ description data = Undefined)
    ∧ (Parsed.acceptanceCriteria parsedIssue = [] →
       linearWebhook data now s = Returns (s, NoCriteria (id data)))
    ∧ (Parsed.acceptanceCriteria parsedIssue ≠ [] →
       linearWebhook data now s
       = Returns ((postLinear (id data) now s).1, Guarded (postLinear (id data) now s).2)).
Proof.
  destruct (extract_returns (description data)) as (l & Hl & Hw & He).
  unfold linearWebhook, parseIssueForTesting. rewrite Hl. cbn [bind].
  eexists. split; [done|].
  cbn [Parsed.id Parsed.acceptanceCriteria Parsed.rawDescription].
  split; [done|]. split; [done|]. split; [done|]. split.
  { destruct (description data); naive_solver. }
  split.
  - by intros ->.
  - intros Hne. destruct l as [|c l]; [done|]. cbn [length Nat.eqb].
    by destruct (postLinear (id data) now s).
Qed.


End IssueFacts.

(* ===================================================================== *)
(** * cleanTestName *)
(* ===================================================================== *)

Section ReportFacts.
Import Regex Linear Report.
Local Open Scope nat_scope.
#[local] Arguments matcher : simpl never.
#[local] Arguments rep : simpl never.

(** A greedy quantifier takes all it can when the rest then matches. *)
Lemma rep_all {A} f a run rest (k : list N → list N → option A) r :
  Forall (fun x => accepts f a x = true) run →
  match rest with c :: _ => accepts f a c = false | [] => True end →
  ∀ bef, k (rev run ++ bef) rest = Some r →
         rep f a true 0 None bef (run ++ rest) k = Some r.
Proof.
  intros Hrun Hrest. induction Hrun as [|x run Hx Hrun IH]; intros bef Hk.
  - simpl in *. by rewrite rep_stop.
  - simpl. rewrite rep_take by done.
    rewrite IH; [done|]. simpl in Hk. by rewrite <- app_assoc in Hk.
Qed.

(** The white space at the start of [s], and what follows. *)
Lemma span_space (s : jsstring) :
  ∃ run rest, s = run ++ rest ∧ Forall (fun x => isSpace x = true) run
    ∧ match rest with c :: _ => isSpace c = false | [] => True end
    ∧ rest = trimStart s.
Proof.
  induction s as [|x s IH]; [by exists [], []|].
  destruct (isSpace x) eqn:E.
  - destruct IH as (run & rest & -> & Hrun & Hrest & Htrim).
    exists (x :: run), rest. simpl. rewrite E. repeat split; [by constructor|done|done].
  - exists [], (x :: s). simpl. by rewrite E.
Qed.

Lemma spaces_match bef x s :
  isSpace x = true →
  ∃ run, x :: s = run ++ trimStart s
    ∧ Forall (fun x => isSpace x = true) run ∧ run ≠ []
    ∧ matcher spacesFlags (Group spacesRegex)
        {| before := bef; after := x :: s; capture := None |} Some
      = Some {| before := rev run ++ bef; after := trimStart s; capture := Some run |}.
Proof.
  intros Hx. destruct (span_space s) as (run & rest & Hs & Hrun & Hrest & Htrim).
  exists (x :: run). rewrite <- Htrim. split; [by rewrite Hs|].
  split; [by constructor|]. split; [done|].
  rewrite matcher_Group. unfold spacesRegex. rewrite matcher_Rep. cbn [before after capture].
  rewrite rep_unfold. cbn -[rep]. rewrite Hx. cbn -[rep]. rewrite Hs.
  rewrite (rep_all spacesFlags Space run rest _
             {| before := rev (x :: run) ++ bef; after := rest; capture := Some (x :: run) |});
    [done|done|done|].
  cbn [before after capture].
  change (S (length (run ++ rest))) with (length ((x :: run) ++ rest)).
  change (x :: run ++ rest) with ((x :: run) ++ rest). rewrite take_capture.
  simpl. by rewrite <- app_assoc.
Qed.

Lemma spaces_no_match bef x s :
  isSpace x = false →
  matcher spacesFlags (Group spacesRegex)
    {| before := bef; after := x :: s; capture := None |} Some = None.
Proof.
  intros Hx. rewrite matcher_Group. unfold spacesRegex. rewrite matcher_Rep.
  cbn [before after capture]. rewrite rep_unfold. cbn -[rep]. by rewrite Hx.
Qed.

Lemma spaces_no_match_nil bef :
  matcher spacesFlags (Group spacesRegex)
    {| before := bef; after := []; capture := None |} Some = None.
Proof. rewrite matcher_Group. unfold spacesRegex. by rewrite matcher_Rep. Qed.

Lemma first_space (s : jsstring) :
  Forall (fun x => isSpace x = false) s
  ∨ ∃ u x v, s = u ++ x :: v ∧ Forall (fun x => isSpace x = false) u ∧ isSpace x = true.
Proof.
  induction s as [|y s IH]; [by left|].
  destruct (isSpace y) eqn:E; [right; by exists [], y, s|].
  destruct IH as [IH|(u & x & v & -> & Hu & Hx)].
  - left. by constructor.
  - right. exists (y :: u), x, v. repeat split; [by constructor|done].
Qed.

Lemma search_spaces_none aft : ∀ bef,
  Forall (fun x => isSpace x = false) aft →
  search spacesFlags (Group spacesRegex) bef aft = None.
Proof.
  induction aft as [|y aft IH]; intros bef Hno; rewrite search_unfold.
  - by rewrite spaces_no_match_nil.
  - apply Forall_cons in Hno as [Hy Hno]. rewrite spaces_no_match by done. by apply IH.
Qed.

Lemma search_spaces u x v : ∀ bef,
  Forall (fun x => isSpace x = false) u → isSpace x = true →
  ∃ run, x :: v = run ++ trimStart v
    ∧ Forall (fun x => isSpace x = true) run ∧ run ≠ []
    ∧ search spacesFlags (Group spacesRegex) bef (u ++ x :: v)
      = Some {| before := rev run ++ rev u ++ bef; after := trimStart v;
                capture := Some run |}.
Proof.
  induction u as [|y u IH]; intros bef Hu Hx.
  - destruct (spaces_match bef x v Hx) as (run & Heq & Hrun & Hne & Hm).
    exists run. repeat split; try done. cbn [app rev]. by rewrite search_unfold, Hm.
  - apply Forall_cons in Hu as [Hy Hu].
    destruct (IH (y :: bef) Hu Hx) as (run & Heq & Hrun & Hne & Hs).
    exists run. repeat split; try done.
    cbn [app rev]. rewrite search_unfold, spaces_no_match by done. rewrite Hs.
    by rewrite <- !app_assoc.
Qed.

Lemma collapse_nospace s :
  Forall (fun x => isSpace x = false) s → ∀ b, collapse b s = s.
Proof.
  induction 1 as [|x s Hx _ IH]; intros b; [done|]. simpl. by rewrite Hx, IH.
Qed.

Lemma collapse_run s : collapse true s = collapse false (trimStart s).
Proof.
  induction s as [|x s IH]; [done|]. simpl. destruct (isSpace x) eqn:E; [done|].
  simpl. by rewrite E.
Qed.

Lemma collapse_first u x v :
  Forall (fun x => isSpace x = false) u → isSpace x = true →
  collapse false (u ++ x :: v) = u ++ 32%N :: collapse false (trimStart v).
Proof.
  intros Hu Hx. induction Hu as [|y u Hy _ IH]; simpl.
  - by rewrite Hx, collapse_run.
  - by rewrite Hy, IH.
Qed.

Lemma upTo_app (u run rest : jsstring) : upTo (u ++ run ++ rest) rest run = u.
Proof.
  unfold upTo. rewrite !length_app.
  replace (length u + (length run + length rest) - length rest - length run)
    with (length u) by lia.
  by rewrite take_app_length.
Qed.

Lemma trimStart_length s : length (trimStart s) ≤ length s.
Proof.
  induction s as [|x s IH]; simpl; [done|]. destruct (isSpace x); simpl; lia.
Qed.

(** The loop of [replace(/\s+/g, " ")] makes one space of every run. *)
Lemma replaceLoop_spaces fuel : ∀ aft bef,
  length aft < fuel →
  replaceLoop fuel spacesFlags spacesRegex [32%N] bef aft = Returns (collapse false aft).
Proof.
  induction fuel as [|fuel IH]; intros aft bef Hfuel; [lia|].
  cbn [replaceLoop].
  destruct (first_space aft) as [Hno|(u & x & v & -> & Hu & Hx)].
  - by rewrite search_spaces_none, collapse_nospace.
  - destruct (search_spaces u x v bef Hu Hx) as (run & Heq & Hrun & Hne & ->).
    cbn [capture before after]. destruct run as [|y run]; [done|].
    rewrite IH.
    + cbn [bind]. rewrite Heq, upTo_app. by rewrite <- Heq, collapse_first.
    + rewrite length_app in Hfuel. simpl in Hfuel.
      pose proof (trimStart_length v). lia.
Qed.

Lemma replaceFirst_returns f re replacement s :
  ∃ r, replaceFirst f re replacement s = Returns r.
Proof.
  unfold replaceFirst. destruct (search f (Group re) [] s) as [p|] eqn:Hs; [|by eexists].
  apply search_sound in Hs as (skipped & w & _ & _ & Hlang).
  simpl in Hlang. destruct Hlang as [_ ->]. by eexists.
Qed.

Lemma spacedOnce_collapse s : ∀ b, spacedOnce b (collapse b s) = true.
Proof.
  induction s as [|x s IH]; intros b; [done|]. simpl.
  destruct (isSpace x) eqn:E.
  - destruct b; [apply IH|]. simpl. change (isSpace 32) with true. simpl. apply IH.
  - simpl. rewrite E. apply IH.
Qed.

Lemma spacedOnce_weaken s b : spacedOnce b s = true → spacedOnce false s = true.
Proof.
  destruct s as [|x s]; [done|]. simpl. destruct (isSpace x); [|done].
  by intros [[_ ->]%andb_true_iff ->]%andb_true_iff.
Qed.

Lemma spacedOnce_suffix a s : ∀ b, spacedOnce b (a ++ s) = true → spacedOnce false s = true.
Proof.
  induction a as [|x a IH]; intros b; [apply spacedOnce_weaken|]. simpl.
  destruct (isSpace x); [|apply IH].
  intros [_ H]%andb_true_iff. by eapply IH.
Qed.

Lemma spacedOnce_prefix s c : ∀ b, spacedOnce b (s ++ c) = true → spacedOnce b s = true.
Proof.
  induction s as [|x s IH]; intros b; [done|]. simpl.
  destruct (isSpace x); [|apply IH].
  intros [-> H]%andb_true_iff. by rewrite (IH _ H).
Qed.

Lemma spacedOnce_singleSpaced s : spacedOnce false s = true → singleSpaced s.
Proof.
  intros Hs. split.
  - intros x [a [b ->]]%list_elem_of_split Hx.
    apply spacedOnce_suffix in Hs. simpl in Hs. rewrite Hx in Hs.
    apply andb_true_iff in Hs as [Hs _]. by apply N.eqb_eq in Hs.
  - intros a x y b -> [Hx Hy]. apply spacedOnce_suffix in Hs. simpl in Hs.
    rewrite Hx, Hy in Hs. simpl in Hs. by rewrite andb_false_r in Hs.
Qed.

(** X22.  [cleanTestName] returns for every name, and what it returns
    is trimmed, holds no white space but single spaces, and never two
    spaces in a row. *)
Theorem cleanTestName_normal (name : jsstring) :
  ∃ r, cleanTestName name = Returns r ∧ trim r = r ∧ singleSpaced r.
Proof.
  unfold cleanTestName.
  destruct (replaceFirst_returns shouldFlags shouldRegex [] name) as [s1 ->].
  cbn [bind]. unfold replaceAll. rewrite replaceLoop_spaces by lia. cbn [bind].
  eexists. split; [done|]. split; [apply trim_trim|].
  apply spacedOnce_singleSpaced.
  destruct (trim_within (collapse false s1)) as (a & b & Heq).
  pose proof (spacedOnce_collapse s1 false) as Hs. rewrite Heq in Hs.
  apply spacedOnce_suffix in Hs. by apply spacedOnce_prefix in Hs.
Qed.

(** The prefix goes, the runs of white space shrink, the ends are
    trimmed. *)
Lemma cleanTestName_example :
  cleanTestName (JS.lit "Should   display  the login  page ")
  = Returns (JS.lit "display the login page")
  ∧ cleanTestName (JS.lit "shouldering on") = Returns (JS.lit "shouldering on").
Proof. split; vm_compute; reflexivity. Qed.

End ReportFacts.
